(** * Spherical isotropic distribution-function models: a shallow embedding

    This development embeds the numerical core of [galaxymodel_spherical.cpp]
    (construction of [SphericalIsotropicModel] and
    [SphericalIsotropicModelLocal], their query methods, the free functions
    [computeDensity] and [computeProjectedDensity], the integrand of
    [samplePosVel] and the tabulation done by
    [writeSphericalIsotropicModel]), the spherical potentials of
    [potential_analytic.cpp] and the comparison [equalPosVel] of
    [debug_utils.h], and proves properties of their control flow and of
    the signs and sizes of what they compute.

    Numbers are IEEE-754 binary64 values, as in the C++ source: the type
    [float] of primitive floats, whose operations are specified by the
    standard library against [SpecFloat].  Comparisons therefore behave as
    in C++ on NaN and on infinities. *)

From Stdlib Require Import ZArith List Bool Lia String Ascii.
From Stdlib Require Import Floats.
Import ListNotations.

Set Warnings "-inexact-float".

(* ================================================================= *)
(** ** Outcomes of a call *)

(** A message is the concatenation of string literals and of numbers
    printed by [utils::toString]; the printing of numbers is not modelled,
    the number itself is kept. *)
Inductive fragment : Type :=
| Txt (s : string)
| Num (x : float).

Definition message := list fragment.

(** The two exception classes thrown by the source. *)
Inductive exception : Type :=
| runtime_error (msg : message)
| invalid_argument (msg : message).

(** What ends a call other than a return or a C++ exception. *)
Inductive fault : Type :=
| OutOfRange        (* [operator[]], [front()] or [back()] outside the vector *)
| AssertionFailed.  (* a failed [assert] in a build without NDEBUG *)

Inductive outcome (A : Type) : Type :=
| Ok (a : A)
| Throw (e : exception)
| Fault (f : fault).

Arguments Ok {A} a.
Arguments Throw {A} e.
Arguments Fault {A} f.

Definition bind {A B : Type} (c : outcome A) (k : A -> outcome B) : outcome B :=
  match c with
  | Ok a => k a
  | Throw e => Throw e
  | Fault f => Fault f
  end.

Declare Scope outcome_scope.
Delimit Scope outcome_scope with outcome.
Notation "x <- c ;; k" := (bind c (fun x => k))
  (at level 61, c at next level, right associativity) : outcome_scope.
Notation "' p <- c ;; k" := (bind c (fun x => let 'p := x in k))
  (at level 61, p pattern, c at next level, right associativity) : outcome_scope.

Definition is_ok {A : Type} (c : outcome A) : bool :=
  match c with Ok _ => true | _ => false end.

Definition throws {A : Type} (c : outcome A) : bool :=
  match c with Throw _ => true | _ => false end.

(* ================================================================= *)
(** ** Vectors *)

(** [std::vector<double>] is a list.  An index computed in
    [unsigned int] wraps modulo 2^32; reading outside the vector is
    undefined behaviour and is reported as a fault. *)
Definition uint (z : Z) : Z := (z mod 2 ^ 32)%Z.

Definition at_ (v : list float) (i : Z) : outcome float :=
  if ((0 <=? i) && (i <? Z.of_nat (List.length v)))%Z
  then Ok (nth (Z.to_nat i) v 0%float)
  else Fault OutOfRange.

Definition front (v : list float) : outcome float := at_ v 0.

Definition back (v : list float) : outcome float :=
  match v with
  | [] => Fault OutOfRange
  | _ => Ok (last v 0%float)
  end.

Fixpoint set_nth (i : nat) (x : float) (v : list float) : list float :=
  match v, i with
  | [], _ => []
  | _ :: t, O => x :: t
  | a :: t, S j => a :: set_nth j x t
  end.

(** [v.back() = f(v.back())] on a non-empty vector. *)
Fixpoint update_back (f : float -> float) (v : list float) : list float :=
  match v with
  | [] => []
  | [a] => [f a]
  | a :: t => a :: update_back f t
  end.

(* ================================================================= *)
(** ** Interfaces consumed by the source *)

(** [math::IFunction]: a function of one variable with [numDerivs]
    analytic derivatives; [evalDeriv] yields value, first and second
    derivative. *)
Record IFunction : Type := {
  value : float -> float;
  evalDeriv : float -> float * float * float;
  numDerivs : nat
}.

(** [potential::PhaseVolume]: [E(h, &g, &dgdh)], [operator()(E)] and
    [deltaE(logh1, logh2, &g1)]. *)
Record PhaseVolume : Type := {
  pv_E : float -> float * float * float;
  pv_h : float -> float;
  pv_deltaE : float -> float -> float * float
}.

Definition E_of (pv : PhaseVolume) (h : float) : float := fst (fst (pv_E pv h)).
Definition g_of (pv : PhaseVolume) (h : float) : float := snd (fst (pv_E pv h)).
Definition dgdh_of (pv : PhaseVolume) (h : float) : float := snd (pv_E pv h).

(** Interpolators are built by [math::LogLogSpline] and
    [math::CubicSpline2d], whose code is not part of the sources at hand.
    A spline is represented by the node data handed to its constructor;
    its evaluation is a member of [MathLib] below. *)
Record LogLogSpline : Type := {
  xval : list float;
  fval : list float;
  fder : list float
}.

Record CubicSpline2d : Type := {
  xgrid : list float;
  ygrid : list float;
  zval : list (list float)      (* row i holds the values at (x_i, y_j) *)
}.

Definition PRNGState := Z.

(** The numerical library the source is linked against: the C math
    library and the [math::] namespace.  Its routines are total functions
    here: what a routine does when it fails is part of its result (the
    root-finder returns NaN when it cannot bracket a root). *)
Record MathLib : Type := {
  exp : float -> float;
  log : float -> float;
  pow : float -> float -> float;
  gamma : float -> float;
  hypergeom2F1 : float -> float -> float -> float -> float;
  (* [math::GLPOINTS[order][k]], [math::GLWEIGHTS[order][k]] *)
  GLPOINTS : nat -> nat -> float;
  GLWEIGHTS : nat -> nat -> float;
  (* [createInterpolationGrid(LogLogScaledFnc(df), ACCURACY_INTERP)] *)
  createInterpolationGrid : IFunction -> list float;
  createNonuniformGrid : nat -> float -> float -> bool -> list float;
  integrateGL : (float -> float) -> float -> float -> nat -> float;
  (* [ScaledIntegrand<ScalingCub>(ScalingCub(a, b), f)] *)
  scaledIntegrandCub : float -> float -> (float -> float) -> float -> float;
  findRoot : (float -> float) -> float -> float -> float -> float;
  random : PRNGState -> float * PRNGState;
  clamp : float -> float -> float -> float;
  spline_value : LogLogSpline -> float -> float;
  spline_evalDeriv : LogLogSpline -> float -> float * float * float;
  spline2d_value : CubicSpline2d -> float -> float -> float
}.

(* ================================================================= *)
(** ** Constants of the translation unit *)

Definition EPSROOT : float := 1e-6.
Definition GLORDER : nat := 8.
Definition GLORDER1 : nat := 6.
Definition GLORDER2 : nat := 10.
Definition GLDELTA : float := 0.7.
Definition MIN_VALUE_ROUNDOFF : float := 0.9999999999999e-100.

Definition M_PI : float := 3.14159265358979323846.
Definition M_SQRT2 : float := 1.41421356237309504880.
Definition M_SQRTPI : float := 1.77245385090551602729.

(** [fmin] and [fmax] of the C library: a NaN operand is ignored. *)
Definition fmin (x y : float) : float :=
  if is_nan x then y else if is_nan y then x else if (y <? x)%float then y else x.

Definition fmax (x y : float) : float :=
  if is_nan x then y else if is_nan y then x else if (x <? y)%float then y else x.

(** [pow_2] and [pow_3] of [math_core.h]: square and cube. *)
Definition pow_2 (x : float) : float := (x * x)%float.
Definition pow_3 (x : float) : float := (x * x * x)%float.

(* ================================================================= *)
(** ** [computeDensity]: density and velocity dispersion from the DF *)

Section ComputeDensity.

Variable M : MathLib.
(** [ndebug] tells whether the translation unit was compiled with NDEBUG,
    in which case [assert] expands to nothing. *)
Variable ndebug : bool.
Variable df : IFunction.
Variable pv : PhaseVolume.
(** The whole grid [gridPhi], and whether [gridVelDisp] is non-null. *)
Variable gridPhi : list float.
Variable wantVelDisp : bool.

Local Open Scope float_scope.
Local Open Scope outcome_scope.

Definition computeDensity_error : exception :=
  runtime_error [Txt "computeDensity: grid in Phi must be monotonically increasing"].

(** The loop [for(j=0; j<=i; j++)]: [n] nodes remain, [gp], [res] and
    [vd] are the parts of [gridPhi], [result] and [*gridVelDisp] from
    index [j] on. *)
Fixpoint computeDensity_j (Phi weight : float) (n : nat)
    (gp res vd : list float) : outcome (list float * list float) :=
  match n, gp, res, vd with
  | S n', p :: gp', r :: res', v :: vd' =>
      let dif := Phi - p in
      if negb ndebug && negb (0 <=? dif) then Fault AssertionFailed
      else
        let val := if 0 <? dif then sqrt dif * weight else 0 in
        '(res'', vd'') <- computeDensity_j Phi weight n' gp' res' vd' ;;
        Ok ((r + val) :: res'',
            (if wantVelDisp then v + val * dif else v) :: vd'')
  | _, _, _, _ => Ok (res, vd)
  end.

(** The loop [for(k=0; k<GLORDER; k++)] over the nodes [ks] that remain,
    on segment [i] whose left end is [Phi_i]. *)
Fixpoint computeDensity_k (i : nat) (Phi_i deltaPhi : float) (ks : list nat)
    (res vd : list float) : outcome (list float * list float) :=
  match ks with
  | [] => Ok (res, vd)
  | k :: ks' =>
      let y := GLPOINTS M GLORDER k in
      let Phi := Phi_i + y * y * deltaPhi in
      let weight := GLWEIGHTS M GLORDER k * 2 * y * deltaPhi
                    * value df (pv_h pv Phi) * (4 * M_PI * M_SQRT2) in
      '(res', vd') <- computeDensity_j Phi weight (S i) gridPhi res vd ;;
      computeDensity_k i Phi_i deltaPhi ks' res' vd'
  end.

(** The loop [for(i=0; i<gridsize; i++)]: [rest] is [gridPhi] from index
    [i] on. *)
Fixpoint computeDensity_i (i : nat) (rest : list float)
    (res vd : list float) : outcome (list float * list float) :=
  match rest with
  | [] => Ok (res, vd)
  | Phi_i :: rest' =>
      let deltaPhi := match rest' with [] => 0 | next :: _ => next end - Phi_i in
      if deltaPhi <=? 0 then Throw computeDensity_error
      else
        '(res', vd') <- computeDensity_k i Phi_i deltaPhi (seq 0 GLORDER) res vd ;;
        computeDensity_i (S i) rest' res' vd'
  end.

Definition zeros (n : nat) : list float := repeat 0 n.

(** The final pass [gridVelDisp[i] = sqrt(2./3 * gridVelDisp[i] / result[i])]. *)
Fixpoint finish_velDisp (res vd : list float) : list float :=
  match res, vd with
  | r :: res', v :: vd' => sqrt (2 / 3 * v / r) :: finish_velDisp res' vd'
  | _, _ => []
  end.

(** Returns [result] and, when requested, the contents of [*gridVelDisp]. *)
Definition computeDensity : outcome (list float * option (list float)) :=
  let gridsize := List.length gridPhi in
  '(res, vd) <- computeDensity_i 0 gridPhi (zeros gridsize) (zeros gridsize) ;;
  Ok (res, if wantVelDisp then Some (finish_velDisp res vd) else None).

End ComputeDensity.

(* ================================================================= *)
(** ** [SphericalIsotropicModel] *)

Record SphericalIsotropicModel : Type := {
  phasevol : PhaseVolume;
  intf : LogLogSpline;     (* int_h^inf f / g dh *)
  intfg : LogLogSpline;    (* int_0^h f dh *)
  intfh : LogLogSpline;    (* int_0^h f h / g dh *)
  intfE : LogLogSpline;    (* - int_0^h f E dh *)
  totalMass : float;
  htransition : float
}.

(** Pairs of neighbouring grid nodes: segment [i] is [(v[i-1], v[i])]. *)
Fixpoint segments (v : list float) : list (float * float) :=
  match v with
  | a :: (b :: _) as t => (a, b) :: segments t
  | _ => []
  end.

(** [x[n-1] = tail; x[i-1] = s[i] + x[i]], from the outside in. *)
Fixpoint cumul_outside_in (s : list float) (tail : float) : list float :=
  match s with
  | [] => [tail]
  | a :: t =>
      let r := cumul_outside_in t tail in
      (a + hd 0 r)%float :: r
  end.

(** [x[0] = first; x[i] = s[i] + x[i-1]], from the inside out. *)
Fixpoint cumul_inside_out (first : float) (s : list float) : list float :=
  first :: match s with
           | [] => []
           | a :: t => cumul_inside_out (a + first)%float t
           end.

(** The loop [for(i=1; i<npoints-1 && gridFGint[i+1] < totalMass*0.999; i++)
    htransition = gridH[i];] where [hs] is [gridH] from index [i] on and
    [fgs] is [gridFGint] from index [i+1] on. *)
Fixpoint htransition_loop (totalMass : float) (hs fgs : list float)
    (htransition : float) : float :=
  match hs, fgs with
  | h :: hs', fg :: fgs' =>
      if (fg <? totalMass * 0.999)%float
      then htransition_loop totalMass hs' fgs' h
      else htransition
  | _, _ => htransition
  end.

Section Construction.

Variable M : MathLib.
Variable pvol : PhaseVolume.
Variable df : IFunction.

Local Open Scope float_scope.
Local Open Scope outcome_scope.

(** Step 1: the grid in [log h], generated when [gridh] is empty. *)
Definition make_gridLogH (gridh : list float) : list float :=
  match gridh with
  | [] => createInterpolationGrid M df
  | _ => map (log M) gridh
  end.

Definition negative_df_error (h f : float) : exception :=
  runtime_error [Txt "SphericalIsotropicModel: f("; Num h; Txt ")="; Num f].

(** Step 2: [gridF], [gridG], [gridH], [gridE] at the nodes. *)
Fixpoint tabulate (gridLogH : list float)
    : outcome (list float * list float * list float * list float) :=
  match gridLogH with
  | [] => Ok ([], [], [], [])
  | x :: t =>
      let h := exp M x in
      let f := value df h in
      if negb (0 <=? f) then Throw (negative_df_error h f)
      else
        '(F, G, H, E) <- tabulate t ;;
        Ok (f :: F, g_of pvol h :: G, h :: H, E_of pvol h :: E)
  end.

(** Index [npoints - k] in [unsigned int] arithmetic. *)
Definition from_end (npoints : nat) (k : Z) : Z := uint (Z.of_nat npoints - k).

(** Step 3a, first half: the power-law slopes of f(h) at both ends. *)
Definition infer_Fslopes (gridLogH gridF gridH : list float)
    : outcome (float * float) :=
  let npoints := List.length gridLogH in
  if (1 <=? numDerivs df)%nat then
    h0 <- at_ gridH 0 ;;
    let der0 := snd (fst (evalDeriv df h0)) in
    f0 <- at_ gridF 0 ;;
    let innerFslope := der0 / f0 * h0 in
    h1 <- at_ gridH (from_end npoints 1) ;;
    let der1 := snd (fst (evalDeriv df h1)) in
    f1 <- at_ gridF (from_end npoints 1) ;;
    Ok (innerFslope, der1 / f1 * h1)
  else
    fa <- at_ gridF 1 ;;
    fb <- at_ gridF 0 ;;
    xa <- at_ gridLogH 1 ;;
    xb <- at_ gridLogH 0 ;;
    let innerFslope := log M (fa / fb) / (xa - xb) in
    fc <- at_ gridF (from_end npoints 1) ;;
    fd <- at_ gridF (from_end npoints 2) ;;
    xc <- at_ gridLogH (from_end npoints 1) ;;
    xd <- at_ gridLogH (from_end npoints 2) ;;
    Ok (innerFslope, log M (fc / fd) / (xc - xd)).

Definition nl : string := String (ascii_of_nat 10) EmptyString.

Definition rises_too_rapidly (h0 f0 h1 f1 slope : float) : exception :=
  runtime_error
    [Txt ("SphericalIsotropicModel: f(h) rises too rapidly as h-->0" ++ nl ++ "f(h=");
     Num h0; Txt ")="; Num f0; Txt "; f(h="; Num h1; Txt ")="; Num f1;
     Txt " => f ~ h^"; Num slope].

Definition falls_off_too_slowly (h1 f1 h2 f2 slope : float) : exception :=
  runtime_error
    [Txt ("SphericalIsotropicModel: f(h) falls off too slowly as h-->infinity"
          ++ nl ++ "f(h=");
     Num h1; Txt ")="; Num f1; Txt "; f(h="; Num h2; Txt ")="; Num f2;
     Txt " => f ~ h^"; Num slope].

(** The two exceptions that report a divergent mass. *)
Definition DivergentMass (e : exception) : Prop :=
  (exists h0 f0 h1 f1 slope, e = rises_too_rapidly h0 f0 h1 f1 slope) \/
  (exists h1 f1 h2 f2 slope, e = falls_off_too_slowly h1 f1 h2 f2 slope).

(** Step 3a, second half: snap tiny boundary values of f to zero, or
    reject slopes for which the mass diverges.  Each test returns the
    updated [gridF] and the slope. *)
Definition check_inner_Fslope (gridF gridH : list float) (innerFslope : float)
    : outcome (list float * float) :=
  f0 <- at_ gridF 0 ;;
  if f0 <=? MIN_VALUE_ROUNDOFF then Ok (set_nth 0 0 gridF, 0)
  else if negb (-1 <? innerFslope) then
    h0 <- at_ gridH 0 ;;
    h1 <- at_ gridH 1 ;;
    f1 <- at_ gridF 1 ;;
    Throw (rises_too_rapidly h0 f0 h1 f1 innerFslope)
  else Ok (gridF, innerFslope).

Definition check_outer_Fslope (gridF gridH : list float) (outerFslope : float)
    : outcome (list float * float) :=
  let npoints := List.length gridF in
  fl <- at_ gridF (from_end npoints 1) ;;
  if fl <=? MIN_VALUE_ROUNDOFF
  then Ok (set_nth (Z.to_nat (from_end npoints 1)) 0 gridF, 0)
  else if negb (outerFslope <? -1) then
    hl <- at_ gridH (from_end npoints 1) ;;
    hp <- at_ gridH (from_end npoints 2) ;;
    fp <- at_ gridF (from_end npoints 2) ;;
    Throw (falls_off_too_slowly hl fl hp fp outerFslope)
  else Ok (gridF, outerFslope).

Definition check_Fslopes (gridF gridH : list float) (innerFslope outerFslope : float)
    : outcome (list float * float * float) :=
  '(gridF1, innerFslope1) <- check_inner_Fslope gridF gridH innerFslope ;;
  '(gridF2, outerFslope1) <- check_outer_Fslope gridF1 gridH outerFslope ;;
  Ok (gridF2, innerFslope1, outerFslope1).

Definition weird_potential (Phi0 innerE outerE : float) : exception :=
  runtime_error
    [Txt ("SphericalIsotropicModel: weird behaviour of potential" ++ nl ++ "Phi(0)=");
     Num Phi0; Txt ", innerE="; Num innerE; Txt ", outerE="; Num outerE].

Definition weird_E_at_infinity (outerEslope : float) : exception :=
  runtime_error
    [Txt "SphericalIsotropicModel: weird behaviour of E(h) at infinity: E ~ h^";
     Num outerEslope].

Definition weird_f_at_origin (innerEslope innerFslope : float) : exception :=
  runtime_error
    [Txt "SphericalIsotropicModel: weird behaviour of f(h) at origin: E ~ h^";
     Num innerEslope; Txt ", f ~ h^"; Num innerFslope;
     Txt ", their product grows faster than h^-1 => total energy is infinite"].

(** Step 3b: the asymptotic behaviour of E(h).  Returns [Phi0], the
    (possibly shifted) [innerE], [outerE], [innerEslope], [outerEslope]. *)
Definition infer_Eslopes (gridG gridH gridE : list float) (innerFslope : float)
    : outcome (float * float * float * float * float) :=
  let Phi0 := E_of pvol 0 in
  innerE <- front gridE ;;
  outerE <- back gridE ;;
  if negb ((Phi0 <? innerE) && (innerE <? outerE) && (outerE <? 0))
  then Throw (weird_potential Phi0 innerE outerE)
  else
    let innerE := if negb (Phi0 =? neg_infinity) then innerE - Phi0 else innerE in
    hf <- front gridH ;;
    gf <- front gridG ;;
    hb <- back gridH ;;
    gb <- back gridG ;;
    let innerEslope := hf / gf / innerE in
    let outerEslope := hb / gb / outerE in
    if negb (outerEslope <? 0) then Throw (weird_E_at_infinity outerEslope)
    else if negb (-1 <? innerEslope + innerFslope)
    then Throw (weird_f_at_origin innerEslope innerFslope)
    else Ok (Phi0, innerE, outerE, innerEslope, outerEslope).

(** Step 4a, the loop [for(k=0; k<glorder; k++)] on the segment from
    [logh0] of length [dlogh]: the contributions to [gridFint[i-1]],
    [gridFGint[i]], [gridFHint[i]] and [gridFEint[i]], accumulated in
    [acc]. *)
Fixpoint segment_loop (glorder : nat) (logh0 dlogh : float) (ks : list nat)
    (acc : float * float * float * float) : outcome (float * float * float * float) :=
  match ks with
  | [] => Ok acc
  | k :: ks' =>
      let '(aF, aFG, aFH, aFE) := acc in
      let logh := logh0 + dlogh * GLPOINTS M glorder k in
      let weight := GLWEIGHTS M glorder k * dlogh in
      let h := exp M logh in
      let g := g_of pvol h in
      let E := E_of pvol h in
      let f := value df h in
      if negb (0 <=? f) then Throw (negative_df_error h f)
      else
        let integrand := f * h * weight in
        segment_loop glorder logh0 dlogh ks'
          (aF + integrand / g, aFG + integrand, aFH + integrand / g * h,
           aFE - integrand * E)
  end.

Definition segment_integrals (seg : float * float)
    : outcome (float * float * float * float) :=
  let dlogh := snd seg - fst seg in
  let glorder := if dlogh <? GLDELTA then GLORDER1 else GLORDER2 in
  segment_loop glorder (fst seg) dlogh (seq 0 glorder) (0, 0, 0, 0).

(** Step 4a, the loop over all interior segments [i = 1 .. npoints-1]. *)
Fixpoint interior_integrals (segs : list (float * float))
    : outcome (list float * list float * list float * list float) :=
  match segs with
  | [] => Ok ([], [], [], [])
  | seg :: t =>
      '(sF, sFG, sFH, sFE) <- segment_integrals seg ;;
      '(F, FG, FH, FE) <- interior_integrals t ;;
      Ok (sF :: F, sFG :: FG, sFH :: FH, sFE :: FE)
  end.

Definition nowhere_positive : exception :=
  runtime_error [Txt "SphericalIsotropicModel: f(h) is nowhere positive"].

Definition invalid_interpolators : exception :=
  runtime_error [Txt "SphericalIsotropicModel: cannot construct valid interpolators"].

(** Step 5a, the test applied at node [i]. *)
Definition node_is_valid (gridF gridG gridH gridE
    gridFint gridFGint gridFHint gridFEint : list float) (i : nat) : bool :=
  let F := nth i gridF 0 in
  let G := nth i gridG 0 in
  let H := nth i gridH 0 in
  let E := nth i gridE 0 in
  (- F / G <=? 0) && (0 <=? F) && (0 <=? F * H / G) && (0 <=? - F * E) &&
  is_finite (nth i gridFint 0 + nth i gridFGint 0 + nth i gridFHint 0
             + nth i gridFEint 0).

Fixpoint zip_with (f : float -> float -> float) (a b : list float) : list float :=
  match a, b with
  | x :: a', y :: b' => f x y :: zip_with f a' b'
  | _, _ => []
  end.

(** The constructor [SphericalIsotropicModel(phasevol, df, gridh)]. *)
Definition SphericalIsotropicModel_new (gridh : list float)
    : outcome SphericalIsotropicModel :=
  (* 1 *)
  let gridLogH := make_gridLogH gridh in
  let npoints := List.length gridLogH in
  (* 2 *)
  '(gridF0, gridG, gridH, gridE) <- tabulate gridLogH ;;
  (* 3a *)
  '(innerFslope0, outerFslope0) <- infer_Fslopes gridLogH gridF0 gridH ;;
  '(gridF, innerFslope, outerFslope) <-
    check_Fslopes gridF0 gridH innerFslope0 outerFslope0 ;;
  (* 3b *)
  '(Phi0, innerE, outerE, innerEslope, outerEslope) <-
    infer_Eslopes gridG gridH gridE innerFslope ;;
  let outerRatio := outerFslope / outerEslope in
  (* 4a *)
  '(sF, sFG, sFH, sFE) <- interior_integrals (segments gridLogH) ;;
  Fb <- back gridF ;;
  Hb <- back gridH ;;
  Gb <- back gridG ;;
  F0 <- at_ gridF 0 ;;
  H0 <- at_ gridH 0 ;;
  G0 <- at_ gridG 0 ;;
  (* 4b *)
  let gridFint := cumul_outside_in sF (- Fb * outerE / (1 + outerRatio)) in
  (* 4c *)
  let gridFGint0 := cumul_inside_out (F0 * H0 / (1 + innerFslope)) sFG in
  let gridFHint0 :=
    cumul_inside_out (F0 * pow_2 H0 / G0 / (1 + innerEslope + innerFslope)) sFH in
  let gridFEint0 :=
    cumul_inside_out
      (F0 * H0 * (if 0 <=? innerEslope
                  then - Phi0 / (1 + innerFslope)
                  else - innerE / (1 + innerFslope + innerEslope))) sFE in
  let gridFGint :=
    update_back (fun x => x - Fb * Hb / (1 + outerFslope)) gridFGint0 in
  let gridFHint :=
    update_back (fun x => x - Fb * pow_2 Hb / Gb / (1 + outerEslope + outerFslope))
      gridFHint0 in
  let gridFEint :=
    update_back (fun x => x + Fb * Hb * outerE / (1 + outerEslope + outerFslope))
      gridFEint0 in
  totalMass <- back gridFGint ;;
  if negb (0 <? totalMass) then Throw nowhere_positive
  else
    let htransition :=
      htransition_loop totalMass (skipn 1 gridH) (skipn 2 gridFGint) H0 in
    (* 5a *)
    if negb (forallb (node_is_valid gridF gridG gridH gridE
                        gridFint gridFGint gridFHint gridFEint) (seq 0 npoints))
    then Throw invalid_interpolators
    else
      let gridFder := zip_with (fun f g => - f / g) gridF gridG in
      let gridFGder := update_back (fun _ => 0) gridF in
      let gridFHder :=
        update_back (fun _ => 0)
          (zip_with (fun fh g => fh / g) (zip_with (fun f h => f * h) gridF gridH) gridG) in
      let gridFEder :=
        update_back (fun _ => 0) (zip_with (fun f e => - f * e) gridF gridE) in
      (* 5b *)
      Ok {| phasevol := pvol;
            intf  := {| xval := gridH; fval := gridFint;  fder := gridFder |};
            intfg := {| xval := gridH; fval := gridFGint; fder := gridFGder |};
            intfh := {| xval := gridH; fval := gridFHint; fder := gridFHder |};
            intfE := {| xval := gridH; fval := gridFEint; fder := gridFEder |};
            totalMass := totalMass;
            htransition := htransition |}.

End Construction.

(* ================================================================= *)
(** ** Queries of [SphericalIsotropicModel] *)

Section Queries.

Variable M : MathLib.
Variable model : SphericalIsotropicModel.

Local Open Scope float_scope.

(** [evalDeriv(h, f, dfdh)]: [want_f] and [want_dfdh] tell which of the
    two output pointers are non-null; an output that is not requested is
    [None]. *)
Definition SphericalIsotropicModel_evalDeriv (h : float) (want_f want_dfdh : bool)
    : option float * option float :=
  if h <? htransition model then
    let '(_, der, der2) := spline_evalDeriv M (intfg model) h in
    ((if want_f then Some der else None),
     (if want_dfdh then Some der2 else None))
  else
    let '(_, der, der2) := spline_evalDeriv M (intf model) h in
    let g := g_of (phasevol model) h in
    let dgdh := dgdh_of (phasevol model) h in
    ((if want_f then Some (- der * g) else None),
     (if want_dfdh then Some (- der2 * g - der * dgdh) else None)).

Definition I0 (h : float) : float := spline_value M (intf model) h.

Definition cumulMass (h : float) : float :=
  if h =? infinity then totalMass model else spline_value M (intfg model) h.

Definition cumulEkin (h : float) : float := 1.5 * spline_value M (intfh model) h.

Definition cumulEtotal (h : float) : float := - spline_value M (intfE model) h.

End Queries.

(** The crossover point as the specification words it: the largest grid
    value h_i such that FGint(h_i) < 0.999 totalMass.  The grid and the
    tabulated FGint are the nodes of the [intfg] interpolator. *)
Definition largest_node_below_threshold (m : SphericalIsotropicModel) (h : float)
    : Prop :=
  let gridH := xval (intfg m) in
  let gridFGint := fval (intfg m) in
  (exists i, (i < List.length gridH)%nat /\ nth i gridH 0%float = h /\
             (nth i gridFGint 0 <? totalMass m * 0.999)%float = true) /\
  (forall i, (i < List.length gridH)%nat ->
             (nth i gridFGint 0 <? totalMass m * 0.999)%float = true ->
             (nth i gridH 0 <=? h)%float = true).

(* ================================================================= *)
(** ** [SphericalIsotropicModelLocal] *)

(** The derived class adds the two 2d interpolators to the base object. *)
Record SphericalIsotropicModelLocal : Type := {
  base : SphericalIsotropicModel;
  intJ1 : CubicSpline2d;
  intJ3 : CubicSpline2d
}.

(** [xmin()], [xmax()], [ymin()], [ymax()] of a 2d spline: the ends of its
    grids. *)
Definition xmin (s : CubicSpline2d) : float := hd 0%float (xgrid s).
Definition xmax (s : CubicSpline2d) : float := last (xgrid s) 0%float.
Definition ymin (s : CubicSpline2d) : float := hd 0%float (ygrid s).
Definition ymax (s : CubicSpline2d) : float := last (ygrid s) 0%float.

Section LocalConstruction.

Variable M : MathLib.
Variable this : SphericalIsotropicModel.
Variable df : IFunction.

Local Open Scope float_scope.
Local Open Scope outcome_scope.

(** [SphericalIsotropicDFIntegrand<P>::value(logh)] for P = 0, 1, 3; the
    integer power [math::pow(w, P)] is written out. *)
Definition DFIntegrand (P : nat) (logh0 logh : float) : float :=
  let h := exp M logh in
  let '(dE, g) := pv_deltaE (phasevol this) logh logh0 in
  let w := sqrt dE in
  let wP := match P with
            | 0%nat => 1
            | 1%nat => w
            | _ => w * w * w
            end in
  value df h * h / g * wP.

(** The loop [while(!gridLogH.empty() && df(exp(gridLogH.back())) <=
    MIN_VALUE_ROUNDOFF) gridLogH.pop_back();], on the reversed vector. *)
Fixpoint pop_while_tiny (rev_grid : list float) : list float :=
  match rev_grid with
  | [] => []
  | x :: t =>
      if value df (exp M x) <=? MIN_VALUE_ROUNDOFF then pop_while_tiny t
      else rev_grid
  end.

(** A node whose DF value is at or below the threshold. *)
Definition tiny (x : float) : Prop :=
  (value df (exp M x) <=? MIN_VALUE_ROUNDOFF) = true.

Definition trim_grid (gridLogH : list float) : list float :=
  rev (pop_while_tiny (rev gridLogH)).

Definition local_nowhere_positive : exception :=
  runtime_error [Txt "SphericalIsotropicModelLocal: f(h) is nowhere positive"].

Definition local_falls_off_too_slowly : exception :=
  runtime_error
    [Txt "SphericalIsotropicModelLocal: f(h) falls off too slowly as h-->infinity"].

Definition weird_phase_volume (outerE outerH outerG outerEslope outerFslope : float)
    : exception :=
  runtime_error
    [Txt ("SphericalIsotropicModelLocal: weird asymptotic behaviour of phase volume"
          ++ nl ++ "h(E=");
     Num outerE; Txt ")="; Num outerH; Txt "; dh/dE="; Num outerG;
     Txt " => outerEslope="; Num outerEslope; Txt ", outerFslope="; Num outerFslope].

(** One step [j >= 1] of the loop over Y in row [i]: returns the updated
    accumulators and the two table entries [gridJ1(i,j)], [gridJ3(i,j)]. *)
Definition row_step (is_last_row : bool) (logh_i outerE outerEslope outerRatio
    outerJ1 outerJ3 : float) (j : nat) (Yprev Ycurr : float)
    (acc : float * float * float) : (float * float * float) * (float * float) :=
  let '(J0acc, J1acc, J3acc) := acc in
  let logHprev := logh_i + Yprev in
  let logHcurr := logh_i + Ycurr in
  let piece (P : nat) : float :=
    if (j =? 1)%nat
    then integrateGL M (scaledIntegrandCub M logHprev logHcurr (DFIntegrand P logh_i))
           0 1 GLORDER
    else integrateGL M (DFIntegrand P logh_i) logHprev logHcurr GLORDER in
  let '(J0acc, J1acc, J3acc) :=
    if (j =? 1)%nat then (piece 0%nat, piece 1%nat, piece 3%nat)
    else (J0acc + piece 0%nat, J1acc + piece 1%nat, J3acc + piece 3%nat) in
  let '(J0acc, J1acc, J3acc) :=
    if is_last_row then
      let EoverPhi := exp M (Ycurr * outerEslope) in
      let oneMinusJ0overI0 := pow M EoverPhi (1 + outerRatio) in
      let Fval1 := hypergeom2F1 M (-0.5) (1 + outerRatio) (2 + outerRatio) EoverPhi in
      let Fval3 := hypergeom2F1 M (-1.5) (1 + outerRatio) (2 + outerRatio) EoverPhi in
      let I0 := I0 M this (exp M logh_i) in
      let sqPhi := sqrt (- outerE) in
      if is_finite (Fval1 + Fval3) then
        (I0 * (1 - oneMinusJ0overI0),
         I0 * (outerJ1 - oneMinusJ0overI0 * Fval1) * sqPhi,
         I0 * (outerJ3 - oneMinusJ0overI0 * Fval3) * pow_3 sqPhi)
      else (J0acc, J1acc, J3acc)
    else (J0acc, J1acc, J3acc) in
  let dv := sqrt (fst (pv_deltaE (phasevol this) logHcurr logh_i)) in
  let J1overJ0 := J1acc / J0acc / dv in
  let J3overJ0 := J3acc / J0acc / pow_3 dv in
  let '(J1overJ0, J3overJ0) :=
    if (J1overJ0 <=? 0) || (J3overJ0 <=? 0) || negb (is_finite (J1overJ0 + J3overJ0))
    then (2 / 3, 2 / 5)
    else (J1overJ0, J3overJ0) in
  ((J0acc, J1acc, J3acc), (log M J1overJ0, log M J3overJ0)).

(** The loop [for(j=1; j<npointsY; j++)] of row [i], over the indices
    [js] that remain; it reads [gridY[j-1]] and [gridY[j]]. *)
Fixpoint row_loop (is_last_row : bool) (logh_i outerE outerEslope outerRatio
    outerJ1 outerJ3 : float) (gridY : list float) (js : list nat)
    (acc : float * float * float) : list float * list float :=
  match js with
  | [] => ([], [])
  | j :: js' =>
      let '(acc', (e1, e3)) :=
        row_step is_last_row logh_i outerE outerEslope outerRatio outerJ1 outerJ3
          j (nth (j - 1) gridY 0) (nth j gridY 0) acc in
      let '(r1, r3) :=
        row_loop is_last_row logh_i outerE outerEslope outerRatio outerJ1 outerJ3
          gridY js' acc' in
      (e1 :: r1, e3 :: r3)
  end.

Definition npointsY : nat := 100.

(** Row [i] of [gridJ1] and of [gridJ3]: the entry at Y = 0 is the analytic
    limit for Phi = E, the others come from the loop over Y. *)
Definition make_row (is_last_row : bool) (logh_i outerE outerEslope outerRatio
    outerJ1 outerJ3 : float) (gridY : list float) : list float * list float :=
  let '(r1, r3) :=
    row_loop is_last_row logh_i outerE outerEslope outerRatio outerJ1 outerJ3
      gridY (seq 1 (npointsY - 1)) (0, 0, 0) in
  (log M (2 / 3) :: r1, log M (2 / 5) :: r3).

(** A row of the J1 table and of the J3 table: [npointsY] entries, the
    first of which is the analytic limit. *)
Definition boundary_row (c : float) (row : list float) : Prop :=
  List.length row = npointsY /\ nth 0 row 0 = log M c.

(** The loop [for(i=0; i<npoints; i++)]: [rows] is [gridLogH] from index
    [i] on. *)
Fixpoint make_rows (outerE outerEslope outerRatio outerJ1 outerJ3 : float)
    (gridY : list float) (rows : list float)
    : list (list float) * list (list float) :=
  match rows with
  | [] => ([], [])
  | logh_i :: rows' =>
      let is_last_row := match rows' with [] => true | _ => false end in
      let '(r1, r3) :=
        make_row is_last_row logh_i outerE outerEslope outerRatio outerJ1 outerJ3 gridY in
      let '(t1, t3) :=
        make_rows outerE outerEslope outerRatio outerJ1 outerJ3 gridY rows' in
      (r1 :: t1, r3 :: t3)
  end.

(** [SphericalIsotropicModelLocal::init(df, gridh)]: returns the two 2d
    interpolators. *)
Definition init (gridh : list float) : outcome (CubicSpline2d * CubicSpline2d) :=
  (* 1 *)
  let gridLogH0 :=
    match gridh with
    | [] => createInterpolationGrid M df
    | _ => map (log M) gridh
    end in
  let gridLogH := trim_grid gridLogH0 in
  if (List.length gridLogH <? 3)%nat then Throw local_nowhere_positive
  else
    let logHmin := hd 0 gridLogH in
    let logHmax := last gridLogH 0 in
    let npoints := List.length gridLogH in
    let mindeltaY := fmin 0.1 ((logHmax - logHmin) / 100) in
    let gridY := createNonuniformGrid M npointsY mindeltaY (logHmax - logHmin) true in
    (* 3 *)
    let outerH := exp M logHmax in
    let outerG := g_of (phasevol this) outerH in
    let outerE := E_of (phasevol this) outerH in
    let outerFslope :=
      if (1 <=? numDerivs df)%nat then
        let '(val, der, _) := evalDeriv df outerH in
        der / val * outerH
      else
        log M (value df outerH / value df (exp M (nth (npoints - 2) gridLogH 0)))
        / (nth (npoints - 1) gridLogH 0 - nth (npoints - 2) gridLogH 0) in
    if negb (outerFslope <? -1) then Throw local_falls_off_too_slowly
    else
      let outerEslope := outerH / outerG / outerE in
      let outerRatio := outerFslope / outerEslope in
      if negb (0 <? outerRatio)
      then Throw (weird_phase_volume outerE outerH outerG outerEslope outerFslope)
      else
        (* 5a *)
        let outerJ1 :=
          0.5 * M_SQRTPI * gamma M (2 + outerRatio) / gamma M (2.5 + outerRatio) in
        let outerJ3 := outerJ1 * 1.5 / (2.5 + outerRatio) in
        (* 5b *)
        let '(gridJ1, gridJ3) :=
          make_rows outerE outerEslope outerRatio outerJ1 outerJ3 gridY gridLogH in
        (* 5c *)
        Ok ({| xgrid := gridLogH; ygrid := gridY; zval := gridJ1 |},
            {| xgrid := gridLogH; ygrid := gridY; zval := gridJ3 |}).

End LocalConstruction.

Section LocalModel.

Variable M : MathLib.

Local Open Scope float_scope.
Local Open Scope outcome_scope.

(** Modelled from the spec: the constructor of the derived class is
    declared in [galaxymodel_spherical.h], which is not among the sources;
    by section 4.2 it builds the base 1d integrals and then runs [init]. *)
Definition SphericalIsotropicModelLocal_new (pvol : PhaseVolume) (df : IFunction)
    (gridh : list float) : outcome SphericalIsotropicModelLocal :=
  b <- SphericalIsotropicModel_new M pvol df gridh ;;
  '(J1, J3) <- init M b df gridh ;;
  Ok {| base := b; intJ1 := J1; intJ3 := J3 |}.

Variable this : SphericalIsotropicModelLocal.

(** [VelocitySampleRootFinder::value(loghEoverhPhi)]. *)
Definition VelocitySampleRootFinder (Phi loghPhi I0plusJ0 target : float)
    (loghEoverhPhi : float) : float :=
  let hE := exp M (loghEoverhPhi + loghPhi) in
  let E := E_of (phasevol (base this)) hE in
  let J0 := I0plusJ0 - I0 M (base this) hE in
  let J1 := exp M (spline2d_value M (intJ1 this) loghPhi loghEoverhPhi) * J0 in
  let val := J1 * sqrt (fmax (E - Phi) 0) in
  val - target.

Definition invalid_Phi : exception :=
  invalid_argument [Txt "SphericalIsotropicModelLocal: invalid value of Phi"].

(** The root that [sampleVelocity] asks of [math::findRoot] once the
    uniform deviate [frac] is drawn: the value of [loghEoverhPhi]. *)
Definition sampleVelocity_root (Phi frac : float) : float :=
  let hPhi := pv_h (phasevol (base this)) Phi in
  let loghPhi := clamp M (log M hPhi) (xmin (intJ1 this)) (xmax (intJ1 this)) in
  let I0plusJ0 := I0 M (base this) hPhi in
  let maxJ1 :=
    exp M (spline2d_value M (intJ1 this) loghPhi (ymax (intJ1 this))) * I0plusJ0 in
  let target := frac * maxJ1 * sqrt (- Phi) in
  findRoot M (VelocitySampleRootFinder Phi loghPhi I0plusJ0 target)
    (ymin (intJ1 this)) (ymax (intJ1 this)) EPSROOT.

(** [sampleVelocity(Phi, state)]: returns the speed and the new state of
    the random-number generator.  (The deviate is drawn after [maxJ1] is
    computed in the source; the computations before it are pure.) *)
Definition sampleVelocity (Phi : float) (state : PRNGState)
    : outcome (float * PRNGState) :=
  if negb (Phi <? 0) then Throw invalid_Phi
  else
    let '(frac, state') := random M state in
    let loghEoverhPhi := sampleVelocity_root Phi frac in
    if negb (0 <=? loghEoverhPhi) then Ok (0, state')
    else
      let hPhi := pv_h (phasevol (base this)) Phi in
      let loghPhi := clamp M (log M hPhi) (xmin (intJ1 this)) (xmax (intJ1 this)) in
      let hE := exp M (loghEoverhPhi + loghPhi) in
      let E := E_of (phasevol (base this)) hE in
      Ok (sqrt (2 * (E - Phi)), state').

(** [density(Phi)]. *)
Definition density (Phi : float) : outcome float :=
  if negb (Phi <? 0) then Throw invalid_Phi
  else
    let hPhi := pv_h (phasevol (base this)) Phi in
    let loghPhi := clamp M (log M hPhi) (xmin (intJ1 this)) (xmax (intJ1 this)) in
    let J1overJ0 := exp M (spline2d_value M (intJ1 this) loghPhi (ymax (intJ1 this))) in
    let I0plusJ0 := I0 M (base this) hPhi in
    Ok (4 * M_PI * M_SQRT2 * sqrt (- Phi) * J1overJ0 * I0plusJ0).

(** [velDisp(Phi)]. *)
Definition velDisp (Phi : float) : outcome float :=
  if negb (Phi <? 0) then Throw invalid_Phi
  else
    let hPhi := pv_h (phasevol (base this)) Phi in
    let loghPhi := clamp M (log M hPhi) (xmin (intJ1 this)) (xmax (intJ1 this)) in
    let J3overJ1 :=
      exp M (spline2d_value M (intJ3 this) loghPhi (ymax (intJ3 this))
             - spline2d_value M (intJ1 this) loghPhi (ymax (intJ1 this))) in
    Ok (sqrt (-2 / 3 * Phi * J3overJ1)).

End LocalModel.

(* ================================================================= *)
(** ** A reference numerical library and a reference model

    The examples below run the embedding on concrete inputs.  They need
    an implementation of [MathLib]: plain textbook algorithms with the
    interfaces of the library routines (they are not the routines the
    source is linked against, whose code is not at hand). *)

Module Ref.

Local Open Scope float_scope.

Definition ln2 : float := 0.6931471805599453.

(** Integer part of a float (towards zero), and a small integer as a float. *)
Definition trunc (x : float) : Z :=
  match Prim2SF x with
  | S754_finite s m e => cond_Zopp s (Z.shiftl (Zpos m) e)
  | _ => 0%Z
  end.

Definition of_Z (z : Z) : float :=
  match z with
  | Z0 => 0
  | Zpos _ => of_uint63 (Uint63.of_Z z)
  | Zneg p => - of_uint63 (Uint63.of_Z (Zpos p))
  end.

Definition of_nat (n : nat) : float := of_Z (Z.of_nat n).

(** exp(x) = 2^k exp(r) with |r| <= ln(2)/2 and a Taylor polynomial. *)
Definition exp (x : float) : float :=
  if is_nan x then nan
  else if 710 <? x then infinity
  else if x <? -746 then 0
  else
    let k := trunc (x / ln2 + (if x <? 0 then -0.5 else 0.5)) in
    let r := x - of_Z k * ln2 in
    let p := fold_right (fun n acc => 1 + r / n * acc) 1
               [1; 2; 3; 4; 5; 6; 7; 8; 9; 10; 11; 12; 13; 14] in
    Z.ldexp p k.

(** log(x) = e ln 2 + 2 atanh((m-1)/(m+1)) with m in [1/sqrt 2, sqrt 2). *)
Definition log (x : float) : float :=
  if is_nan x then nan
  else if x <? 0 then nan
  else if x =? 0 then neg_infinity
  else if x =? infinity then infinity
  else
    let '(m, e) := Z.frexp x in
    let '(m, e) := if m <? 0.7071067811865476 then (m * 2, (e - 1)%Z) else (m, e) in
    let t := (m - 1) / (m + 1) in
    let t2 := t * t in
    let s := fold_right (fun n acc => 1 / n + t2 * acc) 0
               [1; 3; 5; 7; 9; 11; 13; 15; 17; 19; 21; 23; 25] in
    of_Z e * ln2 + 2 * t * s.

Definition pow (x y : float) : float :=
  if y =? 0 then 1 else if x =? 0 then 0 else exp (y * log x).

(** Lanczos approximation of the gamma function (g = 7, 9 terms), for
    arguments above 1/2. *)
Definition gamma (x : float) : float :=
  let z := x - 1 in
  let c := [676.5203681218851; -1259.1392167224028; 771.32342877765313;
            -176.61502916214059; 12.507343278686905; -0.13857109526572012;
            9.9843695780195716e-6; 1.5056327351493116e-7] in
  let a := fst (fold_left (fun '(acc, i) ci => (acc + ci / (z + i), i + 1)) c
                  (0.99999999999980993, 1)) in
  let t := z + 7.5 in
  sqrt (2 * M_PI) * pow t (z + 0.5) * exp (- t) * a.

(** Gauss series of 2F1(a, b; c; z), 80 terms. *)
Definition hypergeom2F1 (a b c z : float) : float :=
  fst (fold_left (fun '(sum, term) n =>
                    let n' := of_nat n in
                    let term' := term * (a + n') * (b + n') / (c + n') / (n' + 1) * z in
                    (sum + term', term'))
         (seq 0 80) (1, 1)).

Definition GLPOINTS (order k : nat) : float :=
  match order with
  | 6%nat => nth k [0.03376524289842399; 0.16939530676686773; 0.38069040695840156;
                    0.6193095930415985; 0.8306046932331322; 0.966234757101576] 0
  | 8%nat => nth k [0.019855071751231884; 0.10166676129318664; 0.2372337950418355;
                    0.4082826787521751; 0.591717321247825; 0.7627662049581645;
                    0.8983332387068134; 0.9801449282487681] 0
  | 10%nat => nth k [0.01304673574141414; 0.06746831665550775; 0.1602952158504878;
                     0.2833023029353764; 0.4255628305091844; 0.5744371694908156;
                     0.7166976970646236; 0.8397047841495122; 0.9325316833444922;
                     0.9869532642585859] 0
  | _ => 0
  end.

Definition GLWEIGHTS (order k : nat) : float :=
  match order with
  | 6%nat => nth k [0.08566224618958518; 0.1803807865240693; 0.23395696728634552;
                    0.23395696728634552; 0.1803807865240693; 0.08566224618958518] 0
  | 8%nat => nth k [0.05061426814518813; 0.11119051722668724; 0.15685332293894363;
                    0.181341891689181; 0.181341891689181; 0.15685332293894363;
                    0.11119051722668724; 0.05061426814518813] 0
  | 10%nat => nth k [0.03333567215434407; 0.0747256745752903; 0.10954318125799102;
                     0.13463335965499817; 0.14776211235737644; 0.14776211235737644;
                     0.13463335965499817; 0.10954318125799102; 0.0747256745752903;
                     0.03333567215434407] 0
  | _ => 0
  end.

Definition integrateGL (f : float -> float) (x1 x2 : float) (order : nat) : float :=
  fold_left (fun acc k =>
               acc + GLWEIGHTS order k * (x2 - x1) * f (x1 + (x2 - x1) * GLPOINTS order k))
    (seq 0 order) 0.

(** Cubic change of variable x = a + (b-a) t^2 (3-2t), times dx/dt. *)
Definition scaledIntegrandCub (a b : float) (f : float -> float) (t : float) : float :=
  f (a + (b - a) * (t * t * (3 - 2 * t))) * (6 * (b - a) * t * (1 - t)).

(** A grid of [n] nodes from 0 to [xmax] whose cells grow in a geometric
    progression from [xmin]; the ratio is found by bisection. *)
Definition geometric_sum (q : float) (n : nat) : float :=
  fst (fold_left (fun '(s, p) _ => (s + p, p * q)) (seq 0 n) (0, 1)).

Definition createNonuniformGrid (n : nat) (xmin xmax : float) (zeroelem : bool)
    : list float :=
  let cells := (n - 1)%nat in
  let q := fst (fold_left
                  (fun '(lo, hi) _ =>
                     let mid := (lo + hi) / 2 in
                     if xmin * geometric_sum mid cells <? xmax then (mid, hi) else (lo, mid))
                  (seq 0 60) (1, 2)) in
  let inner := fst (fold_left (fun '(acc, (x, d)) _ => (acc ++ [x + d], (x + d, d * q)))
                      (seq 0 (cells - 1)) ([], (0, xmin))) in
  (0 :: inner) ++ [xmax].

(** Bisection; NaN when the root is not bracketed. *)
Definition findRoot (f : float -> float) (x1 x2 rel_toler : float) : float :=
  let f1 := f x1 in
  let f2 := f x2 in
  if f1 =? 0 then x1
  else if f2 =? 0 then x2
  else if negb (((f1 <? 0) && (0 <? f2)) || ((f2 <? 0) && (0 <? f1))) then nan
  else
    let '(lo, hi) :=
      fold_left (fun '(lo, hi) _ =>
                   let mid := (lo + hi) / 2 in
                   if (f mid <? 0) && (f1 <? 0) || (0 <? f mid) && (0 <? f1)
                   then (mid, hi) else (lo, mid))
        (seq 0 40) (x1, x2) in
    (lo + hi) / 2.

(** A linear congruential generator. *)
Definition random (state : PRNGState) : float * PRNGState :=
  let s := ((state * 1103515245 + 12345) mod 2147483648)%Z in
  (of_Z s / 2147483648, s).

Definition clamp (x low upp : float) : float :=
  if x <? low then low else if upp <? x then upp else x.

(** Piecewise-linear interpolation of the node values in log-log
    coordinates, with the slope of the end segments outside the grid;
    returns value, first and second derivative. *)
Fixpoint loglog_segment (xs fs : list float) (x : float)
    : option (float * float * float * float) :=
  match xs, fs with
  | x0 :: ((x1 :: _) as xs'), f0 :: ((f1 :: _) as fs') =>
      match xs' with
      | [_] => Some (x0, f0, x1, f1)
      | _ => if x <? x1 then Some (x0, f0, x1, f1) else loglog_segment xs' fs' x
      end
  | _, _ => None
  end.

Definition spline_evalDeriv (s : LogLogSpline) (x : float) : float * float * float :=
  match loglog_segment (xval s) (fval s) x with
  | Some (x0, f0, x1, f1) =>
      let slope := log (f1 / f0) / log (x1 / x0) in
      let v := f0 * exp (slope * log (x / x0)) in
      (v, slope * v / x, slope * (slope - 1) * v / (x * x))
  | None => (nan, nan, nan)
  end.

Definition spline_value (s : LogLogSpline) (x : float) : float :=
  fst (fst (spline_evalDeriv s x)).

(** The table entry of the cell that holds (x, y). *)
Fixpoint cell_index (xs : list float) (x : float) : nat :=
  match xs with
  | _ :: ((x1 :: _) as xs') => if x <? x1 then 0%nat else S (cell_index xs' x)
  | _ => 0%nat
  end.

Definition spline2d_value (s : CubicSpline2d) (x y : float) : float :=
  nth (cell_index (ygrid s) y) (nth (cell_index (xgrid s) x) (zval s) []) 0.

Definition createInterpolationGrid (f : IFunction) : list float :=
  map (fun k => log 10 * (of_Z k)) [-3; -2; -1; 0; 1; 2; 3]%Z.

Definition lib : MathLib :=
  Build_MathLib exp log pow gamma hypergeom2F1 GLPOINTS GLWEIGHTS
    createInterpolationGrid createNonuniformGrid integrateGL scaledIntegrandCub
    findRoot random clamp spline_value spline_evalDeriv spline2d_value.

(** A phase volume with h(E) = 1/E^2, that is E(h) = -1/sqrt(h) and
    g(h) = dh/dE = 2 h^(3/2); E(0) is minus infinity. *)
Definition pvol : PhaseVolume := {|
  pv_E := fun h => (-1 / sqrt h, 2 * h * sqrt h, 3 * sqrt h);
  pv_h := fun E => 1 / (E * E);
  pv_deltaE := fun logh1 logh2 =>
    (exp (-0.5 * logh2) - exp (-0.5 * logh1),
     2 * exp logh1 * sqrt (exp logh1))
|}.

(** f(h) = 1/(1+h^2): flat at small h, falling as h^-2 at large h; no
    analytic derivative is offered. *)
Definition df : IFunction := {|
  value := fun h => 1 / (1 + h * h);
  evalDeriv := fun h => (1 / (1 + h * h), nan, nan);
  numDerivs := 0
|}.

(** f(h) = h^(-1/2), whose mass diverges at large h. *)
Definition df_sqrt : IFunction := {|
  value := fun h => 1 / sqrt h;
  evalDeriv := fun h => (1 / sqrt h, nan, nan);
  numDerivs := 0
|}.

(** The first DF cut off to zero above h = 50. *)
Definition df_cut : IFunction := {|
  value := fun h => if h <? 50 then 1 / (1 + h * h) else 0;
  evalDeriv := fun h => (if h <? 50 then 1 / (1 + h * h) else 0, nan, nan);
  numDerivs := 0
|}.

Definition gridh : list float := [0.01; 0.1; 1; 10; 100].

Definition empty_spline : LogLogSpline := {| xval := []; fval := []; fder := [] |}.
Definition empty_spline2d : CubicSpline2d := {| xgrid := []; ygrid := []; zval := [] |}.

(** The numerical content of a model, and the model with a given content. *)
Definition fields (m : SphericalIsotropicModel)
    : LogLogSpline * LogLogSpline * LogLogSpline * LogLogSpline * float * float :=
  (intf m, intfg m, intfh m, intfE m, totalMass m, htransition m).

Definition with_fields (pv : PhaseVolume)
    (f : LogLogSpline * LogLogSpline * LogLogSpline * LogLogSpline * float * float)
    : SphericalIsotropicModel :=
  let '(a, b, c, d, t, h) := f in
  {| phasevol := pv; intf := a; intfg := b; intfh := c; intfE := d;
     totalMass := t; htransition := h |}.

Definition result_fields (c : outcome SphericalIsotropicModel) :=
  match c with Ok m => Some (fields m) | _ => None end.

Definition no_fields :=
  (empty_spline, empty_spline, empty_spline, empty_spline, 0, 0).

Definition result_tables (c : outcome (CubicSpline2d * CubicSpline2d)) :=
  match c with Ok t => Some t | _ => None end.

(** The model built from [pvol], [df] and [gridh], with its tabulated
    content computed once, and its local extension. *)
Definition model_fields :=
  Eval vm_compute in
    match result_fields (SphericalIsotropicModel_new lib pvol df gridh) with
    | Some f => f
    | None => no_fields
    end.

Definition model : SphericalIsotropicModel := with_fields pvol model_fields.

Definition local_tables :=
  Eval vm_compute in
    match result_tables (init lib model df gridh) with
    | Some t => t
    | None => (empty_spline2d, empty_spline2d)
    end.

Definition local : SphericalIsotropicModelLocal :=
  {| base := model; intJ1 := fst local_tables; intJ3 := snd local_tables |}.

(** The same for the cut-off DF. *)
Definition model_cut_fields :=
  Eval vm_compute in
    match result_fields (SphericalIsotropicModel_new lib pvol df_cut gridh) with
    | Some f => f
    | None => no_fields
    end.

Definition model_cut : SphericalIsotropicModel := with_fields pvol model_cut_fields.

Definition local_cut_tables :=
  Eval vm_compute in
    match result_tables (init lib model_cut df_cut gridh) with
    | Some t => t
    | None => (empty_spline2d, empty_spline2d)
    end.

Definition local_cut : SphericalIsotropicModelLocal :=
  {| base := model_cut; intJ1 := fst local_cut_tables; intJ3 := snd local_cut_tables |}.

End Ref.

(* ================================================================= *)
(** ** Auxiliary notions used in the statements and proofs *)

(** A grid is strictly increasing when every node is below the next one. *)
Fixpoint strictly_increasing (v : list float) : bool :=
  match v with
  | a :: ((b :: _) as t) => (a <? b)%float && strictly_increasing t
  | _ => true
  end.

(** The values of [deltaPhi] met by the loop over [i] of [computeDensity]
    on the part [rest] of the grid: the step to the next node, and the
    step from the last node to 0. *)
Fixpoint deltas (rest : list float) : list float :=
  match rest with
  | [] => []
  | Phi_i :: rest' =>
      (match rest' with [] => 0 | next :: _ => next end - Phi_i)%float :: deltas rest'
  end.

(** A binary64 value of sign [s] (NaN has none), and the value +0. *)
Definition has_sign (s : bool) (x : spec_float) : Prop :=
  match x with
  | S754_zero s' | S754_infinity s' | S754_finite s' _ _ => s' = s
  | S754_nan => False
  end.

Definition SFzero : spec_float := S754_zero false.

(** A zero or a finite non-zero value. *)
Definition SF_is_finite (x : spec_float) : Prop :=
  match x with
  | S754_zero _ | S754_finite _ _ _ => True
  | _ => False
  end.

(** The state [mrs] of a right shift of the mantissa [M] by [n] digits:
    it holds the quotient, and no digit is recorded as lost when the
    shift is exact. *)
Definition shifted (M n : Z) (mrs : shr_record) : Prop :=
  (0 <= n)%Z /\ shr_m mrs = (M / 2 ^ n)%Z /\
  ((M mod 2 ^ n = 0)%Z -> shr_r mrs = false /\ shr_s mrs = false).

(** The library [M] with another table of Gauss-Legendre nodes. *)
Definition with_GLPOINTS (M : MathLib) (nodes : nat -> nat -> float) : MathLib :=
  Build_MathLib (exp M) (log M) (pow M) (gamma M) (hypergeom2F1 M) nodes (GLWEIGHTS M)
    (createInterpolationGrid M) (createNonuniformGrid M) (integrateGL M)
    (scaledIntegrandCub M) (findRoot M) (random M) (clamp M) (spline_value M)
    (spline_evalDeriv M) (spline2d_value M).

(** The squares [y*y] of the Gauss-Legendre nodes that [computeDensity]
    reads are positive numbers. *)
Definition GL_squares_positive (M : MathLib) : bool :=
  forallb (fun k => 0 <? GLPOINTS M GLORDER k * GLPOINTS M GLORDER k)%float
          (seq 0 GLORDER).

(* ================================================================= *)
(** ** [computeProjectedDensity]: projected density and dispersion

    As for [computeDensity], the loops run over the entries of the grid:
    a vector has fewer than 2^32 entries, so that [gridsize] is its
    size. *)

Section ComputeProjectedDensity.

Variable M : MathLib.
Variable ndebug : bool.
Variable dens : IFunction.
Variable velDisp : IFunction.
Variable gridR : list float.

Local Open Scope float_scope.
Local Open Scope outcome_scope.

Definition computeProjectedDensity_error : exception :=
  runtime_error
    [Txt "computeProjectedDensity: grid in R must be monotonically increasing"].

(** The loop [for(j=0; j<=i; j++)]: [n] nodes remain, [gr], [pd] and
    [pvd] are the parts of [gridR], [gridProjDensity] and
    [gridProjVelDisp] from index [j] on. *)
Fixpoint computeProjectedDensity_j (r weight velsq : float) (n : nat)
    (gr pd pvd : list float) : outcome (list float * list float) :=
  match n, gr, pd, pvd with
  | S n', Rj :: gr', d :: pd', v :: pvd' =>
      let dif := pow_2 r - pow_2 Rj in
      if negb ndebug && negb (0 <? dif) then Fault AssertionFailed
      else
        let val := weight / sqrt dif in
        '(pd'', pvd'') <- computeProjectedDensity_j r weight velsq n' gr' pd' pvd' ;;
        Ok ((d + val) :: pd'', (v + val * velsq) :: pvd'')
  | _, _, _, _ => Ok (pd, pvd)
  end.

(** The loop [for(k=0; k<GLORDER; k++)] on segment [i], which starts at
    [R_i]; [last] tells whether it is the segment that extends to
    infinity. *)
Fixpoint computeProjectedDensity_k (i : nat) (last : bool) (R_i deltar : float)
    (ks : list nat) (pd pvd : list float) : outcome (list float * list float) :=
  match ks with
  | [] => Ok (pd, pvd)
  | k :: ks' =>
      let y := GLPOINTS M GLORDER k in
      let r := if last then R_i / (1 - y * y) else R_i + y * y * deltar in
      let weight :=
        GLWEIGHTS M GLORDER k * (if last then 2 * y / pow_2 (1 - y * y) else 2 * y)
        * deltar * value dens r * 2 * r in
      let velsq := pow_2 (value velDisp r) in
      '(pd', pvd') <- computeProjectedDensity_j r weight velsq (S i) gridR pd pvd ;;
      computeProjectedDensity_k i last R_i deltar ks' pd' pvd'
  end.

(** The loop [for(i=0; i<gridsize; i++)]: [rest] is [gridR] from index [i]
    on. *)
Fixpoint computeProjectedDensity_i (i : nat) (rest : list float)
    (pd pvd : list float) : outcome (list float * list float) :=
  match rest with
  | [] => Ok (pd, pvd)
  | R_i :: rest' =>
      let last := match rest' with [] => true | _ => false end in
      let deltar := match rest' with [] => R_i | next :: _ => next - R_i end in
      if deltar <=? 0 then Throw computeProjectedDensity_error
      else
        '(pd', pvd') <-
          computeProjectedDensity_k i last R_i deltar (seq 0 GLORDER) pd pvd ;;
        computeProjectedDensity_i (S i) rest' pd' pvd'
  end.

(** The final pass [gridProjVelDisp[i] = sqrt(gridProjVelDisp[i] /
    gridProjDensity[i])]. *)
Fixpoint finish_projVelDisp (pd pvd : list float) : list float :=
  match pd, pvd with
  | d :: pd', v :: pvd' => sqrt (v / d) :: finish_projVelDisp pd' pvd'
  | _, _ => []
  end.

(** Returns the contents of [gridProjDensity] and [gridProjVelDisp]. *)
Definition computeProjectedDensity : outcome (list float * list float) :=
  let gridsize := List.length gridR in
  '(pd, pvd) <- computeProjectedDensity_i 0 gridR (zeros gridsize) (zeros gridsize) ;;
  Ok (pd, finish_projVelDisp pd pvd).

End ComputeProjectedDensity.

(* ================================================================= *)
(** ** [SphericalIsotropicModelIntegrand]: the integrand of [samplePosVel] *)

Section ModelIntegrand.

(** [math::unscale(math::ScalingSemiInf(), s, &drds)], which returns the
    radius and its derivative, is a routine of the library. *)
Variable unscale_semiInf : float -> float * float.
Variable pot : IFunction.
Variable df : IFunction.
(** The member [pv], built from [pot] by the constructor of
    [potential::PhaseVolume]. *)
Variable pv : PhaseVolume.

Local Open Scope float_scope.

(** [unscalerv(scaledr, scaledv, r, v, Phi)]: the jacobian, and the three
    outputs [r], [v], [Phi]. *)
Definition unscalerv (scaledr scaledv : float) : float * (float * float * float) :=
  let '(r, drds) := unscale_semiInf scaledr in
  let Phi := value pot r in
  let vesc := sqrt (-2 * Phi) in
  let v := scaledv * vesc in
  (pow_2 (4 * M_PI) * pow_2 (r * vesc * scaledv) * vesc * drds, (r, v, Phi)).

(** [eval(vars, values)]: the value stored in [values[0]]. *)
Definition SphericalIsotropicModelIntegrand_eval (vars0 vars1 : float) : float :=
  let '(jac, (r, v, Phi)) := unscalerv vars0 vars1 in
  if is_finite jac && (1e-100 <? jac) && (jac <? 1e100) then
    let f := value df (pv_h pv (Phi + 0.5 * v * v)) in
    if is_finite f then f * jac else 0
  else 0.

End ModelIntegrand.

(* ================================================================= *)
(** ** [SphericalIsotropicModelLocal::evalLocal] *)

Section EvalLocal.

Variable M : MathLib.
Variable this : SphericalIsotropicModelLocal.
(** The argument of the call [cumulMass()]: the default value declared
    for it in the header. *)
Variable cumulMass_default : float.

Local Open Scope float_scope.

Definition incompatible_E_Phi : exception :=
  invalid_argument [Txt "SphericalIsotropicModelLocal: incompatible values of E and Phi"].

(** [evalLocal(Phi, E, dvpar, dv2par, dv2per)]: the three outputs. *)
Definition evalLocal (Phi E : float) : outcome (float * float * float) :=
  let hPhi := pv_h (phasevol (base this)) Phi in
  let hE := pv_h (phasevol (base this)) E in
  if negb ((Phi <? 0) && (hPhi <=? hE)) then Throw incompatible_E_Phi
  else
    let I0_E := I0 M (base this) hE in
    let J0 := fmax (I0 M (base this) hPhi - I0_E) 0 in
    let X := clamp M (log M hPhi) (xmin (intJ1 this)) (xmax (intJ1 this)) in
    let Y := clamp M (log M (hE / hPhi)) (ymin (intJ1 this)) (ymax (intJ1 this)) in
    let J1 := exp M (spline2d_value M (intJ1 this) X Y) * J0 in
    let J3 := exp M (spline2d_value M (intJ3 this) X Y) * J0 in
    let '(J1, J3) :=
      if 0 <=? E then
        let corr := 1 / sqrt (1 - E / Phi) in
        (J1 * corr, J3 * pow_3 corr)
      else (J1, J3) in
    let mult := 32 * M_PI * M_PI / 3 * cumulMass M (base this) cumulMass_default in
    Ok (- mult * J1 * 3, mult * (I0_E + J3), mult * (I0_E * 2 + J1 * 3 - J3)).

End EvalLocal.

(* ================================================================= *)
(** ** [writeSphericalIsotropicModel]: the grids and profiles it tabulates

    The part of the routine that precedes the output to the file: the grid
    in h, the grids in Phi, g and r that go with it, and the density and
    velocity dispersion at the nodes. *)

Section WriteModel.

Variable M : MathLib.
Variable ndebug : bool.
Variable model : SphericalIsotropicModel.
(** [model] seen through its interface [math::IFunction]. *)
Variable df : IFunction.
Variable pot : IFunction.
(** [potential::R_max(pot, Phi)] is a routine of the library. *)
Variable R_max : float -> float.

Local Open Scope float_scope.
Local Open Scope outcome_scope.

Definition gridh_too_small : exception :=
  runtime_error [Txt "writeSphericalIsotropicModel: gridh is too small"].

(** The grid in h: generated when [gridh] is empty. *)
Definition write_gridH (gridh : list float) : outcome (list float) :=
  match gridh with
  | [] => Ok (map (exp M) (createInterpolationGrid M df))
  | [_] => Throw gridh_too_small
  | _ => Ok gridh
  end.

(** The loop [for(i=0; i<gridH.size(); )] over the nodes of [gridH] that
    remain: a node is kept, with its potential, g and radius, or erased.
    [prev] is [gridPhi.back()], or [Phi0] while [gridPhi] is empty.
    Returns [gridH], [gridPhi], [gridG] and [gridR]. *)
Fixpoint write_filter (prev : float) (gridH : list float)
    : list float * list float * list float * list float :=
  match gridH with
  | [] => ([], [], [], [])
  | h :: t =>
      let g := g_of (phasevol model) h in
      let Phi := E_of (phasevol model) h in
      if prev * (1 - MIN_VALUE_ROUNDOFF) <? Phi then
        let '(H, P, G, R) := write_filter Phi t in
        (h :: H, Phi :: P, g :: G, R_max Phi :: R)
      else write_filter prev t
  end.

(** The loop [if(!isFinite(gridRho[i]+gridVelDisp[i]) || gridRho[i] <=
    MIN_VALUE_ROUNDOFF) gridRho[i] = gridVelDisp[i] = MIN_VALUE_ROUNDOFF;]
    over two vectors of the same length. *)
Fixpoint write_safety (gridRho gridVelDisp : list float) : list float * list float :=
  match gridRho, gridVelDisp with
  | rho :: gridRho', vd :: gridVelDisp' =>
      let '(r', v') := write_safety gridRho' gridVelDisp' in
      if negb (is_finite (rho + vd)) || (rho <=? MIN_VALUE_ROUNDOFF)
      then (MIN_VALUE_ROUNDOFF :: r', MIN_VALUE_ROUNDOFF :: v')
      else (rho :: r', vd :: v')
  | _, _ => (gridRho, gridVelDisp)
  end.

(** The vectors [gridH], [gridPhi], [gridG], [gridR], [gridRho] and
    [gridVelDisp] at the point where the two interpolators of the density
    and of the velocity dispersion are constructed. *)
Definition write_profiles (gridh : list float)
    : outcome (list float * list float * list float * list float
               * list float * list float) :=
  gridH0 <- write_gridH gridh ;;
  let Phi0 := value pot 0 in
  let '(gridH, gridPhi, gridG, gridR) := write_filter Phi0 gridH0 in
  '(gridRho, vd) <- computeDensity M ndebug df (phasevol model) gridPhi true ;;
  let gridVelDisp := match vd with Some v => v | None => [] end in
  let '(gridRho', gridVelDisp') := write_safety gridRho gridVelDisp in
  Ok (gridH, gridPhi, gridG, gridR, gridRho', gridVelDisp').

End WriteModel.

(* ================================================================= *)
(** ** [potential_analytic.cpp]: spherical potentials *)

Section AnalyticPotentials.

Variable M : MathLib.

Local Open Scope float_scope.

Record Plummer : Type := {
  Plummer_mass : float;
  Plummer_scaleRadius : float
}.

Record NFW : Type := {
  NFW_mass : float;
  NFW_scaleRadius : float
}.

(** [Plummer::eval_sph_rad(pos, potential, deriv, deriv2)] at radius
    [pos.r = r]: the three values; each is stored when its pointer is
    non-null. *)
Definition Plummer_eval_sph_rad (p : Plummer) (r : float) : float * float * float :=
  let rsq := pow_2 r + pow_2 (Plummer_scaleRadius p) in
  let pot := - Plummer_mass p / sqrt rsq in
  (pot,
   - pot * r / rsq,
   pot * (2 * pow_2 r - pow_2 (Plummer_scaleRadius p)) / pow_2 rsq).

(** [NFW::eval_sph_rad(pos, potential, deriv, deriv2)] at radius [r]. *)
Definition NFW_eval_sph_rad (p : NFW) (r : float) : float * float * float :=
  let mass := NFW_mass p in
  let scaleRadius := NFW_scaleRadius p in
  let ln := log M (1 + r / scaleRadius) in
  (- mass / r * ln,
   mass * (if r =? 0 then 0.5 / pow_2 scaleRadius
           else (ln / r - 1 / (r + scaleRadius)) / r),
   - mass * (if r =? 0 then 2 / (3 * scaleRadius * pow_2 scaleRadius)
             else (2 * ln / r - (2 * scaleRadius + 3 * r) / pow_2 (scaleRadius + r))
                  / pow_2 r)).

End AnalyticPotentials.

(* ================================================================= *)
(** ** [debug_utils.h]: comparison of phase-space points *)

Section DebugUtils.

Local Open Scope float_scope.

Record PosVelCar : Type := {
  pvc_x : float; pvc_y : float; pvc_z : float;
  pvc_vx : float; pvc_vy : float; pvc_vz : float
}.

(** [coord::equalPosVel(const PosVelCar&, const PosVelCar&, eps)]. *)
Definition equalPosVel (p1 p2 : PosVelCar) (eps : float) : bool :=
  (abs (pvc_x p1 - pvc_x p2) <? eps) && (abs (pvc_y p1 - pvc_y p2) <? eps) &&
  (abs (pvc_z p1 - pvc_z p2) <? eps) &&
  (abs (pvc_vx p2 - pvc_vx p2) <? eps) && (abs (pvc_vy p1 - pvc_vy p2) <? eps) &&
  (abs (pvc_vz p1 - pvc_vz p2) <? eps).

End DebugUtils.

(** The values of [deltar] met by the loop over [i] of
    [computeProjectedDensity] on the part [rest] of the grid: the step to
    the next node, and the last node itself for the segment that extends
    to infinity. *)
Fixpoint proj_deltas (rest : list float) : list float :=
  match rest with
  | [] => []
  | R_i :: rest' =>
      (match rest' with [] => R_i | next :: _ => next - R_i end)%float
      :: proj_deltas rest'
  end.

(** [sub] is the list [l] with some of its elements erased. *)
Inductive erased_from {A : Type} : list A -> list A -> Prop :=
| erased_nil : erased_from [] []
| erased_keep (x : A) (sub l : list A) :
    erased_from sub l -> erased_from (x :: sub) (x :: l)
| erased_drop (x : A) (sub l : list A) :
    erased_from sub l -> erased_from sub (x :: l).

(** A vector is non-decreasing when no entry is above the next one. *)
Fixpoint nondecreasing (v : list float) : bool :=
  match v with
  | a :: ((b :: _) as t) => (a <=? b)%float && nondecreasing t
  | _ => true
  end.

(** The Gauss-Legendre weights of the two orders used on the interior
    segments are not negative. *)
Definition GL_weights_nonnegative (M : MathLib) : bool :=
  forallb (fun k => negb (GLWEIGHTS M GLORDER1 k <? 0)%float) (seq 0 GLORDER1)
  && forallb (fun k => negb (GLWEIGHTS M GLORDER2 k <? 0)%float) (seq 0 GLORDER2).

(** The library [M] with another exponential. *)
Definition with_exp (M : MathLib) (e : float -> float) : MathLib :=
  Build_MathLib e (log M) (pow M) (gamma M) (hypergeom2F1 M) (GLPOINTS M) (GLWEIGHTS M)
    (createInterpolationGrid M) (createNonuniformGrid M) (integrateGL M)
    (scaledIntegrandCub M) (findRoot M) (random M) (clamp M) (spline_value M)
    (spline_evalDeriv M) (spline2d_value M).

(* ================================================================= *)
(** ** Signs of binary64 values *)

(** Zeros of either sign, and numbers of the given sign. *)
Definition SFsigned (s : bool) (x : spec_float) : Prop :=
  match x with
  | S754_zero _ => True
  | S754_infinity s' | S754_finite s' _ _ => s' = s
  | S754_nan => False
  end.

(** [signed s x]: x is a zero or a number of sign [s]; not NaN. *)
Definition signed (s : bool) (x : float) : Prop := SFsigned s (Prim2SF x).

(** The second of the four sums accumulated on a segment by the
    constructor: the contribution to [gridFGint]. *)
Definition FG_of (r : float * float * float * float) : float := snd (fst (fst r)).

(* ================================================================= *)
(** ** Further reference data *)

Module Examples.

Local Open Scope float_scope.

(** The reference library with an exponential that is visibly never
    negative. *)
Definition lib_abs : MathLib := with_exp Ref.lib (fun x => abs (Ref.exp x)).

(** The reference model built with it. *)
Definition model_abs_fields :=
  Eval vm_compute in
    match Ref.result_fields (SphericalIsotropicModel_new lib_abs Ref.pvol Ref.df Ref.gridh) with
    | Some f => f
    | None => Ref.no_fields
    end.

Definition model_abs : SphericalIsotropicModel := Ref.with_fields Ref.pvol model_abs_fields.

(** f(h) = 1 - h, negative above h = 1. *)
Definition df_neg : IFunction := {|
  value := fun h => 1 - h;
  evalDeriv := fun h => (1 - h, nan, nan);
  numDerivs := 0
|}.

(** Phi(r) = -10/(1+r) and the radius at which it takes a given value. *)
Definition pot_point : IFunction := {|
  value := fun r => -10 / (1 + r);
  evalDeriv := fun r => (-10 / (1 + r), nan, nan);
  numDerivs := 0
|}.

Definition R_max_point (Phi : float) : float := -10 / Phi - 1.

End Examples.

(* ================================================================= *)
(** ** The contract of the 2d interpolator *)

(** Modelled from the spec: [math::CubicSpline2d::value] is not under
    src/.  The spec calls the 2d splines interpolators fit to the values
    tabulated over the grid: at a node of a grid with strictly increasing
    coordinates, an interpolator returns the tabulated value. *)
Definition spline2d_interpolates (M : MathLib) : Prop :=
  forall (s : CubicSpline2d) (i j : nat),
    strictly_increasing (xgrid s) = true -> strictly_increasing (ygrid s) = true ->
    (i < List.length (xgrid s))%nat -> (j < List.length (ygrid s))%nat ->
    spline2d_value M s (nth i (xgrid s) 0%float) (nth j (ygrid s) 0%float)
    = nth j (nth i (zval s) []) 0%float.

(** Modelled from the spec: the spec has the boundary values verified by
    evaluating the 2d spline at its Y-minimum for several X, not only at
    the nodes in X: along a grid line in Y on which every tabulated value
    is the same constant, the spline returns that constant at every X
    within the grid. *)
Definition spline2d_constant_on_lines (M : MathLib) : Prop :=
  forall (s : CubicSpline2d) (j : nat) (c X : float),
    strictly_increasing (xgrid s) = true -> strictly_increasing (ygrid s) = true ->
    (0 < List.length (xgrid s))%nat -> (j < List.length (ygrid s))%nat ->
    (forall i, (i < List.length (xgrid s))%nat ->
               nth j (nth i (zval s) []) 0%float = c) ->
    (xmin s <=? X)%float = true -> (X <=? xmax s)%float = true ->
    spline2d_value M s X (nth j (ygrid s) 0%float) = c.

(* ================================================================= *)
(** * Properties *)

(** ** Facts on binary64 comparisons

    Comparisons of primitive floats are read through [Prim2SF] and the
    specification [SFcompare]. *)

Section FloatFacts.

Local Open Scope float_scope.

Lemma SFcompare_antisym (x y : spec_float) (c : comparison) :
  SFcompare x y = Some c -> SFcompare y x = Some (CompOpp c).
Proof.
  destruct x as [sx|sx| |sx mx ex], y as [sy|sy| |sy my ey]; simpl;
    try discriminate;
    repeat match goal with b : bool |- _ => destruct b end; simpl;
    intros H; inversion H; subst; clear H; try reflexivity;
    change (Pos.compare_cont Eq) with Pos.compare;
    rewrite (Z.compare_antisym ex ey), (Pos.compare_antisym mx my);
    destruct (ex ?= ey)%Z; simpl; try reflexivity;
    destruct (mx ?= my)%positive; reflexivity.
Qed.

Lemma ltb_true_leb_false (x y : float) : (x <? y) = true -> (y <=? x) = false.
Proof.
  rewrite ltb_spec, leb_spec. unfold SFltb, SFleb.
  destruct (SFcompare (Prim2SF x) (Prim2SF y)) as [c|] eqn:E; try discriminate.
  rewrite (SFcompare_antisym _ _ _ E). destruct c; try discriminate. reflexivity.
Qed.

Lemma leb_true_ltb_false (x y : float) : (x <=? y) = true -> (y <? x) = false.
Proof.
  rewrite ltb_spec, leb_spec. unfold SFltb, SFleb.
  destruct (SFcompare (Prim2SF x) (Prim2SF y)) as [c|] eqn:E; try discriminate.
  rewrite (SFcompare_antisym _ _ _ E). destruct c; try discriminate; reflexivity.
Qed.

(** A finite float is a signed zero or a signed mantissa and exponent. *)
Lemma is_finite_Prim2SF (x : float) :
  is_finite x = true ->
  (exists s, Prim2SF x = S754_zero s) \/ (exists s m e, Prim2SF x = S754_finite s m e).
Proof.
  unfold is_finite, is_nan, is_infinity.
  rewrite !eqb_spec, abs_spec.
  change (Prim2SF infinity) with (S754_infinity false).
  destruct (Prim2SF x) as [s|s| |s m e]; simpl; intros H.
  - left; eauto.
  - destruct s; discriminate.
  - discriminate.
  - right; eauto.
Qed.

Lemma is_nan_Prim2SF (x : float) : is_nan x = false -> Prim2SF x <> S754_nan.
Proof.
  unfold is_nan. rewrite eqb_spec. intros H E. rewrite E in H. discriminate.
Qed.

Lemma finite_is_not_infinity (x : float) : is_finite x = true -> (x =? infinity) = false.
Proof.
  intros H. apply is_finite_Prim2SF in H. rewrite eqb_spec.
  change (Prim2SF infinity) with (S754_infinity false).
  destruct H as [[s E]|[s [m [e E]]]]; rewrite E; simpl; destruct s; reflexivity.
Qed.

End FloatFacts.

(** ** Facts on binary64 subtraction

    The sign of a difference is read off the specification [SFsub]: the
    difference of the aligned mantissas is rounded, and rounding keeps the
    sign. *)

Section SpecFloatFacts.

Lemma shr_1_nonneg (mrs : shr_record) : (0 <= shr_m mrs)%Z -> (0 <= shr_m (shr_1 mrs))%Z.
Proof.
  destruct mrs as [m r s]. simpl. destruct m as [|[p|p|]|[p|p|]]; simpl; lia.
Qed.

Lemma iter_pos_shr_1_nonneg (p : positive) (mrs : shr_record) :
  (0 <= shr_m mrs)%Z -> (0 <= shr_m (iter_pos shr_1 p mrs))%Z.
Proof.
  revert mrs. induction p as [p IH|p IH|]; intros mrs H; simpl.
  - apply IH, IH, shr_1_nonneg, H.
  - apply IH, IH, H.
  - apply shr_1_nonneg, H.
Qed.

Lemma shr_fexp_nonneg (m e : Z) (l : location) :
  (0 <= m)%Z -> (0 <= shr_m (fst (shr_fexp prec emax m e l)))%Z.
Proof.
  intros H. unfold shr_fexp, shr.
  assert (H0 : (0 <= shr_m (shr_record_of_loc m l))%Z)
    by (destruct l as [|[| |]]; simpl; exact H).
  destruct (fexp prec emax (Zdigits2 m + e) - e)%Z; simpl; try exact H0.
  apply iter_pos_shr_1_nonneg, H0.
Qed.

Lemma round_nearest_even_nonneg (m : Z) (l : location) :
  (0 <= m)%Z -> (0 <= round_nearest_even m l)%Z.
Proof.
  intros H. destruct l as [|[| |]]; simpl; try lia.
  destruct (Z.even m); lia.
Qed.

Lemma binary_round_aux_sign (s : bool) (m e : Z) (l : location) :
  (0 <= m)%Z -> has_sign s (binary_round_aux prec emax s m e l).
Proof.
  intros H. unfold binary_round_aux.
  pose proof (shr_fexp_nonneg m e l H) as H1.
  destruct (shr_fexp prec emax m e l) as [mrs' e'].
  simpl fst in H1.
  pose proof (shr_fexp_nonneg _ e' loc_Exact
                (round_nearest_even_nonneg _ (loc_of_shr_record mrs') H1)) as H2.
  destruct (shr_fexp prec emax (round_nearest_even (shr_m mrs') (loc_of_shr_record mrs'))
              e' loc_Exact) as [mrs'' e''].
  simpl fst in H2.
  destruct (shr_m mrs'') as [|p|p].
  - exact eq_refl.
  - destruct (e'' <=? emax - prec)%Z; exact eq_refl.
  - lia.
Qed.

Lemma binary_round_sign (s : bool) (m : positive) (e : Z) :
  has_sign s (binary_round prec emax s m e).
Proof.
  unfold binary_round.
  destruct (shl_align m e (fexp prec emax (Z.pos (digits2_pos m) + e))) as [mz ez].
  apply binary_round_aux_sign. lia.
Qed.

Lemma has_sign_true_le_zero (x : spec_float) : has_sign true x -> SFleb x SFzero = true.
Proof.
  destruct x as [s|s| |s m e]; simpl; intros H; try contradiction; subst; exact eq_refl.
Qed.

Lemma binary_normalize_nonpos (m e : Z) :
  (m <= 0)%Z -> SFleb (binary_normalize prec emax m e false) SFzero = true.
Proof.
  intros H. destruct m as [|p|p]; simpl.
  - exact eq_refl.
  - lia.
  - apply has_sign_true_le_zero, binary_round_sign.
Qed.

Lemma iter_xO_pow2 (m d : positive) :
  Z.pos (Pos.iter xO m d) = (Z.pos m * 2 ^ Z.pos d)%Z.
Proof.
  induction d as [|d IH] using Pos.peano_ind.
  - simpl. lia.
  - rewrite Pos.iter_succ, Pos2Z.inj_xO, IH, Pos2Z.inj_succ, Z.pow_succ_r; lia.
Qed.

Lemma shl_align_fst (m : positive) (e e' : Z) :
  (e' <= e)%Z -> Z.pos (fst (shl_align m e e')) = (Z.pos m * 2 ^ (e - e'))%Z.
Proof.
  intros H. unfold shl_align. destruct (e' - e)%Z as [|d|d] eqn:E; simpl.
  - replace (e - e')%Z with 0%Z by lia. simpl. lia.
  - lia.
  - rewrite iter_xO_pow2. replace (e - e')%Z with (Z.pos d) by lia. reflexivity.
Qed.

Lemma digits2_pos_bounds (m : positive) :
  (2 ^ (Z.pos (digits2_pos m) - 1) <= Z.pos m < 2 ^ Z.pos (digits2_pos m))%Z.
Proof.
  induction m as [p IH|p IH|]; simpl digits2_pos.
  - rewrite Pos2Z.inj_succ, Z.pow_succ_r by lia.
    replace (Z.succ (Z.pos (digits2_pos p)) - 1)%Z
      with (Z.succ (Z.pos (digits2_pos p) - 1)) by lia.
    rewrite Z.pow_succ_r by lia. lia.
  - rewrite Pos2Z.inj_succ, Z.pow_succ_r by lia.
    replace (Z.succ (Z.pos (digits2_pos p)) - 1)%Z
      with (Z.succ (Z.pos (digits2_pos p) - 1)) by lia.
    rewrite Z.pow_succ_r by lia. lia.
  - simpl. lia.
Qed.

(** In binary64 a canonical mantissa has at most 53 digits, and exactly 53
    above the smallest exponent. *)
Lemma bounded_digits (m : positive) (e : Z) :
  bounded prec emax m e = true ->
  (-1074 <= e)%Z /\ (Z.pos (digits2_pos m) <= 53)%Z /\
  ((-1074 < e)%Z -> Z.pos (digits2_pos m) = 53%Z).
Proof.
  unfold bounded, canonical_mantissa, fexp, SpecFloat.emin, prec, emax.
  intros H. apply andb_true_iff in H. destruct H as [H _].
  apply Z.eqb_eq in H. lia.
Qed.

(** Of two canonical mantissas, the one with the larger exponent is the
    larger number. *)
Lemma bounded_exponent_order (m m' : positive) (e e' : Z) :
  bounded prec emax m e = true -> bounded prec emax m' e' = true ->
  (e < e')%Z -> (Z.pos m < Z.pos m' * 2 ^ (e' - e))%Z.
Proof.
  intros B B' H.
  destruct (bounded_digits m e B) as (He & Hd & _).
  destruct (bounded_digits m' e' B') as (_ & _ & Hd').
  specialize (Hd' ltac:(lia)).
  pose proof (digits2_pos_bounds m) as [_ Hm].
  pose proof (digits2_pos_bounds m') as [Hm' _].
  rewrite Hd' in Hm'. change (2 ^ (53 - 1))%Z with 4503599627370496%Z in Hm'.
  assert (Z.pos m < 9007199254740992)%Z.
  { eapply Z.lt_le_trans; [exact Hm|].
    change 9007199254740992%Z with (2 ^ 53)%Z. apply Z.pow_le_mono_r; lia. }
  assert (2 <= 2 ^ (e' - e))%Z.
  { change 2%Z with (2 ^ 1)%Z at 1. apply Z.pow_le_mono_r; lia. }
  nia.
Qed.

(** If x <= y for two finite binary64 numbers, the difference of their
    aligned signed mantissas is not positive. *)
Lemma aligned_difference_nonpos (sx sy : bool) (mx my : positive) (ex ey : Z) (c : comparison) :
  bounded prec emax mx ex = true -> bounded prec emax my ey = true ->
  SFcompare (S754_finite sx mx ex) (S754_finite sy my ey) = Some c -> c <> Gt ->
  (cond_Zopp sx (Z.pos (fst (shl_align mx ex (Z.min ex ey))))
   - cond_Zopp sy (Z.pos (fst (shl_align my ey (Z.min ex ey)))) <= 0)%Z.
Proof.
  intros Bx By Hc Hle.
  rewrite !shl_align_fst by lia.
  simpl in Hc. change (Pos.compare_cont Eq mx my) with (mx ?= my)%positive in Hc.
  assert (Px : (0 < 2 ^ (ex - Z.min ex ey))%Z) by (apply Z.pow_pos_nonneg; lia).
  assert (Py : (0 < 2 ^ (ey - Z.min ex ey))%Z) by (apply Z.pow_pos_nonneg; lia).
  destruct sx, sy; cbv beta iota delta [cond_Zopp].
  - destruct (ex ?= ey)%Z eqn:C.
    + apply Z.compare_eq in C. subst ey. rewrite Z.min_id, Z.sub_diag in *.
      change (2 ^ 0)%Z with 1%Z in *.
      destruct (mx ?= my)%positive eqn:Cm; simpl in Hc; inversion Hc; subst c;
        try congruence.
      * apply Pos.compare_eq in Cm. subst. lia.
      * apply Pos.compare_gt_iff in Cm. lia.
    + inversion Hc; subst c. congruence.
    + apply Z.compare_gt_iff in C. rewrite Z.min_r by lia.
      rewrite Z.sub_diag. change (2 ^ 0)%Z with 1%Z.
      pose proof (bounded_exponent_order my mx ey ex By Bx C). lia.
  - nia.
  - inversion Hc; subst c. congruence.
  - destruct (ex ?= ey)%Z eqn:C.
    + apply Z.compare_eq in C. subst ey. rewrite Z.min_id, Z.sub_diag in *.
      change (2 ^ 0)%Z with 1%Z in *.
      destruct (mx ?= my)%positive eqn:Cm; simpl in Hc; inversion Hc; subst c;
        try congruence.
      * apply Pos.compare_eq in Cm. subst. lia.
      * change (mx < my)%positive in Cm. lia.
    + change (ex < ey)%Z in C. rewrite Z.min_l by lia.
      rewrite Z.sub_diag. change (2 ^ 0)%Z with 1%Z.
      pose proof (bounded_exponent_order mx my ex ey Bx By C). lia.
    + inversion Hc; subst c. congruence.
Qed.

(** x <= y for finite x and y gives x - y <= 0. *)
Lemma SFsub_le_zero (x y : spec_float) (c : comparison) :
  valid_binary x = true -> valid_binary y = true ->
  SF_is_finite x -> SF_is_finite y ->
  SFcompare x y = Some c -> c <> Gt ->
  SFleb (SF64sub x y) SFzero = true.
Proof.
  intros Vx Vy Fx Fy Hc Hle.
  destruct x as [sx|sx| |sx mx ex], y as [sy|sy| |sy my ey];
    try contradiction; unfold SF64sub, SFsub.
  - destruct sx, sy; exact eq_refl.
  - simpl in Hc. destruct sy; [inversion Hc; congruence | exact eq_refl].
  - simpl in Hc. destruct sx; [exact eq_refl | inversion Hc; congruence].
  - apply binary_normalize_nonpos.
    apply (aligned_difference_nonpos sx sy mx my ex ey c); assumption.
Qed.

(** x < 0 and not (y < 0) give x - y <= 0, infinities included. *)
Lemma SFsub_neg_nonneg (x y : spec_float) :
  SFltb x SFzero = true -> y <> S754_nan -> SFltb y SFzero = false ->
  SFleb (SF64sub x y) SFzero = true.
Proof.
  intros Hx Hy Hy0.
  destruct x as [sx|sx| |sx mx ex]; try discriminate Hx;
    destruct sx; try discriminate Hx;
    destruct y as [sy|sy| |sy my ey]; try congruence;
    try (destruct sy; try discriminate Hy0; exact eq_refl).
  destruct sy; try discriminate Hy0.
  unfold SF64sub, SFsub. apply binary_normalize_nonpos.
  cbv beta iota delta [cond_Zopp]. lia.
Qed.

(** 0 <= y gives 0 - y <= 0. *)
Lemma SFsub_zero_nonneg (y : spec_float) :
  SFleb SFzero y = true -> SFleb (SF64sub SFzero y) SFzero = true.
Proof.
  destruct y as [sy|sy| |sy my ey]; intros H; try discriminate H;
    destruct sy; try discriminate H; exact eq_refl.
Qed.

Lemma SFltb_false_leb (x y : spec_float) :
  x <> S754_nan -> y <> S754_nan -> SFltb x y = false -> SFleb y x = true.
Proof.
  intros Hx Hy. unfold SFltb, SFleb.
  destruct (SFcompare x y) as [c|] eqn:E.
  - rewrite (SFcompare_antisym _ _ _ E). destruct c; try discriminate; reflexivity.
  - destruct x, y; try congruence; discriminate E.
Qed.

End SpecFloatFacts.

(** ** Facts on binary64 rounding

    [binary_round] truncates the mantissa to the exponent of the format,
    rounds to nearest, and renormalises; it is monotone with respect to
    the numbers of the format, which orders a sum and its first term. *)

Section RoundingFacts.

Lemma div_pow2_succ (M n : Z) : (0 <= n)%Z -> (M / 2 ^ (n + 1) = M / 2 ^ n / 2)%Z.
Proof.
  intros H. rewrite Z.pow_add_r by lia. change (2 ^ 1)%Z with 2%Z.
  assert (P : (0 < 2 ^ n)%Z) by (apply Z.pow_pos_nonneg; lia).
  rewrite Z.div_div by lia. reflexivity.
Qed.

Lemma mod_pow2_succ (M n : Z) :
  (0 <= n)%Z -> (M mod 2 ^ (n + 1) = 0)%Z ->
  (M mod 2 ^ n = 0)%Z /\ ((M / 2 ^ n) mod 2 = 0)%Z.
Proof.
  intros H Hm.
  assert (P : (0 < 2 ^ n)%Z) by (apply Z.pow_pos_nonneg; lia).
  apply Z.mod_divide in Hm; [|rewrite Z.pow_add_r by lia; change (2 ^ 1)%Z with 2%Z; lia].
  destruct Hm as [q Hq]. rewrite Z.pow_add_r in Hq by lia. change (2 ^ 1)%Z with 2%Z in Hq.
  replace M with ((q * 2) * 2 ^ n)%Z by lia.
  rewrite Z.mod_mul, Z.div_mul, Z.mod_mul by lia. auto.
Qed.

Lemma shr_1_shifted (M n : Z) (mrs : shr_record) :
  (0 <= M)%Z -> shifted M n mrs -> shifted M (n + 1) (shr_1 mrs).
Proof.
  intros HM (Hn & Hm & Hx).
  assert (P : (0 < 2 ^ n)%Z) by (apply Z.pow_pos_nonneg; lia).
  assert (Q : (0 <= M / 2 ^ n)%Z) by (apply Z.div_pos; lia).
  destruct mrs as [m r s]. simpl in Hm, Hx.
  split; [lia|]. rewrite div_pow2_succ by lia. rewrite <- Hm.
  split.
  - destruct m as [|[p|p|]|p]; simpl; try lia;
      Z.to_euclidean_division_equations; lia.
  - intros Hz. destruct (mod_pow2_succ M n Hn Hz) as [H1 H2].
    destruct (Hx H1) as [-> ->]. rewrite <- Hm in H2.
    destruct m as [|[p|p|]|p]; simpl; auto; try lia;
      exfalso; Z.to_euclidean_division_equations; lia.
Qed.

Lemma iter_pos_shr_1_shifted (p : positive) (M n : Z) (mrs : shr_record) :
  (0 <= M)%Z -> shifted M n mrs -> shifted M (n + Z.pos p) (iter_pos shr_1 p mrs).
Proof.
  intros HM. revert n mrs. induction p as [p IH|p IH|]; intros n mrs H; simpl.
  - replace (n + Z.pos p~1)%Z with (((n + 1) + Z.pos p) + Z.pos p)%Z by lia.
    apply IH, IH, shr_1_shifted; assumption.
  - replace (n + Z.pos p~0)%Z with ((n + Z.pos p) + Z.pos p)%Z by lia.
    apply IH, IH; assumption.
  - apply shr_1_shifted; assumption.
Qed.

(** The first component of [shr_fexp] on an exact input: the mantissa is
    divided by the power of two that brings the exponent up to [fexp]. *)
Lemma shr_fexp_exact (M e : Z) :
  (0 <= M)%Z ->
  let k := Z.max (fexp prec emax (Zdigits2 M + e) - e) 0 in
  snd (shr_fexp prec emax M e loc_Exact) = (e + k)%Z /\
  shr_m (fst (shr_fexp prec emax M e loc_Exact)) = (M / 2 ^ k)%Z /\
  ((M mod 2 ^ k = 0)%Z ->
   loc_of_shr_record (fst (shr_fexp prec emax M e loc_Exact)) = loc_Exact).
Proof.
  intros HM k. unfold shr_fexp, shr. fold (fexp prec emax (Zdigits2 M + e)).
  assert (H0 : shifted M 0 (shr_record_of_loc M loc_Exact)).
  { split; [lia|]. simpl. rewrite Z.div_1_r. auto. }
  subst k. destruct (fexp prec emax (Zdigits2 M + e) - e)%Z as [|p|p] eqn:E.
  - simpl. rewrite Z.div_1_r, Z.add_0_r. auto.
  - rewrite Z.max_l by lia.
    pose proof (iter_pos_shr_1_shifted p M 0 _ HM H0) as (_ & Hm & Hx).
    rewrite Z.add_0_l in Hm, Hx. cbn [fst snd].
    set (mrs := iter_pos shr_1 p (shr_record_of_loc M loc_Exact)) in *.
    split; [reflexivity|]. split; [exact Hm|].
    intros Hz. destruct (Hx Hz) as [Hr Hs].
    destruct mrs as [m r s]. simpl in Hr, Hs. subst. reflexivity.
  - simpl. rewrite Z.div_1_r, Z.add_0_r. auto.
Qed.

Lemma digits2_pos_iter_xO (m d : positive) :
  Z.pos (digits2_pos (Pos.iter xO m d)) = (Z.pos (digits2_pos m) + Z.pos d)%Z.
Proof.
  induction d as [|d IH] using Pos.peano_ind.
  - simpl. lia.
  - rewrite Pos.iter_succ. simpl digits2_pos. rewrite Pos2Z.inj_succ, IH. lia.
Qed.

(** Alignment to a smaller exponent is exact and keeps the magnitude. *)
Lemma shl_align_spec (m : positive) (e e' : Z) :
  snd (shl_align m e e') = Z.min e e' /\
  Z.pos (fst (shl_align m e e')) = (Z.pos m * 2 ^ (e - Z.min e e'))%Z /\
  (Z.pos (digits2_pos (fst (shl_align m e e'))) + Z.min e e'
   = Z.pos (digits2_pos m) + e)%Z.
Proof.
  unfold shl_align. destruct (e' - e)%Z as [|d|d] eqn:E; cbn [fst snd].
  - rewrite Z.min_l by lia. rewrite Z.sub_diag. change (2 ^ 0)%Z with 1%Z.
    repeat split; lia.
  - rewrite Z.min_l by lia. rewrite Z.sub_diag. change (2 ^ 0)%Z with 1%Z.
    repeat split; lia.
  - rewrite Z.min_r by lia. rewrite iter_xO_pow2, digits2_pos_iter_xO.
    replace (e - e')%Z with (Z.pos d) by lia. repeat split; lia.
Qed.

Lemma round_nearest_even_bounds (m : Z) (l : location) :
  (m <= round_nearest_even m l <= m + 1)%Z /\
  (l = loc_Exact -> round_nearest_even m l = m).
Proof.
  destruct l as [|[| |]]; simpl; try destruct (IntDef.Z.even m);
    (split; [lia | congruence]).
Qed.

(** What [binary_round] computes on the mantissa [n] and exponent [ez]:
    [E1] is the exponent of the format at the magnitude of the input,
    [m1] the truncated mantissa, [m2] the rounded one, and [k2] the
    further shift when rounding carried into a new digit. *)
Lemma binary_round_spec (s : bool) (n : positive) (ez : Z) :
  let E1 := fexp prec emax (Z.pos (digits2_pos n) + ez) in
  let e0 := Z.min ez E1 in
  let mz := (Z.pos n * 2 ^ (ez - e0))%Z in
  let m1 := (mz / 2 ^ (E1 - e0))%Z in
  exists m2,
    (m1 <= m2 <= m1 + 1)%Z /\ ((mz mod 2 ^ (E1 - e0) = 0)%Z -> m2 = m1) /\
    let k2 := Z.max (fexp prec emax (Zdigits2 m2 + E1) - E1) 0 in
    binary_round prec emax s n ez =
      match (m2 / 2 ^ k2)%Z with
      | Z0 => S754_zero s
      | Zpos m => if (E1 + k2 <=? emax - prec)%Z then S754_finite s m (E1 + k2)
                  else S754_infinity s
      | Zneg _ => S754_nan
      end.
Proof.
  intros E1 e0 mz m1. unfold binary_round.
  destruct (shl_align_spec n ez E1) as (He0 & Hmz & Hd).
  fold E1. destruct (shl_align n ez E1) as [pz e0'] eqn:Hal.
  cbn [fst snd] in He0, Hmz, Hd. subst e0'.
  change (Z.min ez E1) with e0 in Hmz, Hd |- *. fold mz in Hmz.
  unfold binary_round_aux.
  destruct (shr_fexp_exact (Z.pos pz) e0 ltac:(lia)) as (Hs1 & Hm1 & Hx1).
  cbv zeta in Hs1, Hm1, Hx1. cbn [Zdigits2] in Hs1, Hm1, Hx1.
  rewrite Hd in Hs1, Hm1, Hx1. fold E1 in Hs1, Hm1, Hx1.
  assert (Hk1 : Z.max (E1 - e0) 0 = (E1 - e0)%Z) by (unfold e0; lia).
  rewrite Hk1 in Hs1, Hm1, Hx1.
  destruct (shr_fexp prec emax (Z.pos pz) e0 loc_Exact) as [mrs' e'].
  cbn [fst snd] in Hs1, Hm1, Hx1. rewrite Hmz in Hm1, Hx1. fold m1 in Hm1.
  assert (He' : e' = E1) by lia. subst e'. rewrite He'.
  destruct (round_nearest_even_bounds (shr_m mrs') (loc_of_shr_record mrs'))
    as [Hb He].
  set (m2 := round_nearest_even (shr_m mrs') (loc_of_shr_record mrs')) in *.
  rewrite Hm1 in Hb, He.
  exists m2. split; [exact Hb|]. split; [intros Hz; apply He, Hx1, Hz|].
  assert (Hm2 : (0 <= m2)%Z).
  { assert (0 <= m1)%Z; [|lia]. unfold m1. apply Z.div_pos; [unfold mz|].
    - apply Z.mul_nonneg_nonneg; [lia|]. apply Z.pow_nonneg. lia.
    - apply Z.pow_pos_nonneg; [lia|]. unfold e0. lia. }
  destruct (shr_fexp_exact m2 E1 Hm2) as (Hs2 & Hm3 & _).
  cbv zeta in Hs2, Hm3 |- *.
  destruct (shr_fexp prec emax m2 E1 loc_Exact) as [mrs'' e''].
  cbn [fst snd] in Hs2, Hm3. rewrite Hm3, Hs2. reflexivity.
Qed.

Lemma fexp_binary64 (e : Z) : fexp prec emax e = Z.max (e - 53) (-1074).
Proof. reflexivity. Qed.

Lemma pow2_lt_inv (a b : Z) : (0 <= b)%Z -> (2 ^ a < 2 ^ b)%Z -> (a < b)%Z.
Proof.
  intros Hb H. destruct (Z.lt_ge_cases a b) as [L|G]; [exact L|].
  exfalso. assert (2 ^ b <= 2 ^ a)%Z by (apply Z.pow_le_mono_r; lia). lia.
Qed.

(** The two outcomes of [binary_round] above the smallest exponent of the
    format: the rounded mantissa [m2] fits in 53 digits, or it is 2^53 and
    the exponent moves up by one. *)
Lemma binary_round_cases (s : bool) (n : positive) (ez : Z) :
  (-1074 <= ez)%Z ->
  let E1 := Z.max (Z.pos (digits2_pos n) + ez - 53) (-1074) in
  let e0 := Z.min ez E1 in
  let mz := (Z.pos n * 2 ^ (ez - e0))%Z in
  let m1 := (mz / 2 ^ (E1 - e0))%Z in
  exists m2,
    (m1 <= m2 <= m1 + 1)%Z /\ ((mz mod 2 ^ (E1 - e0) = 0)%Z -> m2 = m1) /\
    (0 < m1 < 2 ^ 53)%Z /\
    binary_round prec emax s n ez =
      if (m2 <? 2 ^ 53)%Z
      then if (E1 <=? 971)%Z then S754_finite s (Z.to_pos m2) E1 else S754_infinity s
      else if (E1 + 1 <=? 971)%Z then S754_finite s 4503599627370496 (E1 + 1)
           else S754_infinity s.
Proof.
  intros Hez E1 e0 mz m1.
  destruct (binary_round_spec s n ez) as (m2 & Hb & Hx & Hr).
  rewrite !fexp_binary64 in Hb, Hx, Hr. cbv zeta in Hb, Hx, Hr.
  fold E1 in Hb, Hx, Hr. fold e0 in Hb, Hx, Hr. fold mz in Hb, Hx, Hr.
  fold m1 in Hb, Hx, Hr.
  pose proof (digits2_pos_bounds n) as [Hn1 Hn2].
  set (dn := Z.pos (digits2_pos n)) in *.
  assert (Hdn : (1 <= dn)%Z) by (unfold dn; lia).
  change (fexp prec emax (dn + ez)) with E1 in Hr.
  assert (Hm1 : (0 < m1 < 2 ^ 53)%Z).
  { unfold m1, mz, e0. destruct (Z.le_gt_cases ez E1) as [L|G].
    - rewrite Z.min_l by lia. rewrite Z.sub_diag. change (2 ^ 0)%Z with 1%Z.
      rewrite Z.mul_1_r.
      assert (P : (0 < 2 ^ (E1 - ez))%Z) by (apply Z.pow_pos_nonneg; lia).
      split.
      + apply Z.div_str_pos. split; [exact P|].
        eapply Z.le_trans; [|exact Hn1]. apply Z.pow_le_mono_r; unfold E1; lia.
      + apply Z.div_lt_upper_bound; [exact P|].
        rewrite <- Z.pow_add_r by lia.
        eapply Z.lt_le_trans; [exact Hn2|]. apply Z.pow_le_mono_r; unfold E1; lia.
    - rewrite Z.min_r by lia. rewrite Z.sub_diag. change (2 ^ 0)%Z with 1%Z.
      rewrite Z.div_1_r.
      assert (P : (0 < 2 ^ (ez - E1))%Z) by (apply Z.pow_pos_nonneg; lia).
      split; [lia|].
      assert (Z.pos n * 2 ^ (ez - E1) < 2 ^ dn * 2 ^ (ez - E1))%Z
        by (apply Z.mul_lt_mono_pos_r; assumption).
      rewrite <- Z.pow_add_r in H by lia.
      eapply Z.lt_le_trans; [exact H|]. apply Z.pow_le_mono_r; unfold E1; lia. }
  exists m2. split; [exact Hb|]. split; [exact Hx|]. split; [exact Hm1|].
  rewrite Hr. clear Hr.
  assert (HE1 : (-1074 <= E1)%Z) by (unfold E1; lia).
  destruct (m2 <? 2 ^ 53)%Z eqn:Hlt.
  - apply Z.ltb_lt in Hlt. destruct m2 as [|p|p]; try lia.
    cbn [Zdigits2]. pose proof (digits2_pos_bounds p) as [Hp1 _].
    assert (Hd : (Z.pos (digits2_pos p) - 1 < 53)%Z)
      by (apply pow2_lt_inv; [lia|]; eapply Z.le_lt_trans; [exact Hp1 | exact Hlt]).
    replace (Z.max (Z.max (Z.pos (digits2_pos p) + E1 - 53) (-1074) - E1) 0) with 0%Z
      by lia.
    change (2 ^ 0)%Z with 1%Z. rewrite Z.div_1_r, Z.add_0_r.
    change (emax - prec)%Z with 971%Z. reflexivity.
  - apply Z.ltb_ge in Hlt. assert (m2 = 2 ^ 53)%Z by lia. subst m2.
    change (Zdigits2 (2 ^ 53)) with 54%Z.
    replace (Z.max (Z.max (54 + E1 - 53) (-1074) - E1) 0) with 1%Z by lia.
    change (2 ^ 53 / 2 ^ 1)%Z with 4503599627370496%Z.
    change (emax - prec)%Z with 971%Z. reflexivity.
Qed.

(** Rounding is monotone with respect to the numbers of the format: a
    magnitude not below the canonical [mx * 2^ex] rounds to a magnitude not
    below it (or overflows). *)
Lemma binary_round_above (s : bool) (n mx : positive) (ez ex : Z) :
  bounded prec emax mx ex = true -> (-1074 <= ez <= ex)%Z ->
  (Z.pos mx * 2 ^ (ex - ez) <= Z.pos n)%Z ->
  binary_round prec emax s n ez = S754_infinity s \/
  exists m e, binary_round prec emax s n ez = S754_finite s m e /\
              (ex < e \/ (e = ex /\ (mx <= m)%positive))%Z.
Proof.
  intros B Hez Hn.
  destruct (bounded_digits mx ex B) as (Hex & Hdx & Hdx').
  pose proof (digits2_pos_bounds mx) as [Hmx1 Hmx2].
  pose proof (digits2_pos_bounds n) as [Hn1 Hn2].
  destruct (binary_round_cases s n ez ltac:(lia)) as (m2 & Hb & _ & Hm1 & Hr).
  cbv zeta in Hb, Hm1, Hr.
  set (dn := Z.pos (digits2_pos n)) in *.
  set (E1 := Z.max (dn + ez - 53) (-1074)) in *.
  assert (P : (0 < 2 ^ (ex - ez))%Z) by (apply Z.pow_pos_nonneg; lia).
  assert (HE : (ex <= E1)%Z).
  { destruct (Z.eq_dec ex (-1074)) as [->|Hne]; [unfold E1; lia|].
    rewrite Hdx' in Hmx1 by lia. change (2 ^ (53 - 1))%Z with (2 ^ 52)%Z in Hmx1.
    assert (H1 : (2 ^ (52 + (ex - ez)) < 2 ^ dn)%Z).
    { rewrite Z.pow_add_r by lia. nia. }
    apply pow2_lt_inv in H1; [|unfold dn; lia]. unfold E1. lia. }
  rewrite Hr. clear Hr.
  destruct (m2 <? 2 ^ 53)%Z eqn:Hlt.
  - destruct (E1 <=? 971)%Z; [|left; reflexivity].
    right. exists (Z.to_pos m2), E1. split; [reflexivity|].
    destruct (Z.eq_dec E1 ex) as [Heq|Hne]; [right|left; lia].
    split; [exact Heq|].
    rewrite Heq in Hb. rewrite Z.min_l in Hb by lia.
    rewrite Z.sub_diag in Hb. change (2 ^ 0)%Z with 1%Z in Hb.
    rewrite Z.mul_1_r in Hb.
    assert (Z.pos mx <= Z.pos n / 2 ^ (ex - ez))%Z
      by (apply Z.div_le_lower_bound; lia).
    lia.
  - destruct (E1 + 1 <=? 971)%Z; [|left; reflexivity].
    right. exists 4503599627370496%positive, (E1 + 1)%Z. split; [reflexivity|].
    left. lia.
Qed.

(** A magnitude not above the canonical [mx * 2^ex] rounds to a magnitude
    not above it. *)
Lemma binary_round_below (s : bool) (n mx : positive) (ez ex : Z) :
  bounded prec emax mx ex = true -> (-1074 <= ez <= ex)%Z ->
  (Z.pos n <= Z.pos mx * 2 ^ (ex - ez))%Z ->
  exists m e, binary_round prec emax s n ez = S754_finite s m e /\
              (e < ex \/ (e = ex /\ (m <= mx)%positive))%Z.
Proof.
  intros B Hez Hn.
  destruct (bounded_digits mx ex B) as (Hex & Hdx & Hdx').
  assert (Hex' : (ex <= 971)%Z).
  { unfold bounded in B. apply andb_true_iff in B. destruct B as [_ B].
    apply Z.leb_le in B. exact B. }
  pose proof (digits2_pos_bounds mx) as [Hmx1 Hmx2].
  pose proof (digits2_pos_bounds n) as [Hn1 Hn2].
  destruct (binary_round_cases s n ez ltac:(lia)) as (m2 & Hb & Hx & Hm1 & Hr).
  cbv zeta in Hb, Hx, Hm1, Hr.
  set (dn := Z.pos (digits2_pos n)) in *.
  set (E1 := Z.max (dn + ez - 53) (-1074)) in *.
  assert (P : (0 < 2 ^ (ex - ez))%Z) by (apply Z.pow_pos_nonneg; lia).
  assert (Hmx3 : (Z.pos mx < 2 ^ 53)%Z).
  { eapply Z.lt_le_trans; [exact Hmx2|]. apply Z.pow_le_mono_r; lia. }
  assert (HE : (E1 <= ex)%Z).
  { assert (H1 : (2 ^ (dn - 1) < 2 ^ (53 + (ex - ez)))%Z).
    { rewrite Z.pow_add_r by lia. nia. }
    apply pow2_lt_inv in H1; [|lia]. unfold E1. lia. }
  assert (Hcase : (E1 = ex)%Z -> (m2 <= Z.pos mx)%Z).
  { intros Heq. rewrite Heq in Hb, Hx. rewrite Z.min_l in Hb, Hx by lia.
    rewrite Z.sub_diag in Hb, Hx. change (2 ^ 0)%Z with 1%Z in Hb, Hx.
    rewrite Z.mul_1_r in Hb, Hx.
    assert (Hq : (Z.pos n / 2 ^ (ex - ez) <= Z.pos mx)%Z).
    { apply Z.div_le_upper_bound; lia. }
    destruct (Z.eq_dec (Z.pos n / 2 ^ (ex - ez)) (Z.pos mx)) as [E|NE]; [|lia].
    assert (Hneq : Z.pos n = (Z.pos mx * 2 ^ (ex - ez))%Z).
    { pose proof (Z.mul_div_le (Z.pos n) (2 ^ (ex - ez)) P). rewrite E in H. lia. }
    rewrite Hx; [lia|]. rewrite Hneq. apply Z.mod_mul. lia. }
  rewrite Hr. clear Hr.
  destruct (m2 <? 2 ^ 53)%Z eqn:Hlt.
  - apply Z.ltb_lt in Hlt.
    replace (E1 <=? 971)%Z with true by (symmetry; apply Z.leb_le; lia).
    exists (Z.to_pos m2), E1. split; [reflexivity|].
    destruct (Z.eq_dec E1 ex) as [Heq|Hne]; [right|left; lia].
    split; [exact Heq|]. specialize (Hcase Heq). lia.
  - apply Z.ltb_ge in Hlt.
    assert (Hne : E1 <> ex) by (intros Heq; specialize (Hcase Heq); lia).
    replace (E1 + 1 <=? 971)%Z with true by (symmetry; apply Z.leb_le; lia).
    exists 4503599627370496%positive, (E1 + 1)%Z. split; [reflexivity|].
    destruct (Z.eq_dec (E1 + 1) ex) as [Heq|Hne']; [right|left; lia].
    split; [exact Heq|].
    rewrite Hdx' in Hmx1 by (unfold E1 in *; lia).
    change (2 ^ (53 - 1))%Z with 4503599627370496%Z in Hmx1. lia.
Qed.

Lemma SFcompare_refl (x : spec_float) : SF_is_finite x -> SFcompare x x = Some Eq.
Proof.
  destruct x as [s|s| |s m e]; simpl; try contradiction; intros _.
  - reflexivity.
  - rewrite Z.compare_refl.
    change (Pos.compare_cont Eq m m) with (m ?= m)%positive.
    rewrite Pos.compare_refl. destruct s; reflexivity.
Qed.

Lemma has_sign_false_zero_le (x : spec_float) : has_sign false x -> SFleb SFzero x = true.
Proof.
  destruct x as [s|s| |s m e]; simpl; intros H; try contradiction; subst; exact eq_refl.
Qed.

(** A negative finite number is below every number of sign +. *)
Lemma negative_le_has_sign_false (m : positive) (e : Z) (y : spec_float) :
  has_sign false y -> SFleb (S754_finite true m e) y = true.
Proof.
  destruct y as [s|s| |s my ey]; simpl; intros H; try contradiction; subst; exact eq_refl.
Qed.

(** x <= x + t for a finite x and t >= 0. *)
Lemma SFadd_nonneg_le (x t : spec_float) :
  valid_binary x = true -> valid_binary t = true ->
  SF_is_finite x -> has_sign false t ->
  SFleb x (SF64add x t) = true.
Proof.
  intros Vx Vt Fx Ht.
  destruct x as [sx|sx| |sx mx ex]; try contradiction;
    destruct t as [st|st| |st mt et]; try contradiction; simpl in Ht; subst st;
    unfold SF64add, SFadd.
  - destruct sx; exact eq_refl.
  - exact eq_refl.
  - exact eq_refl.
  - unfold SFleb. rewrite SFcompare_refl by exact I. reflexivity.
  - destruct sx; exact eq_refl.
  - simpl in Vx, Vt.
    destruct (bounded_digits mx ex Vx) as (Hex & _).
    destruct (bounded_digits mt et Vt) as (Het & _).
    destruct (shl_align_spec mx ex (Z.min ex et)) as (_ & Emx & _).
    destruct (shl_align_spec mt et (Z.min ex et)) as (_ & Emt & _).
    replace (Z.min ex (Z.min ex et)) with (Z.min ex et) in Emx by lia.
    replace (Z.min et (Z.min ex et)) with (Z.min ex et) in Emt by lia.
    change (IntDef.Z.min ex et) with (Z.min ex et).
    set (ez := Z.min ex et) in *.
    set (a_x := fst (shl_align mx ex ez)) in *.
    set (a_t := fst (shl_align mt et ez)) in *.
    assert (Pt : (0 < 2 ^ (et - ez))%Z) by (apply Z.pow_pos_nonneg; unfold ez; lia).
    destruct sx; cbv beta iota delta [cond_Zopp].
    + destruct (- Z.pos a_x + Z.pos a_t)%Z as [|n|n] eqn:E;
        cbv beta iota delta [binary_normalize].
      * exact eq_refl.
      * apply negative_le_has_sign_false, binary_round_sign.
      * destruct (binary_round_below true n mx ez ex Vx ltac:(unfold ez; lia)
                    ltac:(lia)) as (m & e & -> & Hord).
        unfold SFleb. simpl.
        change (Pos.compare_cont Eq mx m) with (mx ?= m)%positive.
        destruct (Z.compare_spec ex e) as [Heq|Hlt|Hgt]; try reflexivity; try lia.
        destruct (Pos.compare_spec mx m); try reflexivity. lia.
    + destruct (Z.pos a_x + Z.pos a_t)%Z as [|n|n] eqn:E;
        cbv beta iota delta [binary_normalize]; try lia.
      destruct (binary_round_above false n mx ez ex Vx ltac:(unfold ez; lia)
                  ltac:(lia)) as [->|(m & e & -> & Hord)]; [exact eq_refl|].
      unfold SFleb. simpl.
      change (Pos.compare_cont Eq mx m) with (mx ?= m)%positive.
      destruct (Z.compare_spec ex e) as [Heq|Hlt|Hgt]; try reflexivity; try lia.
      destruct (Pos.compare_spec mx m); try reflexivity. lia.
Qed.

(** The product of two positive numbers has sign +, infinities included. *)
Lemma SFmul_pos_sign (a b : spec_float) :
  SFltb SFzero a = true -> SFltb SFzero b = true -> has_sign false (SF64mul a b).
Proof.
  intros Ha Hb.
  destruct a as [sa|sa| |sa ma ea]; try discriminate Ha;
    destruct sa; try discriminate Ha;
    destruct b as [sb|sb| |sb mb eb]; try discriminate Hb;
    destruct sb; try discriminate Hb; try exact eq_refl.
  unfold SF64mul, SFmul. cbn [xorb]. apply binary_round_aux_sign. lia.
Qed.

Lemma binary_normalize_nonneg (m e : Z) :
  (0 <= m)%Z -> has_sign false (binary_normalize prec emax m e false).
Proof.
  intros H. destruct m as [|p|p]; simpl.
  - exact eq_refl.
  - apply binary_round_sign.
  - lia.
Qed.

(** y <= x for a finite y gives 0 <= x - y, also when x is +infinity. *)
Lemma SFsub_ge_zero (x y : spec_float) :
  valid_binary x = true -> valid_binary y = true -> SF_is_finite y ->
  SFleb y x = true -> SFleb SFzero (SF64sub x y) = true.
Proof.
  intros Vx Vy Fy Hle. unfold SFleb in Hle.
  destruct (SFcompare y x) as [c|] eqn:Hc; [|discriminate Hle].
  assert (Hgt : c <> Gt) by (intros ->; discriminate Hle). clear Hle.
  destruct y as [sy|sy| |sy my ey]; try contradiction;
    destruct x as [sx|sx| |sx mx ex]; try discriminate Hc;
    unfold SF64sub, SFsub.
  - destruct sx, sy; exact eq_refl.
  - simpl in Hc. destruct sx; [inversion Hc; congruence | exact eq_refl].
  - simpl in Hc. destruct sx; [inversion Hc; congruence | exact eq_refl].
  - simpl in Hc. destruct sy; [exact eq_refl | inversion Hc; congruence].
  - simpl in Hc. destruct sx; [inversion Hc; congruence | exact eq_refl].
  - apply has_sign_false_zero_le, binary_normalize_nonneg.
    pose proof (aligned_difference_nonpos sy sx my mx ey ex c Vy Vx Hc Hgt) as H.
    rewrite (Z.min_comm ey ex) in H.
    change (IntDef.Z.min ex ey) with (Z.min ex ey). lia.
Qed.

(** The order of [SFcompare] is transitive. *)
Lemma SFleb_trans (x y z : spec_float) :
  SFleb x y = true -> SFleb y z = true -> SFleb x z = true.
Proof.
  unfold SFleb.
  destruct x as [sx|sx| |sx mx ex], y as [sy|sy| |sy my ey], z as [sz|sz| |sz mz ez];
    simpl; try discriminate; try reflexivity;
    repeat match goal with b : bool |- _ => destruct b end;
    try discriminate; try reflexivity;
    change (Pos.compare_cont Eq) with Pos.compare;
    destruct (Z.compare_spec ex ey); try discriminate;
    destruct (Z.compare_spec ey ez); try discriminate;
    destruct (Z.compare_spec ex ez); try reflexivity; try lia;
    destruct (Pos.compare_spec mx my); try discriminate;
    destruct (Pos.compare_spec my mz); try discriminate;
    destruct (Pos.compare_spec mx mz); try reflexivity; try lia;
    subst; try lia; simpl; try discriminate; try reflexivity.
Qed.

Lemma SFsub_finite_not_nan (x y : spec_float) :
  SF_is_finite x -> SF_is_finite y -> SF64sub x y <> S754_nan.
Proof.
  intros Fx Fy.
  destruct x as [sx|sx| |sx mx ex]; try contradiction;
    destruct y as [sy|sy| |sy my ey]; try contradiction;
    unfold SF64sub, SFsub; try discriminate.
  - destruct sx, sy; discriminate.
  - match goal with |- binary_normalize _ _ ?m _ _ <> _ => destruct m as [|p|p] end;
      cbv beta iota delta [binary_normalize]; try discriminate;
      match goal with |- binary_round _ _ ?s ?p ?e <> _ =>
        pose proof (binary_round_sign s p e) as H;
        intros E; rewrite E in H; exact H
      end.
Qed.

End RoundingFacts.

(** ** The same facts for primitive floats *)

Section SubtractionFacts.

Local Open Scope float_scope.

Lemma not_lt_zero_nonneg (y : float) :
  is_nan y = false -> (y <? 0) = false -> (0 <=? y) = true.
Proof.
  intros Hn. apply is_nan_Prim2SF in Hn. rewrite ltb_spec, leb_spec.
  apply SFltb_false_leb; [exact Hn | discriminate].
Qed.

Lemma sub_zero_nonneg (y : float) : (0 <=? y) = true -> (0 - y <=? 0) = true.
Proof.
  rewrite !leb_spec, sub_spec. apply SFsub_zero_nonneg.
Qed.

Lemma sub_neg_nonneg (x y : float) :
  (x <? 0) = true -> is_nan y = false -> (y <? 0) = false -> (x - y <=? 0) = true.
Proof.
  intros Hx Hn Hy. apply is_nan_Prim2SF in Hn.
  rewrite ltb_spec in Hx, Hy. rewrite leb_spec, sub_spec.
  apply SFsub_neg_nonneg; assumption.
Qed.

Lemma sub_finite_not_lt (a b : float) :
  is_finite a = true -> is_finite b = true -> (a <? b) = false ->
  (b - a <=? 0) = true.
Proof.
  intros Fa Fb Hlt.
  apply is_finite_Prim2SF in Fa. apply is_finite_Prim2SF in Fb.
  assert (Na : Prim2SF a <> S754_nan)
    by (destruct Fa as [[s E]|[s [m [e E]]]]; rewrite E; discriminate).
  assert (Nb : Prim2SF b <> S754_nan)
    by (destruct Fb as [[s E]|[s [m [e E]]]]; rewrite E; discriminate).
  rewrite ltb_spec in Hlt. rewrite leb_spec, sub_spec.
  pose proof (SFltb_false_leb _ _ Na Nb Hlt) as Hle. unfold SFleb in Hle.
  destruct (SFcompare (Prim2SF b) (Prim2SF a)) as [c|] eqn:E; try discriminate Hle.
  apply (SFsub_le_zero _ _ c); try apply Prim2SF_valid; try exact E.
  - destruct Fb as [[s Eb]|[s [m [e Eb]]]]; rewrite Eb; exact I.
  - destruct Fa as [[s Ea]|[s [m [e Ea]]]]; rewrite Ea; exact I.
  - destruct c; try discriminate Hle; discriminate.
Qed.

End SubtractionFacts.

(** ** Sums, products and differences of primitive floats *)

Section AdditionFacts.

Local Open Scope float_scope.

Lemma finite_SF_is_finite (x : float) : is_finite x = true -> SF_is_finite (Prim2SF x).
Proof.
  intros H. apply is_finite_Prim2SF in H.
  destruct H as [[s E]|[s [m [e E]]]]; rewrite E; exact I.
Qed.

Lemma leb_refl_finite (x : float) : is_finite x = true -> (x <=? x) = true.
Proof.
  intros H. rewrite leb_spec. unfold SFleb.
  rewrite SFcompare_refl by (apply finite_SF_is_finite, H). reflexivity.
Qed.

Lemma ltb_leb (x y : float) : (x <? y) = true -> (x <=? y) = true.
Proof.
  rewrite ltb_spec, leb_spec. unfold SFltb, SFleb.
  destruct (SFcompare (Prim2SF x) (Prim2SF y)) as [[| |]|]; try discriminate; reflexivity.
Qed.

Lemma leb_trans (x y z : float) :
  (x <=? y) = true -> (y <=? z) = true -> (x <=? z) = true.
Proof. rewrite !leb_spec. apply SFleb_trans. Qed.

(** x <= x + t when x is finite and t >= 0. *)
Lemma add_nonneg_le (x t : float) :
  is_finite x = true -> has_sign false (Prim2SF t) -> (x <=? x + t) = true.
Proof.
  intros Fx Ht. rewrite leb_spec, add_spec.
  apply SFadd_nonneg_le; try apply Prim2SF_valid; [apply finite_SF_is_finite, Fx | exact Ht].
Qed.

Lemma mul_pos_sign (a b : float) :
  (0 <? a) = true -> (0 <? b) = true -> has_sign false (Prim2SF (a * b)).
Proof.
  rewrite !ltb_spec, mul_spec. apply SFmul_pos_sign.
Qed.

(** y <= x gives 0 <= x - y when y is finite. *)
Lemma sub_le_nonneg (x y : float) :
  is_finite y = true -> (y <=? x) = true -> (0 <=? x - y) = true.
Proof.
  intros Fy. rewrite !leb_spec, sub_spec.
  apply SFsub_ge_zero; try apply Prim2SF_valid. apply finite_SF_is_finite, Fy.
Qed.

(** A difference of finite numbers that fails the test [b - a <= 0] is
    positive, and a < b. *)
Lemma sub_finite_pos (a b : float) :
  is_finite a = true -> is_finite b = true -> (b - a <=? 0) = false ->
  (0 <? b - a) = true /\ (a <? b) = true.
Proof.
  intros Fa Fb H. split.
  - destruct (0 <? b - a) eqn:E; [reflexivity|]. exfalso.
    rewrite ltb_spec in E. rewrite leb_spec in H. rewrite sub_spec in E, H.
    rewrite SFltb_false_leb in H; [discriminate H | discriminate | | exact E].
    apply SFsub_finite_not_nan; apply finite_SF_is_finite; assumption.
  - destruct (a <? b) eqn:E; [reflexivity|].
    rewrite (sub_finite_not_lt a b Fa Fb E) in H. discriminate H.
Qed.

End AdditionFacts.

(* ================================================================= *)
(** ** Queries of the 1d model *)

Section QueryProperties.

Variable M : MathLib.
Variable m : SphericalIsotropicModel.

Local Open Scope float_scope.

(** C4: [evalDeriv] returns the first derivative of the [intfg] spline
    (and its second derivative as df/dh) when h < htransition, and minus
    g(h) times the first derivative of the [intf] spline (and
    -der2*g - der*dg/dh as df/dh) when h >= htransition; each output is
    produced only when its pointer is non-null. *)
Theorem evalDeriv_branches (h : float) (want_f want_dfdh : bool) :
  ((h <? htransition m) = true ->
   SphericalIsotropicModel_evalDeriv M m h want_f want_dfdh =
     let der := snd (fst (spline_evalDeriv M (intfg m) h)) in
     let der2 := snd (spline_evalDeriv M (intfg m) h) in
     ((if want_f then Some der else None),
      (if want_dfdh then Some der2 else None)))
  /\
  ((htransition m <=? h) = true ->
   SphericalIsotropicModel_evalDeriv M m h want_f want_dfdh =
     let der := snd (fst (spline_evalDeriv M (intf m) h)) in
     let der2 := snd (spline_evalDeriv M (intf m) h) in
     let g := g_of (phasevol m) h in
     let dgdh := dgdh_of (phasevol m) h in
     ((if want_f then Some (- der * g) else None),
      (if want_dfdh then Some (- der2 * g - der * dgdh) else None))).
Proof.
  unfold SphericalIsotropicModel_evalDeriv. split; intros H.
  - rewrite H. destruct (spline_evalDeriv M (intfg m) h) as [[v der] der2].
    reflexivity.
  - rewrite (leb_true_ltb_false _ _ H).
    destruct (spline_evalDeriv M (intf m) h) as [[v der] der2]. reflexivity.
Qed.

(** C5: [cumulMass] returns the stored total mass at h = +infinity and
    the value of the [intfg] spline at every finite h. *)
Theorem cumulMass_cases :
  cumulMass M m infinity = totalMass m /\
  (forall h, is_finite h = true -> cumulMass M m h = spline_value M (intfg m) h).
Proof.
  split.
  - reflexivity.
  - intros h H. unfold cumulMass. rewrite (finite_is_not_infinity h H). reflexivity.
Qed.

End QueryProperties.

(** Both branches of [evalDeriv] on the reference model, whose
    [htransition] is 1. *)
Lemma evalDeriv_branches_witness :
  SphericalIsotropicModel_evalDeriv Ref.lib Ref.model 0.5 true true =
    (Some (snd (fst (spline_evalDeriv Ref.lib (intfg Ref.model) 0.5))),
     Some (snd (spline_evalDeriv Ref.lib (intfg Ref.model) 0.5)))
  /\
  SphericalIsotropicModel_evalDeriv Ref.lib Ref.model 5 true false =
    (Some (- snd (fst (spline_evalDeriv Ref.lib (intf Ref.model) 5))
           * g_of (phasevol Ref.model) 5)%float,
     None).
Proof.
  split.
  - apply (proj1 (evalDeriv_branches Ref.lib Ref.model 0.5 true true)).
    vm_compute. reflexivity.
  - apply (proj2 (evalDeriv_branches Ref.lib Ref.model 5 true false)).
    vm_compute. reflexivity.
Defined.

(** [cumulMass] at a finite argument of the reference model. *)
Lemma cumulMass_cases_witness :
  cumulMass Ref.lib Ref.model 2 = spline_value Ref.lib (intfg Ref.model) 2.
Proof.
  apply (proj2 (cumulMass_cases Ref.lib Ref.model)). vm_compute. reflexivity.
Defined.

(* ================================================================= *)
(** ** Velocity sampling *)

Section SamplingProperties.

Variable M : MathLib.
Variable this : SphericalIsotropicModelLocal.

Local Open Scope float_scope.

Lemma sampleVelocity_negative (Phi : float) (state : PRNGState) :
  (Phi <? 0) = true ->
  sampleVelocity M this Phi state =
    let frac := fst (random M state) in
    let root := sampleVelocity_root M this Phi frac in
    Ok (if 0 <=? root
        then sqrt (2 * (E_of (phasevol (base this))
                          (exp M (root + clamp M (log M (pv_h (phasevol (base this)) Phi))
                                           (xmin (intJ1 this)) (xmax (intJ1 this))))
                        - Phi))
        else 0,
        snd (random M state)).
Proof.
  intros H. unfold sampleVelocity. rewrite H. simpl.
  destruct (random M state) as [frac state']. simpl.
  destruct (0 <=? sampleVelocity_root M this Phi frac); reflexivity.
Qed.

(** C7: for Phi < 0 [sampleVelocity] returns a speed and never throws;
    when the result of the root-finder is not >= 0 the speed is the
    sentinel 0; it throws (the invalid-argument exception) exactly when Phi
    is not strictly negative. *)
Theorem sampleVelocity_total (Phi : float) (state : PRNGState) :
  ((Phi <? 0) = true ->
     (exists v, sampleVelocity M this Phi state = Ok (v, snd (random M state))) /\
     ((0 <=? sampleVelocity_root M this Phi (fst (random M state))) = false ->
      sampleVelocity M this Phi state = Ok (0, snd (random M state))))
  /\
  (throws (sampleVelocity M this Phi state) = true <-> (Phi <? 0) = false)
  /\
  (forall e, sampleVelocity M this Phi state = Throw e -> e = invalid_Phi)
  /\
  (forall f, sampleVelocity M this Phi state <> Fault f).
Proof.
  destruct (Phi <? 0) eqn:H.
  - pose proof (sampleVelocity_negative Phi state H) as E. cbv zeta in E.
    rewrite E. repeat split.
    + eexists. reflexivity.
    + intros R. rewrite R. reflexivity.
    + discriminate.
    + discriminate.
    + discriminate.
    + discriminate.
  - unfold sampleVelocity. rewrite H. simpl. repeat split; try discriminate.
    intros e E. inversion E. reflexivity.
Qed.

End SamplingProperties.

(** On the reference model the root is found at Phi = -1 and is not
    bracketed at Phi = -1000, where the speed is 0. *)
Lemma sampleVelocity_total_witness :
  (exists v, sampleVelocity Ref.lib Ref.local (-1)%float 42%Z = Ok (v, snd (random Ref.lib 42%Z)))
  /\ sampleVelocity Ref.lib Ref.local (-1000)%float 42%Z = Ok (0%float, snd (random Ref.lib 42%Z)).
Proof.
  split.
  - apply (proj1 (sampleVelocity_total Ref.lib Ref.local (-1)%float 42%Z)).
    vm_compute. reflexivity.
  - apply (proj1 (sampleVelocity_total Ref.lib Ref.local (-1000)%float 42%Z)).
    + vm_compute. reflexivity.
    + vm_compute. reflexivity.
Defined.

(* ================================================================= *)
(** ** Vectors and indices *)

Section VectorFacts.

Lemma at_in_range (v : list float) (i : nat) :
  (i < List.length v)%nat -> at_ v (Z.of_nat i) = Ok (nth i v 0%float).
Proof.
  intros H. unfold at_.
  replace ((0 <=? Z.of_nat i) && (Z.of_nat i <? Z.of_nat (List.length v)))%Z with true.
  - rewrite Nat2Z.id. reflexivity.
  - symmetry. apply andb_true_iff. split; [apply Z.leb_le | apply Z.ltb_lt]; lia.
Qed.

Lemma from_end_in_range (n : nat) (k : Z) :
  (0 <= k <= Z.of_nat n)%Z -> (Z.of_nat n < 2 ^ 32)%Z ->
  from_end n k = Z.of_nat (n - Z.to_nat k).
Proof.
  intros Hk Hn. unfold from_end, uint. rewrite Z.mod_small; lia.
Qed.

Lemma length_set_nth (i : nat) (x : float) (v : list float) :
  List.length (set_nth i x v) = List.length v.
Proof.
  revert i. induction v as [|a t IH]; intros [|i]; simpl; auto.
Qed.

Lemma nth_set_nth_other (i j : nat) (x : float) (v : list float) :
  i <> j -> nth j (set_nth i x v) 0%float = nth j v 0%float.
Proof.
  revert i j. induction v as [|a t IH]; intros [|i] [|j] H; simpl; auto.
  congruence.
Qed.

Lemma nth_last (v : list float) :
  nth (List.length v - 1) v 0%float = last v 0%float.
Proof.
  induction v as [|a [|b t] IH]; simpl; auto.
  simpl in IH. rewrite Nat.sub_0_r in IH. exact IH.
Qed.

End VectorFacts.

(* ================================================================= *)
(** ** Construction of the 1d model: rejected slopes *)

Section ConstructionProperties.

Variable M : MathLib.
Variable pvol : PhaseVolume.
Variable df : IFunction.

Local Open Scope float_scope.

Lemma tabulate_length (gridLogH gridF gridG gridH gridE : list float) :
  tabulate M pvol df gridLogH = Ok (gridF, gridG, gridH, gridE) ->
  List.length gridF = List.length gridLogH /\
  List.length gridG = List.length gridLogH /\
  List.length gridH = List.length gridLogH /\
  List.length gridE = List.length gridLogH.
Proof.
  revert gridF gridG gridH gridE.
  induction gridLogH as [|x t IH]; simpl; intros F G H E Heq.
  - inversion Heq. auto.
  - destruct (negb (0 <=? value df (exp M x))); try discriminate.
    destruct (tabulate M pvol df t) as [[[[F' G'] H'] E']| |]; try discriminate.
    simpl in Heq. inversion Heq; subst. simpl.
    destruct (IH _ _ _ _ eq_refl) as (-> & -> & -> & ->). auto.
Qed.

Lemma outer_slope_rejected (gridF gridH : list float) (outer : float) :
  List.length gridH = List.length gridF ->
  (2 <= Z.of_nat (List.length gridF) < 2 ^ 32)%Z ->
  (-1 <=? outer) = true ->
  (MIN_VALUE_ROUNDOFF <? last gridF 0) = true ->
  exists e, check_outer_Fslope gridF gridH outer = Throw e /\ DivergentMass e.
Proof.
  intros HH Hn Hslope Hpos. unfold check_outer_Fslope.
  rewrite (from_end_in_range _ 1), (from_end_in_range _ 2) by lia.
  rewrite !at_in_range by lia. cbn [bind].
  change (Z.to_nat 1) with 1%nat. rewrite nth_last.
  rewrite (ltb_true_leb_false _ _ Hpos).
  rewrite (leb_true_ltb_false _ _ Hslope). simpl.
  eexists. split; [reflexivity|]. right. do 5 eexists. reflexivity.
Qed.

Lemma inner_slope_rejected (gridF gridH : list float) (inner : float) :
  List.length gridH = List.length gridF ->
  (2 <= List.length gridF)%nat ->
  (inner <=? -1) = true ->
  (MIN_VALUE_ROUNDOFF <? nth 0 gridF 0) = true ->
  exists e, check_inner_Fslope gridF gridH inner = Throw e /\ DivergentMass e.
Proof.
  intros HH Hn Hslope Hpos. unfold check_inner_Fslope.
  change 0%Z with (Z.of_nat 0). change 1%Z with (Z.of_nat 1).
  rewrite !at_in_range by lia. cbn [bind].
  rewrite (ltb_true_leb_false _ _ Hpos).
  rewrite (leb_true_ltb_false _ _ Hslope). simpl.
  eexists. split; [reflexivity|]. left. do 5 eexists. reflexivity.
Qed.

(** On a grid of two nodes or more the inner test throws a divergent-mass
    exception or leaves the length and the last node of [gridF] as they
    were. *)
Lemma inner_slope_cases (gridF gridH : list float) (inner : float) :
  List.length gridH = List.length gridF ->
  (2 <= List.length gridF)%nat ->
  (exists e, check_inner_Fslope gridF gridH inner = Throw e /\ DivergentMass e) \/
  (exists gridF1 inner1,
     check_inner_Fslope gridF gridH inner = Ok (gridF1, inner1) /\
     List.length gridF1 = List.length gridF /\ last gridF1 0 = last gridF 0).
Proof.
  intros HH Hn. unfold check_inner_Fslope.
  change 0%Z with (Z.of_nat 0). change 1%Z with (Z.of_nat 1).
  rewrite !at_in_range by lia. cbn [bind].
  destruct (nth 0 gridF 0 <=? MIN_VALUE_ROUNDOFF).
  - right. do 2 eexists. split; [reflexivity|].
    split; [apply length_set_nth|].
    rewrite <- (nth_last (set_nth 0 0 gridF)), <- (nth_last gridF), length_set_nth.
    apply nth_set_nth_other. lia.
  - destruct (negb (-1 <? inner)).
    + left. eexists. split; [reflexivity|]. left. do 5 eexists. reflexivity.
    + right. do 2 eexists. repeat split; reflexivity.
Qed.

(** C1: once the DF is tabulated and its boundary slopes are inferred on
    a grid of at least two nodes, the constructor throws a divergent-mass
    exception whenever the inner slope is <= -1 and f at the first node
    exceeds the snap-to-zero threshold, or the outer slope is >= -1 and f
    at the last node exceeds it. *)
Theorem divergent_mass_rejected (gridh gridF gridG gridH gridE : list float)
    (inner outer : float) :
  (2 <= Z.of_nat (List.length (make_gridLogH M df gridh)) < 2 ^ 32)%Z ->
  tabulate M pvol df (make_gridLogH M df gridh) = Ok (gridF, gridG, gridH, gridE) ->
  infer_Fslopes M df (make_gridLogH M df gridh) gridF gridH = Ok (inner, outer) ->
  ((inner <=? -1) = true /\ (MIN_VALUE_ROUNDOFF <? nth 0 gridF 0) = true) \/
  ((-1 <=? outer) = true /\ (MIN_VALUE_ROUNDOFF <? last gridF 0) = true) ->
  exists e, SphericalIsotropicModel_new M pvol df gridh = Throw e /\ DivergentMass e.
Proof.
  intros Hn Htab Hinf Hcase.
  destruct (tabulate_length _ _ _ _ _ Htab) as (HF & HG & HH & HE).
  assert (Hchk : exists e, check_Fslopes gridF gridH inner outer = Throw e
                           /\ DivergentMass e).
  { unfold check_Fslopes.
    destruct Hcase as [[Hs Hp]|[Hs Hp]].
    - destruct (inner_slope_rejected gridF gridH inner) as [e [-> He]];
        try assumption; try lia.
      exists e. split; [reflexivity | exact He].
    - destruct (inner_slope_cases gridF gridH inner)
        as [[e [-> He]]|[gridF1 [inner1 [-> [HL Hlast]]]]]; try lia.
      + exists e. split; [reflexivity | exact He].
      + cbn [bind].
        destruct (outer_slope_rejected gridF1 gridH outer) as [e [-> He]];
          try lia; try assumption.
        * rewrite Hlast. exact Hp.
        * exists e. split; [reflexivity | exact He]. }
  destruct Hchk as [e [Hchk He]]. exists e. split; [|exact He].
  unfold SphericalIsotropicModel_new. rewrite Htab. cbn [bind].
  rewrite Hinf. cbn [bind]. rewrite Hchk. reflexivity.
Qed.

End ConstructionProperties.

(** The DF f(h) = h^(-1/2) on the reference grid: its inferred outer
    slope is -1/2 and the constructor throws. *)
Lemma divergent_mass_rejected_witness :
  exists e,
    SphericalIsotropicModel_new Ref.lib Ref.pvol Ref.df_sqrt Ref.gridh = Throw e /\
    DivergentMass e.
Proof.
  eapply (divergent_mass_rejected Ref.lib Ref.pvol Ref.df_sqrt Ref.gridh).
  - match goal with
    | |- context [List.length ?l] =>
        replace (List.length l) with 5%nat by (vm_compute; reflexivity)
    end.
    lia.
  - vm_compute. reflexivity.
  - vm_compute. reflexivity.
  - right. split; vm_compute; reflexivity.
Defined.

Example sqrt_df_falls_off_too_slowly :
  exists h1 f1 h2 f2,
    SphericalIsotropicModel_new Ref.lib Ref.pvol Ref.df_sqrt Ref.gridh
    = Throw (falls_off_too_slowly h1 f1 h2 f2 (-0.5)%float).
Proof. do 4 eexists. vm_compute. reflexivity. Qed.

(* ================================================================= *)
(** ** Construction of the 1d model: the crossover point *)

(** Splits a successful sequence of steps into its steps. *)
Ltac invert_ok H :=
  repeat match type of H with
  | bind ?c _ = Ok _ =>
      let E := fresh "E" in
      destruct c eqn:E; cbn [bind] in H; [|discriminate H|discriminate H]
  | (let '(_, _) := ?p in _) = Ok _ => destruct p
  | (if ?b then _ else _) = Ok _ =>
      let E := fresh "E" in destruct b eqn:E; [try discriminate H|try discriminate H]
  end.

Section CrossoverProperties.

Variable M : MathLib.
Variable pvol : PhaseVolume.
Variable df : IFunction.

Local Open Scope float_scope.

Lemma length_segments (v : list float) :
  List.length (segments v) = (List.length v - 1)%nat.
Proof.
  induction v as [|a [|b t] IH]; simpl; auto.
  simpl in IH. rewrite IH. lia.
Qed.

Lemma interior_integrals_length (segs : list (float * float))
    (F FG FH FE : list float) :
  interior_integrals M pvol df segs = Ok (F, FG, FH, FE) ->
  List.length F = List.length segs /\ List.length FG = List.length segs /\
  List.length FH = List.length segs /\ List.length FE = List.length segs.
Proof.
  revert F FG FH FE. induction segs as [|s t IH]; simpl; intros F FG FH FE H.
  - inversion H. auto.
  - destruct (segment_integrals M pvol df s) as [[[[a b] c] d]| |]; try discriminate.
    cbn [bind] in H.
    destruct (interior_integrals M pvol df t) as [[[[F' FG'] FH'] FE']| |];
      try discriminate.
    cbn [bind] in H. inversion H; subst. simpl.
    destruct (IH _ _ _ _ eq_refl) as (-> & -> & -> & ->). auto.
Qed.

Lemma length_cumul_inside_out (first : float) (s : list float) :
  List.length (cumul_inside_out first s) = S (List.length s).
Proof.
  revert first. induction s as [|a t IH]; intros first; simpl; auto.
Qed.

Lemma length_update_back (f : float -> float) (v : list float) :
  List.length (update_back f v) = List.length v.
Proof.
  induction v as [|a [|b t] IH]; simpl; auto.
Qed.

Lemma at_0_inv (v : list float) (x : float) :
  at_ v 0 = Ok x -> exists t, v = x :: t.
Proof.
  destruct v as [|a t]; unfold at_; simpl; intros H; inversion H. eauto.
Qed.

(** What the loop of step 7 returns: the node of index [k] of
    [cur :: hs], where the first [k] values of [fgs] are below the
    threshold and the next one, if the loop reached it, is not. *)
Lemma htransition_loop_spec (T : float) (hs fgs : list float) (cur : float) :
  exists k,
    htransition_loop T hs fgs cur = nth k (cur :: hs) 0 /\
    (k <= List.length hs)%nat /\ (k <= List.length fgs)%nat /\
    (forall j, (j < k)%nat -> (nth j fgs 0 <? T * 0.999) = true) /\
    ((k < List.length hs)%nat -> (k < List.length fgs)%nat ->
     (nth k fgs 0 <? T * 0.999) = false).
Proof.
  revert fgs cur. induction hs as [|h hs IH]; intros fgs cur.
  - exists 0%nat. simpl. repeat split; intros; lia.
  - destruct fgs as [|fg fgs].
    + exists 0%nat. simpl. repeat split; intros; lia.
    + simpl. destruct (fg <? T * 0.999) eqn:Hfg.
      * destruct (IH fgs h) as (k & Hk & Hl1 & Hl2 & Hbelow & Hstop).
        exists (S k). split; [exact Hk|]. split; [lia|]. split; [lia|]. split.
        -- intros [|j] Hj; [exact Hfg | apply Hbelow; lia].
        -- intros H1 H2. apply Hstop; lia.
      * exists 0%nat. split; [reflexivity|]. split; [lia|]. split; [lia|]. split.
        -- intros j Hj; lia.
        -- intros _ _. exact Hfg.
Qed.

(** The shape of a constructed model: its grid, the tabulated FGint, the
    total mass and the crossover point. *)
Lemma SphericalIsotropicModel_new_inv (gridh : list float) (m : SphericalIsotropicModel) :
  SphericalIsotropicModel_new M pvol df gridh = Ok m ->
  exists H0 t,
    phasevol m = pvol /\
    xval (intfg m) = H0 :: t /\
    List.length (fval (intfg m)) = List.length (xval (intfg m)) /\
    back (fval (intfg m)) = Ok (totalMass m) /\
    (0 <? totalMass m) = true /\
    htransition m =
      htransition_loop (totalMass m) t (skipn 2 (fval (intfg m))) H0.
Proof.
  unfold SphericalIsotropicModel_new. intros H.
  destruct (tabulate M pvol df (make_gridLogH M df gridh))
    as [[[[gridF0 gridG] gridH] gridE]| |] eqn:Htab; try discriminate.
  cbn [bind] in H.
  destruct (infer_Fslopes M df (make_gridLogH M df gridh) gridF0 gridH)
    as [[i0 o0]| |]; try discriminate.
  cbn [bind] in H.
  destruct (check_Fslopes gridF0 gridH i0 o0) as [[[gridF i1] o1]| |];
    try discriminate.
  cbn [bind] in H.
  destruct (infer_Eslopes pvol gridG gridH gridE i1)
    as [[[[[Phi0 innerE] outerE] iE] oE]| |]; try discriminate.
  cbn [bind] in H.
  destruct (interior_integrals M pvol df (segments (make_gridLogH M df gridh)))
    as [[[[sF sFG] sFH] sFE]| |] eqn:Hint; try discriminate.
  cbn [bind] in H.
  destruct (back gridF) as [Fb| |]; try discriminate. cbn [bind] in H.
  destruct (back gridH) as [Hb| |]; try discriminate. cbn [bind] in H.
  destruct (back gridG) as [Gb| |]; try discriminate. cbn [bind] in H.
  destruct (at_ gridF 0) as [F0| |]; try discriminate. cbn [bind] in H.
  destruct (at_ gridH 0) as [H0| |] eqn:EH0; try discriminate. cbn [bind] in H.
  destruct (at_ gridG 0) as [G0| |]; try discriminate. cbn [bind] in H.
  match type of H with
  | bind (back ?v) _ = _ => set (gridFGint := v) in *
  end.
  destruct (back gridFGint) as [tm| |] eqn:Etm; try discriminate.
  cbn [bind] in H.
  destruct (negb (0 <? tm)) eqn:Epos; try discriminate.
  match type of H with
  | (if ?b then _ else _) = _ => destruct b; try discriminate
  end.
  inversion H; subst m; clear H.
  cbn [phasevol intfg xval fval totalMass htransition].
  destruct (at_0_inv _ _ EH0) as [t Ht]. exists H0, t. subst gridH.
  repeat split.
  - destruct (tabulate_length _ _ _ _ _ _ _ _ Htab) as (_ & _ & HH & _).
    destruct (interior_integrals_length _ _ _ _ _ Hint) as (_ & HFG & _ & _).
    unfold gridFGint.
    rewrite length_update_back, length_cumul_inside_out, HFG, length_segments, HH.
    simpl in HH. lia.
  - exact Etm.
  - apply negb_false_iff. exact Epos.
Qed.

(** C3 (as amended): after construction [htransition] is the grid node
    h_k, where k is the largest index such that every node h_(j+1) with
    1 <= j <= k is not the last node and has FGint(h_(j+1)) <
    0.999 totalMass; k = 0 when there is none. *)
Theorem htransition_spec (gridh : list float) (m : SphericalIsotropicModel) :
  SphericalIsotropicModel_new M pvol df gridh = Ok m ->
  let gridH := xval (intfg m) in
  let gridFGint := fval (intfg m) in
  List.length gridFGint = List.length gridH /\
  exists k,
    htransition m = nth k gridH 0 /\
    (k = 0 \/ k + 2 <= List.length gridH)%nat /\
    (forall j, (1 <= j <= k)%nat ->
               (nth (j + 1) gridFGint 0 <? totalMass m * 0.999) = true) /\
    ((k + 2 < List.length gridH)%nat ->
     (nth (k + 2) gridFGint 0 <? totalMass m * 0.999) = false).
Proof.
  intros Hnew. cbv zeta.
  destruct (SphericalIsotropicModel_new_inv gridh m Hnew)
    as (H0 & t & _ & Hgrid & Hlen & _ & _ & Hht).
  split; [exact Hlen|].
  destruct (htransition_loop_spec (totalMass m) t (skipn 2 (fval (intfg m))) H0)
    as (k & Hk & Hl1 & Hl2 & Hbelow & Hstop).
  rewrite length_skipn in Hl2, Hstop.
  rewrite Hgrid in *. simpl List.length in *.
  exists k. repeat split.
  - rewrite Hht. exact Hk.
  - lia.
  - intros j Hj. specialize (Hbelow (j - 1)%nat).
    rewrite nth_skipn in Hbelow.
    replace (2 + (j - 1))%nat with (j + 1)%nat in Hbelow by lia.
    apply Hbelow. lia.
  - intros Hk2. rewrite nth_skipn in Hstop.
    replace (2 + k)%nat with (k + 2)%nat in Hstop by lia.
    apply Hstop; lia.
Qed.

End CrossoverProperties.

(** A model is determined by its phase volume and its numerical content. *)
Lemma constructed_from_fields (M : MathLib) (pvol : PhaseVolume) (df : IFunction)
    (gridh : list float)
    (f : LogLogSpline * LogLogSpline * LogLogSpline * LogLogSpline * float * float) :
  Ref.result_fields (SphericalIsotropicModel_new M pvol df gridh) = Some f ->
  SphericalIsotropicModel_new M pvol df gridh = Ok (Ref.with_fields pvol f).
Proof.
  intros H.
  destruct (SphericalIsotropicModel_new M pvol df gridh) as [m| |] eqn:E;
    try discriminate H.
  destruct (SphericalIsotropicModel_new_inv M pvol df gridh m E) as (_ & _ & Hp & _).
  destruct m. simpl in Hp. subst. inversion H. reflexivity.
Qed.

(** The reference model is the result of the constructor. *)
Lemma Ref_model_constructed :
  SphericalIsotropicModel_new Ref.lib Ref.pvol Ref.df Ref.gridh = Ok Ref.model.
Proof.
  apply constructed_from_fields. vm_compute. reflexivity.
Qed.

(** The crossover point of the reference model, by the amended claim. *)
Lemma htransition_spec_witness :
  List.length (fval (intfg Ref.model)) = List.length (xval (intfg Ref.model)) /\
  exists k,
    htransition Ref.model = nth k (xval (intfg Ref.model)) 0%float /\
    (k = 0 \/ k + 2 <= List.length (xval (intfg Ref.model)))%nat /\
    (forall j, (1 <= j <= k)%nat ->
       (nth (j + 1) (fval (intfg Ref.model)) 0 <? totalMass Ref.model * 0.999)%float
       = true) /\
    ((k + 2 < List.length (xval (intfg Ref.model)))%nat ->
     (nth (k + 2) (fval (intfg Ref.model)) 0 <? totalMass Ref.model * 0.999)%float
     = false).
Proof.
  exact (htransition_spec Ref.lib Ref.pvol Ref.df Ref.gridh Ref.model
           Ref_model_constructed).
Defined.

(** The reference model has five nodes (h about 0.01, 0.1, 1, 10, 100); its
    crossover point is the node 1, although FGint at the node 10 is still
    below 0.999 totalMass. *)
Example Ref_model_htransition :
  htransition Ref.model = 1%float /\
  nth 3 (xval (intfg Ref.model)) 0%float = 10%float /\
  (nth 3 (fval (intfg Ref.model)) 0 <? totalMass Ref.model * 0.999)%float = true.
Proof.
  split; [vm_compute; reflexivity|].
  split; vm_compute; reflexivity.
Qed.

(** C3 (as stated) fails: on the reference model [htransition] is not the
    largest grid value whose FGint is below 0.999 totalMass. *)
Lemma htransition_not_largest_node :
  SphericalIsotropicModel_new Ref.lib Ref.pvol Ref.df Ref.gridh = Ok Ref.model /\
  ~ largest_node_below_threshold Ref.model (htransition Ref.model).
Proof.
  split; [exact Ref_model_constructed|].
  intros [_ H]. specialize (H 3%nat).
  assert (H1 : (3 < List.length (xval (intfg Ref.model)))%nat)
    by (vm_compute; repeat constructor).
  assert (H2 : (nth 3 (fval (intfg Ref.model)) 0 <? totalMass Ref.model * 0.999)%float
               = true) by (vm_compute; reflexivity).
  specialize (H H1 H2). vm_compute in H. discriminate H.
Qed.

(* ================================================================= *)
(** ** Construction of the local model *)

Section LocalProperties.

Variable M : MathLib.
Variable this : SphericalIsotropicModel.
Variable df : IFunction.

Local Open Scope float_scope.

Lemma pop_while_tiny_spec (rev_grid : list float) :
  exists dropped,
    rev_grid = dropped ++ pop_while_tiny M df rev_grid /\
    Forall (tiny M df) dropped /\
    (pop_while_tiny M df rev_grid = [] \/
     exists x t, pop_while_tiny M df rev_grid = x :: t /\ ~ tiny M df x).
Proof.
  induction rev_grid as [|x t IH].
  - exists []. simpl. auto.
  - simpl. destruct (value df (exp M x) <=? MIN_VALUE_ROUNDOFF) eqn:Hx.
    + destruct IH as (d & Heq & Hd & Hhead).
      exists (x :: d). simpl. rewrite <- Heq. repeat split; auto.
    + exists []. simpl. repeat split; auto. right. exists x, t. split; auto.
      unfold tiny. rewrite Hx. discriminate.
Qed.

(** The trimmed grid is a prefix of the grid; every dropped node is tiny
    and the last node kept is not. *)
Lemma trim_grid_spec (gridLogH : list float) :
  exists dropped,
    gridLogH = trim_grid M df gridLogH ++ dropped /\
    Forall (tiny M df) dropped /\
    (trim_grid M df gridLogH = [] \/
     exists t x, trim_grid M df gridLogH = t ++ [x] /\ ~ tiny M df x).
Proof.
  unfold trim_grid.
  destruct (pop_while_tiny_spec (rev gridLogH)) as (d & Heq & Hd & Hhead).
  exists (rev d). repeat split.
  - rewrite <- rev_app_distr, <- Heq, rev_involutive. reflexivity.
  - apply Forall_rev. exact Hd.
  - destruct Hhead as [->|(x & t & -> & Hx)]; [left; reflexivity|].
    right. exists (rev t), x. simpl. auto.
Qed.

Lemma row_loop_length (b : bool) (l oE oEs oR oJ1 oJ3 : float) (gridY : list float)
    (js : list nat) (acc : float * float * float) :
  List.length (fst (row_loop M this df b l oE oEs oR oJ1 oJ3 gridY js acc))
    = List.length js /\
  List.length (snd (row_loop M this df b l oE oEs oR oJ1 oJ3 gridY js acc))
    = List.length js.
Proof.
  revert acc. induction js as [|j js IH]; intros acc; simpl; auto.
  destruct (row_step M this df b l oE oEs oR oJ1 oJ3 j
              (nth (j - 1) gridY 0) (nth j gridY 0) acc) as [acc' [e1 e3]].
  specialize (IH acc').
  destruct (row_loop M this df b l oE oEs oR oJ1 oJ3 gridY js acc') as [r1 r3].
  simpl in *. destruct IH as [-> ->]. auto.
Qed.

Lemma make_row_spec (b : bool) (l oE oEs oR oJ1 oJ3 : float) (gridY : list float) :
  boundary_row M (2 / 3) (fst (make_row M this df b l oE oEs oR oJ1 oJ3 gridY)) /\
  boundary_row M (2 / 5) (snd (make_row M this df b l oE oEs oR oJ1 oJ3 gridY)).
Proof.
  unfold make_row, boundary_row.
  pose proof (row_loop_length b l oE oEs oR oJ1 oJ3 gridY (seq 1 (npointsY - 1))
                (0, 0, 0)) as [H1 H3].
  destruct (row_loop M this df b l oE oEs oR oJ1 oJ3 gridY (seq 1 (npointsY - 1))
              (0, 0, 0)) as [r1 r3].
  simpl fst in *. simpl snd in *. rewrite length_seq in H1, H3.
  simpl List.length. rewrite H1, H3. repeat split; reflexivity.
Qed.

Lemma make_rows_spec (oE oEs oR oJ1 oJ3 : float) (gridY rows : list float) :
  List.length (fst (make_rows M this df oE oEs oR oJ1 oJ3 gridY rows))
    = List.length rows /\
  List.length (snd (make_rows M this df oE oEs oR oJ1 oJ3 gridY rows))
    = List.length rows /\
  Forall (boundary_row M (2 / 3)) (fst (make_rows M this df oE oEs oR oJ1 oJ3 gridY rows)) /\
  Forall (boundary_row M (2 / 5)) (snd (make_rows M this df oE oEs oR oJ1 oJ3 gridY rows)).
Proof.
  induction rows as [|l rows IH]; simpl.
  - repeat split; constructor.
  - match goal with
    | |- context [make_row M this df ?b l oE oEs oR oJ1 oJ3 gridY] =>
        pose proof (make_row_spec b l oE oEs oR oJ1 oJ3 gridY) as [R1 R3];
        destruct (make_row M this df b l oE oEs oR oJ1 oJ3 gridY) as [r1 r3]
    end.
    destruct (make_rows M this df oE oEs oR oJ1 oJ3 gridY rows) as [t1 t3].
    simpl in *. destruct IH as (-> & -> & F1 & F3).
    repeat split; constructor; assumption.
Qed.

(** The shape of what [init] returns. *)
Lemma init_inv (gridh : list float) (J1 J3 : CubicSpline2d) :
  init M this df gridh = Ok (J1, J3) ->
  let gridLogH := trim_grid M df (make_gridLogH M df gridh) in
  (3 <= List.length gridLogH)%nat /\
  xgrid J1 = gridLogH /\ xgrid J3 = gridLogH /\ ygrid J1 = ygrid J3 /\
  exists oE oEs oR oJ1 oJ3,
    zval J1 = fst (make_rows M this df oE oEs oR oJ1 oJ3 (ygrid J1) gridLogH) /\
    zval J3 = snd (make_rows M this df oE oEs oR oJ1 oJ3 (ygrid J1) gridLogH).
Proof.
  unfold init. fold (make_gridLogH M df gridh).
  set (gridLogH := trim_grid M df (make_gridLogH M df gridh)).
  intros H. cbv zeta.
  destruct (List.length gridLogH <? 3)%nat eqn:Hlen; [discriminate H|].
  apply Nat.ltb_ge in Hlen.
  cbv zeta in H.
  match type of H with
  | (if ?b then _ else _) = _ => destruct b; [discriminate H|]
  end.
  match type of H with
  | (if ?b then _ else _) = _ => destruct b; [discriminate H|]
  end.
  match type of H with
  | (let '(_, _) := make_rows M this df ?a ?b ?c ?d ?e ?gy gridLogH in _) = _ =>
      destruct (make_rows M this df a b c d e gy gridLogH) as [t1 t3] eqn:Hrows;
      inversion H; subst J1 J3; clear H; cbn [xgrid ygrid zval];
      repeat split; try assumption;
      exists a, b, c, d, e; rewrite Hrows; split; reflexivity
  end.
Qed.

(** C10: [init] drops the trailing grid nodes at which f(h) is at or below
    the threshold (the 2d grid in X is the grid that remains, a prefix of
    the supplied one, ending at a node where f exceeds the threshold), and
    throws the runtime error "f(h) is nowhere positive" whenever fewer than
    three nodes remain. *)
Theorem init_trims_grid (gridh : list float) :
  let supplied := make_gridLogH M df gridh in
  let kept := trim_grid M df supplied in
  (exists dropped,
     supplied = kept ++ dropped /\ Forall (tiny M df) dropped /\
     (kept = [] \/ exists t x, kept = t ++ [x] /\ ~ tiny M df x)) /\
  ((List.length kept < 3)%nat ->
   init M this df gridh = Throw local_nowhere_positive) /\
  (forall J1 J3, init M this df gridh = Ok (J1, J3) ->
                 xgrid J1 = kept /\ xgrid J3 = kept).
Proof.
  cbv zeta. split; [apply trim_grid_spec|]. split.
  - intros Hlen. unfold init. fold (make_gridLogH M df gridh).
    apply Nat.ltb_lt in Hlen. cbv zeta. rewrite Hlen. reflexivity.
  - intros J1 J3 H. destruct (init_inv gridh J1 J3 H) as (_ & H1 & H3 & _).
    split; assumption.
Qed.

(** In the tables that [init] hands to the two 2d interpolators, every
    row (one per node in X) starts, at the first node in Y, with log(2/3)
    for J1 and log(2/5) for J3. *)
Lemma boundary_rows_tabulated (gridh : list float) (J1 J3 : CubicSpline2d) :
  init M this df gridh = Ok (J1, J3) ->
  List.length (zval J1) = List.length (xgrid J1) /\
  List.length (zval J3) = List.length (xgrid J3) /\
  (forall i, (i < List.length (xgrid J1))%nat ->
     List.length (nth i (zval J1) []) = npointsY /\
     nth 0 (nth i (zval J1) []) 0 = log M (2 / 3)) /\
  (forall i, (i < List.length (xgrid J3))%nat ->
     List.length (nth i (zval J3) []) = npointsY /\
     nth 0 (nth i (zval J3) []) 0 = log M (2 / 5)).
Proof.
  intros H. destruct (init_inv gridh J1 J3 H)
    as (_ & H1 & H3 & _ & oE & oEs & oR & oJ1 & oJ3 & Z1 & Z3).
  cbv zeta in *.
  destruct (make_rows_spec oE oEs oR oJ1 oJ3 (ygrid J1)
              (trim_grid M df (make_gridLogH M df gridh)))
    as (L1 & L3 & F1 & F3).
  rewrite <- Z1 in L1, F1. rewrite <- Z3 in L3, F3.
  rewrite H1, H3. repeat split; try assumption.
  - rewrite Forall_forall in F1. apply F1, nth_In. rewrite L1. assumption.
  - rewrite Forall_forall in F1. apply F1, nth_In. rewrite L1. assumption.
  - rewrite Forall_forall in F3. apply F3, nth_In. rewrite L3. assumption.
  - rewrite Forall_forall in F3. apply F3, nth_In. rewrite L3. assumption.
Qed.

Lemma hd_nth0 (l : list float) : hd 0 l = nth 0 l 0.
Proof. destruct l; reflexivity. Qed.

(** C6: in the tables that [init] hands to the two 2d interpolators,
    every row (one per node in X) starts, at Y = 0, with log(2/3) for J1
    and log(2/5) for J3; Y = 0 is the first node of the grid in Y, that
    is the Y-minimum of both interpolators, which share their grids.
    Hence, on grids with strictly increasing coordinates, the two
    surfaces evaluated at their Y-minimum give these constants: at every
    node in X when the 2d spline of the library interpolates its table,
    and at every X within the grid when it reproduces a constant along a
    grid line. *)
Theorem boundary_values_tabulated (gridh : list float) (J1 J3 : CubicSpline2d) :
  init M this df gridh = Ok (J1, J3) ->
  List.length (zval J1) = List.length (xgrid J1) /\
  List.length (zval J3) = List.length (xgrid J3) /\
  (forall i, (i < List.length (xgrid J1))%nat ->
     List.length (nth i (zval J1) []) = npointsY /\
     nth 0 (nth i (zval J1) []) 0 = log M (2 / 3)) /\
  (forall i, (i < List.length (xgrid J3))%nat ->
     List.length (nth i (zval J3) []) = npointsY /\
     nth 0 (nth i (zval J3) []) 0 = log M (2 / 5)) /\
  (xgrid J3 = xgrid J1 /\ ygrid J3 = ygrid J1) /\
  (strictly_increasing (xgrid J1) = true ->
   strictly_increasing (ygrid J1) = true -> ygrid J1 <> [] ->
   (spline2d_interpolates M ->
    forall i, (i < List.length (xgrid J1))%nat ->
      spline2d_value M J1 (nth i (xgrid J1) 0) (ymin J1) = log M (2 / 3) /\
      spline2d_value M J3 (nth i (xgrid J3) 0) (ymin J3) = log M (2 / 5)) /\
   (spline2d_constant_on_lines M ->
    forall X, (xmin J1 <=? X) = true -> (X <=? xmax J1) = true ->
      spline2d_value M J1 X (ymin J1) = log M (2 / 3) /\
      spline2d_value M J3 X (ymin J3) = log M (2 / 5))).
Proof.
  intros H.
  destruct (boundary_rows_tabulated gridh J1 J3 H) as (L1 & L3 & T1 & T3).
  destruct (init_inv gridh J1 J3 H) as (Hlen & H1 & H3 & HY & _).
  cbv zeta in *.
  assert (EX : xgrid J3 = xgrid J1) by congruence.
  split; [exact L1|]. split; [exact L3|]. split; [exact T1|]. split; [exact T3|].
  split; [split; [exact EX | symmetry; exact HY]|].
  intros IX IY NY.
  assert (LY : (0 < List.length (ygrid J1))%nat)
    by (destruct (ygrid J1); [congruence | simpl; lia]).
  unfold ymin. rewrite !hd_nth0.
  split.
  - intros Hint i Hi. split.
    + rewrite (Hint J1 i 0%nat IX IY Hi LY). apply (T1 i Hi).
    + rewrite (Hint J3 i 0%nat) by (rewrite ?EX, <- ?HY; assumption).
      apply T3. rewrite EX. exact Hi.
  - intros Hconst X Hlo Hhi. split.
    + apply Hconst; try assumption.
      * rewrite H1. lia.
      * intros i Hi. apply (T1 i Hi).
    + apply Hconst; rewrite ?EX, <- ?HY; try assumption.
      * rewrite H1. lia.
      * intros i Hi. apply T3. rewrite EX. exact Hi.
      * unfold xmin. rewrite EX. exact Hlo.
      * unfold xmax. rewrite EX. exact Hhi.
Qed.

End LocalProperties.

(** A constructed local model holds what the base constructor and [init]
    returned. *)
Lemma SphericalIsotropicModelLocal_new_inv (M : MathLib) (pvol : PhaseVolume)
    (df : IFunction) (gridh : list float) (L : SphericalIsotropicModelLocal) :
  SphericalIsotropicModelLocal_new M pvol df gridh = Ok L ->
  SphericalIsotropicModel_new M pvol df gridh = Ok (base L) /\
  init M (base L) df gridh = Ok (intJ1 L, intJ3 L).
Proof.
  unfold SphericalIsotropicModelLocal_new. intros H.
  destruct (SphericalIsotropicModel_new M pvol df gridh) as [b| |];
    try discriminate H.
  cbn [bind] in H.
  destruct (init M b df gridh) as [[J1 J3]| |] eqn:Hinit; try discriminate H.
  cbn [bind] in H. inversion H; subst L; clear H. cbn [base intJ1 intJ3].
  split; [reflexivity | exact Hinit].
Qed.

Lemma Ref_local_constructed :
  SphericalIsotropicModelLocal_new Ref.lib Ref.pvol Ref.df Ref.gridh = Ok Ref.local.
Proof.
  assert (H : init Ref.lib Ref.model Ref.df Ref.gridh = Ok Ref.local_tables)
    by (vm_compute; reflexivity).
  unfold SphericalIsotropicModelLocal_new.
  rewrite Ref_model_constructed. cbn [bind]. rewrite H. reflexivity.
Qed.

Lemma Ref_model_cut_constructed :
  SphericalIsotropicModel_new Ref.lib Ref.pvol Ref.df_cut Ref.gridh = Ok Ref.model_cut.
Proof.
  apply constructed_from_fields. vm_compute. reflexivity.
Qed.

Lemma Ref_local_cut_constructed :
  SphericalIsotropicModelLocal_new Ref.lib Ref.pvol Ref.df_cut Ref.gridh
  = Ok Ref.local_cut.
Proof.
  assert (H : init Ref.lib Ref.model_cut Ref.df_cut Ref.gridh = Ok Ref.local_cut_tables)
    by (vm_compute; reflexivity).
  unfold SphericalIsotropicModelLocal_new.
  rewrite Ref_model_cut_constructed. cbn [bind]. rewrite H. reflexivity.
Qed.

(** ** The reference interpolator meets the contract *)

Section ReferenceSpline.

Local Open Scope float_scope.

Lemma leb_not_ltb_leb (a c : float) :
  (a <=? c) = true -> (a <? c) = false -> (c <=? a) = true.
Proof.
  rewrite !leb_spec, ltb_spec. unfold SFleb, SFltb.
  destruct (SFcompare (Prim2SF a) (Prim2SF c)) as [[| |]|] eqn:E; try discriminate.
  intros _ _. rewrite (SFcompare_antisym _ _ _ E). reflexivity.
Qed.

Lemma ltb_trans (a b c : float) :
  (a <? b) = true -> (b <? c) = true -> (a <? c) = true.
Proof.
  intros Hab Hbc. destruct (a <? c) eqn:Hac; [reflexivity|]. exfalso.
  pose proof (leb_trans _ _ _ (ltb_leb _ _ Hab) (ltb_leb _ _ Hbc)) as Hle.
  pose proof (leb_not_ltb_leb _ _ Hle Hac) as Hca.
  pose proof (leb_trans _ _ _ Hca (ltb_leb _ _ Hab)) as Hcb.
  rewrite (ltb_true_leb_false _ _ Hbc) in Hcb. discriminate Hcb.
Qed.

Lemma ltb_asym (a b : float) : (a <? b) = true -> (b <? a) = false.
Proof.
  intros H. destruct (b <? a) eqn:E; [|reflexivity].
  pose proof (ltb_true_leb_false _ _ H) as H1.
  rewrite (ltb_leb _ _ E) in H1. discriminate H1.
Qed.

Lemma ltb_irrefl (x : float) : (x <? x) = false.
Proof.
  destruct (x <? x) eqn:H; [|reflexivity]. rewrite (ltb_asym _ _ H) in H. discriminate H.
Qed.

(** In a strictly increasing grid the first node is below every other. *)
Lemma strictly_increasing_head (a : float) (l : list float) (k : nat) :
  strictly_increasing (a :: l) = true -> (k < List.length l)%nat ->
  (a <? nth k l 0) = true.
Proof.
  revert a k. induction l as [|b t IH]; intros a k Hinc Hk; [simpl in Hk; lia|].
  change (strictly_increasing (a :: b :: t))
    with ((a <? b) && strictly_increasing (b :: t)) in Hinc.
  apply andb_true_iff in Hinc. destruct Hinc as [Hab Hinc].
  destruct k as [|k]; [exact Hab|]. simpl in Hk |- *.
  apply (ltb_trans _ _ _ Hab). apply IH; [exact Hinc | lia].
Qed.

(** The cell of a node of a strictly increasing grid is its index. *)
Lemma cell_index_node (xs : list float) (i : nat) :
  strictly_increasing xs = true -> (i < List.length xs)%nat ->
  Ref.cell_index xs (nth i xs 0) = i.
Proof.
  revert i. induction xs as [|a [|b t] IH]; intros i Hinc Hi.
  - simpl in Hi. lia.
  - simpl in Hi. assert (i = 0%nat) by lia. subst. reflexivity.
  - pose proof Hinc as Hinc0.
    change (strictly_increasing (a :: b :: t))
      with ((a <? b) && strictly_increasing (b :: t)) in Hinc.
    apply andb_true_iff in Hinc. destruct Hinc as [Hab Hinc].
    destruct i as [|k].
    + cbn [nth Ref.cell_index]. rewrite Hab. reflexivity.
    + change (nth (S k) (a :: b :: t) 0) with (nth k (b :: t) 0). simpl in Hi.
      assert (Hx : (nth k (b :: t) 0 <? b) = false).
      { destruct k as [|k]; [apply ltb_irrefl|].
        apply ltb_asym. cbn [nth].
        apply (strictly_increasing_head b t k Hinc). simpl in Hi. lia. }
      set (x := nth k (b :: t) 0) in *.
      change (Ref.cell_index (a :: b :: t) x)
        with (if x <? b then 0%nat else S (Ref.cell_index (b :: t) x)).
      rewrite Hx. f_equal. apply IH; [exact Hinc | simpl; lia].
Qed.

Lemma cell_index_lt (xs : list float) (x : float) :
  (0 < List.length xs)%nat -> (Ref.cell_index xs x < List.length xs)%nat.
Proof.
  induction xs as [|a [|b t] IH]; intros H.
  - simpl in H. lia.
  - simpl. lia.
  - cbn [Ref.cell_index]. destruct (x <? b); [simpl; lia|].
    specialize (IH ltac:(simpl; lia)). simpl in IH |- *. lia.
Qed.

Lemma Ref_spline2d_interpolates : spline2d_interpolates Ref.lib.
Proof.
  intros s i j IX IY Hi Hj. cbn [spline2d_value Ref.lib]. unfold Ref.spline2d_value.
  rewrite (cell_index_node _ _ IX Hi), (cell_index_node _ _ IY Hj). reflexivity.
Qed.

Lemma Ref_spline2d_constant_on_lines : spline2d_constant_on_lines Ref.lib.
Proof.
  intros s j c X IX IY LX Hj Hc _ _. cbn [spline2d_value Ref.lib].
  unfold Ref.spline2d_value. rewrite (cell_index_node _ _ IY Hj).
  apply Hc, cell_index_lt, LX.
Qed.

End ReferenceSpline.

(** The tables of the reference local model, and its two surfaces at
    their Y-minimum: at every node in X and at every X within the grid. *)
Lemma boundary_values_tabulated_witness :
  List.length (zval (intJ1 Ref.local)) = List.length (xgrid (intJ1 Ref.local)) /\
  List.length (zval (intJ3 Ref.local)) = List.length (xgrid (intJ3 Ref.local)) /\
  (forall i, (i < List.length (xgrid (intJ1 Ref.local)))%nat ->
     List.length (nth i (zval (intJ1 Ref.local)) []) = npointsY /\
     nth 0 (nth i (zval (intJ1 Ref.local)) []) 0%float = log Ref.lib (2 / 3)%float) /\
  (forall i, (i < List.length (xgrid (intJ3 Ref.local)))%nat ->
     List.length (nth i (zval (intJ3 Ref.local)) []) = npointsY /\
     nth 0 (nth i (zval (intJ3 Ref.local)) []) 0%float = log Ref.lib (2 / 5)%float) /\
  (forall i, (i < List.length (xgrid (intJ1 Ref.local)))%nat ->
     spline2d_value Ref.lib (intJ1 Ref.local)
       (nth i (xgrid (intJ1 Ref.local)) 0%float) (ymin (intJ1 Ref.local))
     = log Ref.lib (2 / 3)%float /\
     spline2d_value Ref.lib (intJ3 Ref.local)
       (nth i (xgrid (intJ3 Ref.local)) 0%float) (ymin (intJ3 Ref.local))
     = log Ref.lib (2 / 5)%float) /\
  (forall X, (xmin (intJ1 Ref.local) <=? X)%float = true ->
             (X <=? xmax (intJ1 Ref.local))%float = true ->
     spline2d_value Ref.lib (intJ1 Ref.local) X (ymin (intJ1 Ref.local))
     = log Ref.lib (2 / 3)%float /\
     spline2d_value Ref.lib (intJ3 Ref.local) X (ymin (intJ3 Ref.local))
     = log Ref.lib (2 / 5)%float).
Proof.
  destruct (boundary_values_tabulated Ref.lib (base Ref.local) Ref.df Ref.gridh
              (intJ1 Ref.local) (intJ3 Ref.local)
              (proj2 (SphericalIsotropicModelLocal_new_inv _ _ _ _ _
                        Ref_local_constructed)))
    as (L1 & L3 & T1 & T3 & _ & HS).
  assert (IX : strictly_increasing (xgrid (intJ1 Ref.local)) = true)
    by (vm_compute; reflexivity).
  assert (IY : strictly_increasing (ygrid (intJ1 Ref.local)) = true)
    by (vm_compute; reflexivity).
  assert (NY : ygrid (intJ1 Ref.local) <> [])
    by (intros E; vm_compute in E; discriminate E).
  destruct (HS IX IY NY) as [Hnodes Hline].
  split; [exact L1|]. split; [exact L3|]. split; [exact T1|]. split; [exact T3|].
  split.
  - exact (Hnodes Ref_spline2d_interpolates).
  - exact (Hline Ref_spline2d_constant_on_lines).
Defined.

(** With the reference interpolator, which returns the table entry of the
    cell, the J1 and J3 surfaces of the reference local model evaluate to
    these constants at their Y-minimum for several X. *)
Example Ref_local_boundary_values :
  map (fun X => spline2d_value Ref.lib (intJ1 Ref.local) X (ymin (intJ1 Ref.local)))
      [-5; -3; 0; 1.5; 4]%float
  = repeat (log Ref.lib (2 / 3)%float) 5 /\
  map (fun X => spline2d_value Ref.lib (intJ3 Ref.local) X (ymin (intJ3 Ref.local)))
      [-5; -3; 0; 1.5; 4]%float
  = repeat (log Ref.lib (2 / 5)%float) 5.
Proof. split; vm_compute; reflexivity. Qed.

(** The cut-off DF vanishes at the last node of the reference grid, which
    [init] drops; on a grid where only two nodes remain [init] throws. *)
Lemma init_trims_grid_witness :
  (xgrid (intJ1 Ref.local_cut)
     = trim_grid Ref.lib Ref.df_cut (make_gridLogH Ref.lib Ref.df_cut Ref.gridh) /\
   xgrid (intJ3 Ref.local_cut)
     = trim_grid Ref.lib Ref.df_cut (make_gridLogH Ref.lib Ref.df_cut Ref.gridh)) /\
  init Ref.lib Ref.model Ref.df_cut [1; 10; 100; 1000]%float
    = Throw local_nowhere_positive.
Proof.
  split.
  - apply (proj2 (proj2 (init_trims_grid Ref.lib (base Ref.local_cut) Ref.df_cut
                           Ref.gridh))).
    exact (proj2 (SphericalIsotropicModelLocal_new_inv _ _ _ _ _
                    Ref_local_cut_constructed)).
  - apply (proj1 (proj2 (init_trims_grid Ref.lib Ref.model Ref.df_cut
                           [1; 10; 100; 1000]%float))).
    match goal with
    | |- (List.length ?l < 3)%nat =>
        replace (List.length l) with 2%nat by (vm_compute; reflexivity)
    end.
    lia.
Defined.

(** The grid in X of that local model has four of the five supplied nodes
    and ends below the last of them. *)
Example cut_df_grid_is_shorter :
  List.length (xgrid (intJ1 Ref.local_cut)) = 4%nat /\
  List.length (make_gridLogH Ref.lib Ref.df_cut Ref.gridh) = 5%nat /\
  (xmax (intJ1 Ref.local_cut) <? last (make_gridLogH Ref.lib Ref.df_cut Ref.gridh) 0)%float
  = true.
Proof.
  split; [vm_compute; reflexivity|].
  split; vm_compute; reflexivity.
Qed.

(* ================================================================= *)
(** ** [computeDensity]: the test on the grid in Phi *)

Section ComputeDensityProperties.

Variable M : MathLib.
Variable df : IFunction.
Variable pv : PhaseVolume.
Variable wantVelDisp : bool.

Local Open Scope float_scope.

(** With NDEBUG the inner loops always run to their end. *)
Lemma computeDensity_j_release (gridPhi : list float) (Phi weight : float) (n : nat)
    (gp res vd : list float) :
  exists r, computeDensity_j true wantVelDisp Phi weight n gp res vd = Ok r.
Proof.
  revert gp res vd. induction n as [|n IH]; intros gp res vd; simpl.
  - eauto.
  - destruct gp as [|p gp]; [eauto|]. destruct res as [|r res]; [eauto|].
    destruct vd as [|v vd]; [eauto|].
    destruct (IH gp res vd) as [[res' vd'] ->]. cbn [bind]. eauto.
Qed.

Lemma computeDensity_k_release (gridPhi : list float) (i : nat) (Phi_i deltaPhi : float)
    (ks : list nat) (res vd : list float) :
  exists r,
    computeDensity_k M true df pv gridPhi wantVelDisp i Phi_i deltaPhi ks res vd = Ok r.
Proof.
  revert res vd. induction ks as [|k ks IH]; intros res vd; cbn [computeDensity_k].
  - eauto.
  - match goal with
    | |- context [computeDensity_j true wantVelDisp ?P ?w ?n ?gp res vd] =>
        destruct (computeDensity_j_release gridPhi P w n gp res vd) as [[res' vd'] ->]
    end.
    cbn [bind]. apply IH.
Qed.

(** The inner loops never throw; they can only fail an assertion. *)
Lemma computeDensity_j_no_throw (ndebug : bool) (Phi weight : float) (n : nat)
    (gp res vd : list float) (e : exception) :
  computeDensity_j ndebug wantVelDisp Phi weight n gp res vd <> Throw e.
Proof.
  revert gp res vd. induction n as [|n IH]; intros gp res vd; simpl.
  - discriminate.
  - destruct gp as [|p gp]; [discriminate|]. destruct res as [|r res]; [discriminate|].
    destruct vd as [|v vd]; [discriminate|].
    destruct (negb ndebug && negb (0 <=? Phi - p)); [discriminate|].
    specialize (IH gp res vd).
    destruct (computeDensity_j ndebug wantVelDisp Phi weight n gp res vd)
      as [[res' vd']| |]; cbn [bind]; congruence.
Qed.

Lemma computeDensity_k_no_throw (ndebug : bool) (gridPhi : list float) (i : nat)
    (Phi_i deltaPhi : float) (ks : list nat) (res vd : list float) (e : exception) :
  computeDensity_k M ndebug df pv gridPhi wantVelDisp i Phi_i deltaPhi ks res vd
  <> Throw e.
Proof.
  revert res vd. induction ks as [|k ks IH]; intros res vd; cbn [computeDensity_k].
  - discriminate.
  - match goal with
    | |- context [computeDensity_j ndebug wantVelDisp ?P ?w ?n ?gp res vd] =>
        pose proof (computeDensity_j_no_throw ndebug P w n gp res vd e) as Hj;
        destruct (computeDensity_j ndebug wantVelDisp P w n gp res vd)
          as [[res' vd']| |]; cbn [bind]; try congruence
    end.
    all: apply IH.
Qed.

(** The loop over [i] throws nothing but the exception of the test on
    [deltaPhi]. *)
Lemma computeDensity_i_throws_only (ndebug : bool) (gridPhi rest : list float) (i : nat)
    (res vd : list float) (e : exception) :
  computeDensity_i M ndebug df pv gridPhi wantVelDisp i rest res vd = Throw e ->
  e = computeDensity_error.
Proof.
  revert i res vd. induction rest as [|p rest IH]; intros i res vd;
    cbn [computeDensity_i deltas existsb].
  - discriminate.
  - match goal with |- context [if ?d <=? 0 then _ else _] => destruct (d <=? 0) end.
    + intros H. inversion H. reflexivity.
    + match goal with
      | |- context [computeDensity_k M ndebug df pv gridPhi wantVelDisp i p ?d ?ks res vd] =>
          pose proof (computeDensity_k_no_throw ndebug gridPhi i p d ks res vd e) as Hk;
          destruct (computeDensity_k M ndebug df pv gridPhi wantVelDisp i p d ks res vd)
            as [[res' vd']| |]; cbn [bind]; try congruence
      end.
      all: apply IH.
Qed.

(** A segment with [deltaPhi <= 0] ahead: the loop over [i] does not
    return, and with NDEBUG it throws. *)
Lemma computeDensity_i_bad_segment (ndebug : bool) (gridPhi rest : list float) (i : nat)
    (res vd : list float) :
  existsb (fun d => d <=? 0) (deltas rest) = true ->
  (forall r, computeDensity_i M ndebug df pv gridPhi wantVelDisp i rest res vd <> Ok r) /\
  computeDensity_i M true df pv gridPhi wantVelDisp i rest res vd
  = Throw computeDensity_error.
Proof.
  revert i res vd. induction rest as [|p rest IH]; intros i res vd;
    cbn [computeDensity_i deltas existsb].
  - discriminate.
  - match goal with |- context [if ?d <=? 0 then _ else _] => destruct (d <=? 0) end;
      cbn [orb]; intros H.
    + split; [discriminate | reflexivity].
    + split.
      * match goal with
        | |- context [computeDensity_k M ndebug df pv gridPhi wantVelDisp i p ?d ?ks res vd] =>
            destruct (computeDensity_k M ndebug df pv gridPhi wantVelDisp i p d ks res vd)
              as [[res' vd']| |]; cbn [bind]; try discriminate
        end.
        apply (IH (S i) res' vd' H).
      * match goal with
        | |- context [computeDensity_k M true df pv gridPhi wantVelDisp i p ?d ?ks res vd] =>
            destruct (computeDensity_k_release gridPhi i p d ks res vd) as [[res' vd'] ->]
        end.
        cbn [bind]. apply (IH (S i) res' vd' H).
Qed.

(** A loop over [i] that returns met no [deltaPhi <= 0]. *)
Lemma computeDensity_i_ok (ndebug : bool) (gridPhi rest : list float) (i : nat)
    (res vd : list float) (r : list float * list float) :
  computeDensity_i M ndebug df pv gridPhi wantVelDisp i rest res vd = Ok r ->
  existsb (fun d => d <=? 0) (deltas rest) = false.
Proof.
  intros H. destruct (existsb (fun d => d <=? 0) (deltas rest)) eqn:E; [|reflexivity].
  exfalso.
  apply (proj1 (computeDensity_i_bad_segment ndebug gridPhi rest i res vd E) r H).
Qed.

Lemma strictly_increasing_cons (a b : float) (t : list float) :
  strictly_increasing (a :: b :: t) = (a <? b) && strictly_increasing (b :: t).
Proof. reflexivity. Qed.

Lemma deltas_cons (a b : float) (t : list float) :
  deltas (a :: b :: t) = (b - a) :: deltas (b :: t).
Proof. reflexivity. Qed.

Lemma nonmonotonic_bad_segment (gridPhi : list float) :
  Forall (fun x => is_finite x = true) gridPhi ->
  strictly_increasing gridPhi = false ->
  existsb (fun d => d <=? 0) (deltas gridPhi) = true.
Proof.
  induction gridPhi as [|a [|b t] IH]; intros HF H; try discriminate H.
  inversion HF as [|? ? Fa HF']; subst. inversion HF' as [|? ? Fb _]; subst.
  rewrite strictly_increasing_cons in H. rewrite deltas_cons. cbn [existsb].
  destruct (a <? b) eqn:Hab.
  - cbn [andb] in H. rewrite (IH HF' H). apply orb_true_r.
  - rewrite (sub_finite_not_lt a b Fa Fb Hab). reflexivity.
Qed.

Lemma nonnegative_last_bad_segment (gridPhi : list float) :
  gridPhi <> [] -> (0 <=? last gridPhi 0) = true ->
  existsb (fun d => d <=? 0) (deltas gridPhi) = true.
Proof.
  induction gridPhi as [|a [|b t] IH]; intros Hne H; try congruence.
  - cbn [last] in H. cbn [deltas existsb].
    rewrite (sub_zero_nonneg a H). reflexivity.
  - rewrite deltas_cons. cbn [existsb].
    rewrite IH; [apply orb_true_r | discriminate | exact H].
Qed.

Lemma positive_deltas_negative_grid (gridPhi : list float) :
  Forall (fun x => is_nan x = false) gridPhi ->
  existsb (fun d => d <=? 0) (deltas gridPhi) = false ->
  Forall (fun x => (x <? 0) = true) gridPhi.
Proof.
  induction gridPhi as [|a [|b t] IH]; intros HN H.
  - constructor.
  - inversion HN as [|? ? Na _]; subst. cbn [deltas existsb] in H.
    apply orb_false_iff in H. destruct H as [H _].
    constructor; [|constructor].
    destruct (a <? 0) eqn:Ha; [reflexivity|].
    rewrite (sub_zero_nonneg a (not_lt_zero_nonneg a Na Ha)) in H. discriminate H.
  - inversion HN as [|? ? Na HN']; subst.
    rewrite deltas_cons in H. cbn [existsb] in H.
    apply orb_false_iff in H. destruct H as [H Ht].
    specialize (IH HN' Ht). constructor; [|exact IH].
    inversion IH as [|? ? Hb _]; subst.
    destruct (a <? 0) eqn:Ha; [reflexivity|].
    rewrite (sub_neg_nonneg b a Hb Na Ha) in H. discriminate H.
Qed.

(** What the loop over [i] does decides what [computeDensity] does. *)
Lemma computeDensity_bad_segment (ndebug : bool) (gridPhi : list float) :
  existsb (fun d => d <=? 0) (deltas gridPhi) = true ->
  (forall r, computeDensity M ndebug df pv gridPhi wantVelDisp <> Ok r) /\
  computeDensity M true df pv gridPhi wantVelDisp = Throw computeDensity_error /\
  (forall e, computeDensity M ndebug df pv gridPhi wantVelDisp = Throw e ->
             e = computeDensity_error).
Proof.
  intros H. unfold computeDensity.
  destruct (computeDensity_i_bad_segment ndebug gridPhi gridPhi 0
              (zeros (List.length gridPhi)) (zeros (List.length gridPhi)) H)
    as [Hno Hrel].
  split; [|split].
  - intros r.
    destruct (computeDensity_i M ndebug df pv gridPhi wantVelDisp 0 gridPhi
                (zeros (List.length gridPhi)) (zeros (List.length gridPhi)))
      as [[res vd]| |] eqn:E; cbn [bind]; try discriminate.
    exfalso. exact (Hno _ eq_refl).
  - rewrite Hrel. reflexivity.
  - intros e.
    destruct (computeDensity_i M ndebug df pv gridPhi wantVelDisp 0 gridPhi
                (zeros (List.length gridPhi)) (zeros (List.length gridPhi)))
      as [[res vd]| |] eqn:E; cbn [bind]; try discriminate.
    intros He. inversion He; subst.
    apply (computeDensity_i_throws_only _ _ _ _ _ _ _ E).
Qed.

(** Without NDEBUG the loop over [j] runs to its end when [Phi] is not
    below the nodes it visits. *)
Lemma computeDensity_j_debug (Phi weight : float) (n : nat) (gp res vd : list float) :
  Forall (fun q => (0 <=? Phi - q) = true) (firstn n gp) ->
  exists r, computeDensity_j false wantVelDisp Phi weight n gp res vd = Ok r.
Proof.
  revert gp res vd. induction n as [|n IH]; intros gp res vd H; simpl.
  - eauto.
  - destruct gp as [|p gp]; [eauto|]. destruct res as [|r res]; [eauto|].
    destruct vd as [|v vd]; [eauto|].
    cbn [firstn] in H. inversion H as [|? ? Hp Ht]; subst.
    rewrite Hp. cbn [negb andb].
    destruct (IH gp res vd Ht) as [[res' vd'] ->]. cbn [bind]. eauto.
Qed.

Lemma computeDensity_k_debug (gridPhi : list float) (i : nat) (Phi_i deltaPhi : float)
    (ks : list nat) (res vd : list float) :
  is_finite Phi_i = true -> (0 <? deltaPhi) = true ->
  Forall (fun q => is_finite q = true /\ (q <=? Phi_i) = true) (firstn (S i) gridPhi) ->
  forallb (fun k => 0 <? GLPOINTS M GLORDER k * GLPOINTS M GLORDER k) ks = true ->
  exists r,
    computeDensity_k M false df pv gridPhi wantVelDisp i Phi_i deltaPhi ks res vd = Ok r.
Proof.
  intros Fi Hd Hpre. revert res vd.
  induction ks as [|k ks IH]; intros res vd Hks; cbn [computeDensity_k].
  - eauto.
  - cbn [forallb] in Hks. apply andb_true_iff in Hks. destruct Hks as [Hk Hks].
    set (y := GLPOINTS M GLORDER k) in *.
    assert (HPhi : (Phi_i <=? Phi_i + y * y * deltaPhi) = true)
      by (apply add_nonneg_le; [exact Fi | apply mul_pos_sign; assumption]).
    match goal with
    | |- context [computeDensity_j false wantVelDisp ?P ?w ?n ?gp res vd] =>
        destruct (computeDensity_j_debug P w n gp res vd) as [[res' vd'] ->]
    end.
    + eapply Forall_impl; [|exact Hpre]. intros q [Fq Hq]. cbv beta.
      apply sub_le_nonneg; [exact Fq|]. eapply leb_trans; [exact Hq | exact HPhi].
    + cbn [bind]. apply IH, Hks.
Qed.

(** Without NDEBUG, on a grid of finite values, the loop over [i] reaches
    the first segment with [deltaPhi <= 0] and throws there. *)
Lemma computeDensity_i_debug (gridPhi pre rest : list float) (res vd : list float) :
  GL_squares_positive M = true ->
  gridPhi = pre ++ rest -> Forall (fun x => is_finite x = true) gridPhi ->
  match rest with
  | [] => True
  | p :: _ => Forall (fun q => (q <=? p) = true) pre
  end ->
  existsb (fun d => d <=? 0) (deltas rest) = true ->
  computeDensity_i M false df pv gridPhi wantVelDisp (List.length pre) rest res vd
  = Throw computeDensity_error.
Proof.
  intros HM. revert pre res vd.
  induction rest as [|p rest IH]; intros pre res vd Hg HF Hpre Hbad;
    cbn [computeDensity_i deltas existsb] in *.
  - discriminate.
  - assert (Fp : is_finite p = true).
    { rewrite Hg in HF. apply Forall_app in HF. destruct HF as [_ HF].
      inversion HF; assumption. }
    assert (Fpre : Forall (fun x => is_finite x = true) pre).
    { rewrite Hg in HF. apply Forall_app in HF. apply HF. }
    set (b := match rest with [] => 0 | next :: _ => next end) in *.
    assert (Fb : is_finite b = true).
    { unfold b. destruct rest as [|next rest']; [reflexivity|].
      rewrite Hg in HF. apply Forall_app in HF. destruct HF as [_ HF].
      inversion HF as [|? ? _ HF']; subst. inversion HF'; assumption. }
    destruct (b - p <=? 0) eqn:Hd; [reflexivity|].
    cbn [orb] in Hbad.
    destruct (sub_finite_pos p b Fp Fb Hd) as [Hpos Hlt].
    match goal with
    | |- context [computeDensity_k M false df pv gridPhi wantVelDisp ?i p ?d ?ks res vd] =>
        destruct (computeDensity_k_debug gridPhi i p d ks res vd Fp Hpos)
          as [[res' vd'] ->]
    end.
    + rewrite Hg. rewrite firstn_app, Nat.sub_succ_l, Nat.sub_diag by lia.
      rewrite firstn_all2 by lia. cbn [firstn]. apply Forall_app. split.
      * clear -Hpre Fpre. induction pre as [|q pre IHp]; constructor.
        -- inversion Hpre; inversion Fpre; subst. auto.
        -- inversion Hpre; inversion Fpre; subst. auto.
      * constructor; [|constructor]. split; [exact Fp | apply leb_refl_finite, Fp].
    + exact HM.
    + cbn [bind].
      replace (S (List.length pre)) with (List.length (pre ++ [p]))
        by (rewrite length_app; simpl; lia).
      apply IH; [rewrite <- app_assoc; exact Hg | exact HF | | exact Hbad].
      destruct rest as [|next rest']; [exact I|].
      apply Forall_app. split.
      * eapply Forall_impl; [|exact Hpre]. intros q Hq. cbv beta.
        eapply leb_trans; [exact Hq | apply ltb_leb, Hlt].
      * constructor; [apply ltb_leb, Hlt | constructor].
Qed.

Lemma computeDensity_debug_bad_segment (gridPhi : list float) :
  GL_squares_positive M = true ->
  Forall (fun x => is_finite x = true) gridPhi ->
  existsb (fun d => d <=? 0) (deltas gridPhi) = true ->
  computeDensity M false df pv gridPhi wantVelDisp = Throw computeDensity_error.
Proof.
  intros HM HF Hbad. unfold computeDensity.
  rewrite (computeDensity_i_debug gridPhi [] gridPhi _ _ HM eq_refl HF); try assumption.
  - reflexivity.
  - destruct gridPhi; [exact I | constructor].
Qed.

(** What the code does of C8: when the grid of finite potential values is
    not strictly increasing, [computeDensity] returns no density vector:
    it throws the runtime error "grid in Phi must be monotonically
    increasing", with NDEBUG always, and without NDEBUG when the squares
    of the quadrature nodes are positive numbers, so that no assertion
    fails on the way to the offending segment; in any case that is the
    only exception it can throw. *)
Theorem computeDensity_rejects_nonmonotonic (ndebug : bool) (gridPhi : list float) :
  Forall (fun x => is_finite x = true) gridPhi ->
  strictly_increasing gridPhi = false ->
  (forall r, computeDensity M ndebug df pv gridPhi wantVelDisp <> Ok r) /\
  (ndebug = true \/ GL_squares_positive M = true ->
   computeDensity M ndebug df pv gridPhi wantVelDisp = Throw computeDensity_error) /\
  (forall e, computeDensity M ndebug df pv gridPhi wantVelDisp = Throw e ->
             e = computeDensity_error).
Proof.
  intros HF H.
  pose proof (nonmonotonic_bad_segment gridPhi HF H) as Hbad.
  destruct (computeDensity_bad_segment ndebug gridPhi Hbad) as (Hno & Hrel & Honly).
  split; [exact Hno|]. split; [|exact Honly].
  intros [->|HM]; [exact Hrel|].
  destruct ndebug; [exact Hrel|].
  apply computeDensity_debug_bad_segment; assumption.
Qed.

(** What the code does of C9: a grid whose last node is >= 0 is rejected
    like a non-monotonic one (the last segment runs from that node to 0):
    [computeDensity] throws with NDEBUG, and also without NDEBUG on a grid
    of finite values when the squares of the quadrature nodes are
    positive; and every grid of numbers for which [computeDensity] returns
    has only strictly negative nodes. *)
Theorem computeDensity_accepts_only_negative (ndebug : bool) (gridPhi : list float) :
  (gridPhi <> [] -> (0 <=? last gridPhi 0) = true ->
   (forall r, computeDensity M ndebug df pv gridPhi wantVelDisp <> Ok r) /\
   (ndebug = true \/
    (GL_squares_positive M = true /\ Forall (fun x => is_finite x = true) gridPhi) ->
    computeDensity M ndebug df pv gridPhi wantVelDisp = Throw computeDensity_error) /\
   (forall e, computeDensity M ndebug df pv gridPhi wantVelDisp = Throw e ->
              e = computeDensity_error))
  /\
  (Forall (fun x => is_nan x = false) gridPhi ->
   forall r, computeDensity M ndebug df pv gridPhi wantVelDisp = Ok r ->
             Forall (fun x => (x <? 0) = true) gridPhi).
Proof.
  split.
  - intros Hne H.
    pose proof (nonnegative_last_bad_segment gridPhi Hne H) as Hbad.
    destruct (computeDensity_bad_segment ndebug gridPhi Hbad) as (Hno & Hrel & Honly).
    split; [exact Hno|]. split; [|exact Honly].
    intros [->|[HM HF]]; [exact Hrel|].
    destruct ndebug; [exact Hrel|].
    apply computeDensity_debug_bad_segment; assumption.
  - intros HN r H. apply positive_deltas_negative_grid; [exact HN|].
    unfold computeDensity in H.
    destruct (computeDensity_i M ndebug df pv gridPhi wantVelDisp 0 gridPhi
                (zeros (List.length gridPhi)) (zeros (List.length gridPhi)))
      as [[res vd]| |] eqn:E; cbn [bind] in H; try discriminate H.
    apply (computeDensity_i_ok _ _ _ _ _ _ _ E).
Qed.

End ComputeDensityProperties.

(** The grid [-10, -10, -5] is rejected at its first segment, whatever the
    library, the DF and the build. *)
Example computeDensity_literal_grid (M : MathLib) (ndebug : bool) (df : IFunction)
    (pv : PhaseVolume) (wantVelDisp : bool) :
  computeDensity M ndebug df pv [-10; -10; -5]%float wantVelDisp
  = Throw computeDensity_error.
Proof. reflexivity. Qed.

(** Without NDEBUG the grid [-10, -5, -5] passes its first segment, with
    every assertion holding, and is rejected at the second. *)
Lemma computeDensity_rejects_nonmonotonic_witness :
  (forall r, computeDensity Ref.lib false Ref.df Ref.pvol [-10; -5; -5]%float true
             <> Ok r) /\
  computeDensity Ref.lib false Ref.df Ref.pvol [-10; -5; -5]%float true
  = Throw computeDensity_error /\
  (forall e, computeDensity Ref.lib false Ref.df Ref.pvol [-10; -5; -5]%float true
             = Throw e -> e = computeDensity_error).
Proof.
  destruct (computeDensity_rejects_nonmonotonic Ref.lib Ref.df Ref.pvol true false
              [-10; -5; -5]%float) as (Hno & Hthrow & Honly).
  - repeat (constructor; [vm_compute; reflexivity|]). constructor.
  - vm_compute. reflexivity.
  - split; [exact Hno|]. split; [|exact Honly].
    apply Hthrow. right. vm_compute. reflexivity.
Defined.

(** The strictly increasing grid [-2, -1, 0] is rejected, without NDEBUG
    too, and the grid [-10, -7, -5], for which [computeDensity] returns,
    is negative. *)
Lemma computeDensity_accepts_only_negative_witness :
  computeDensity Ref.lib false Ref.df Ref.pvol [-2; -1; 0]%float true
  = Throw computeDensity_error /\
  Forall (fun x => (x <? 0)%float = true) [-10; -7; -5]%float.
Proof.
  split.
  - destruct (proj1 (computeDensity_accepts_only_negative Ref.lib Ref.df Ref.pvol true
                       false [-2; -1; 0]%float)) as (_ & Hthrow & _).
    + discriminate.
    + vm_compute. reflexivity.
    + apply Hthrow. right. split.
      * vm_compute. reflexivity.
      * repeat (constructor; [vm_compute; reflexivity|]). constructor.
  - eapply (proj2 (computeDensity_accepts_only_negative Ref.lib Ref.df Ref.pvol true
                     false [-10; -7; -5]%float)).
    + repeat (constructor; [vm_compute; reflexivity|]). constructor.
    + vm_compute. reflexivity.
Defined.

(** With the reference library the grid [-2, -1, 0] also throws in a build
    with assertions. *)
Example computeDensity_zero_last_node :
  strictly_increasing [-2; -1; 0]%float = true /\
  computeDensity Ref.lib false Ref.df Ref.pvol [-2; -1; 0]%float true
  = Throw computeDensity_error.
Proof. split; vm_compute; reflexivity. Qed.

(** Without NDEBUG the nodes of the quadrature matter: with a table that
    holds NaN the assertion on [dif] fails on the first segment of the
    grid [-10, -5, -5], before the offending segment is met. *)
Example computeDensity_debug_needs_nodes :
  GL_squares_positive (with_GLPOINTS Ref.lib (fun _ _ => nan)) = false /\
  computeDensity (with_GLPOINTS Ref.lib (fun _ _ => nan)) false Ref.df Ref.pvol
    [-10; -5; -5]%float true
  = Fault AssertionFailed.
Proof. split; vm_compute; reflexivity. Qed.

(** The hypotheses on the grid values are needed with NDEBUG: a grid that
    repeats minus infinity, or holds a NaN, passes every test on
    [deltaPhi], which is then NaN. *)
Example computeDensity_release_special_values :
  is_ok (computeDensity Ref.lib true Ref.df Ref.pvol
           [neg_infinity; neg_infinity; -5]%float true) = true /\
  is_ok (computeDensity Ref.lib true Ref.df Ref.pvol [nan]%float true) = true /\
  computeDensity Ref.lib false Ref.df Ref.pvol [nan]%float true
  = Fault AssertionFailed.
Proof.
  split; [vm_compute; reflexivity|].
  split; vm_compute; reflexivity.
Qed.

(* ================================================================= *)
(** ** Exact products and finiteness of binary64 operations *)

Section ExactProducts.

(** Rounding a canonical mantissa shifted left by [k] digits gives the
    number back. *)
Lemma binary_round_aux_exact (s : bool) (mx : positive) (ex k : Z) :
  bounded prec emax mx ex = true -> (0 <= k)%Z ->
  binary_round_aux prec emax s (Z.pos mx * 2 ^ k) (ex - k) loc_Exact
  = S754_finite s mx ex.
Proof.
  intros B Hk.
  assert (Hcan : fexp prec emax (Z.pos (digits2_pos mx) + ex) = ex).
  { unfold bounded in B. apply andb_true_iff in B. destruct B as [B _].
    unfold canonical_mantissa in B. apply Z.eqb_eq in B. exact B. }
  assert (Hmax : (ex <= emax - prec)%Z).
  { unfold bounded in B. apply andb_true_iff in B. destruct B as [_ B].
    apply Z.leb_le in B. exact B. }
  assert (P : (0 < 2 ^ k)%Z) by (apply Z.pow_pos_nonneg; lia).
  assert (Hd : Zdigits2 (Z.pos mx * 2 ^ k) = (Z.pos (digits2_pos mx) + k)%Z).
  { destruct k as [|p|p]; try lia.
    - rewrite Z.mul_1_r, Z.add_0_r. reflexivity.
    - rewrite <- iter_xO_pow2. cbn [Zdigits2]. apply digits2_pos_iter_xO. }
  unfold binary_round_aux.
  destruct (shr_fexp_exact (Z.pos mx * 2 ^ k) (ex - k) ltac:(lia)) as (Hs1 & Hm1 & Hx1).
  cbv zeta in Hs1, Hm1, Hx1. rewrite Hd in Hs1, Hm1, Hx1.
  replace (Z.pos (digits2_pos mx) + k + (ex - k))%Z
    with (Z.pos (digits2_pos mx) + ex)%Z in Hs1, Hm1, Hx1 by lia.
  rewrite Hcan in Hs1, Hm1, Hx1.
  replace (Z.max (ex - (ex - k)) 0) with k in Hs1, Hm1, Hx1 by lia.
  rewrite Z.div_mul in Hm1 by lia. rewrite Z.mod_mul in Hx1 by lia.
  specialize (Hx1 eq_refl).
  destruct (shr_fexp prec emax (Z.pos mx * 2 ^ k) (ex - k) loc_Exact) as [mrs' e'].
  cbn [fst snd] in Hs1, Hm1, Hx1. rewrite Hx1, Hm1. cbn [round_nearest_even].
  replace e' with ex by lia.
  destruct (shr_fexp_exact (Z.pos mx) ex ltac:(lia)) as (Hs2 & Hm2 & _).
  cbv zeta in Hs2, Hm2. cbn [Zdigits2] in Hs2, Hm2. rewrite Hcan in Hs2, Hm2.
  replace (Z.max (ex - ex) 0) with 0%Z in Hs2, Hm2 by lia.
  change (2 ^ 0)%Z with 1%Z in Hm2. rewrite Z.div_1_r in Hm2. rewrite Z.add_0_r in Hs2.
  destruct (shr_fexp prec emax (Z.pos mx) ex loc_Exact) as [mrs'' e''].
  cbn [fst snd] in Hs2, Hm2. rewrite Hm2, Hs2.
  replace (ex <=? emax - prec)%Z with true by (symmetry; apply Z.leb_le; exact Hmax).
  reflexivity.
Qed.

(** Multiplication by 1 is exact. *)
Lemma SFmul_one (x : spec_float) :
  valid_binary x = true -> SF64mul x (Prim2SF 1) = x.
Proof.
  intros V. change (Prim2SF 1) with (S754_finite false 4503599627370496 (-52)).
  destruct x as [s|s| |s m e]; unfold SF64mul, SFmul; try reflexivity.
  - rewrite xorb_false_r. reflexivity.
  - rewrite xorb_false_r. reflexivity.
  - rewrite xorb_false_r. simpl in V.
    change (Z.pos (m * 4503599627370496)) with (Z.pos m * 2 ^ 52)%Z.
    change (e + -52)%Z with (e - 52)%Z.
    apply binary_round_aux_exact; [exact V | lia].
Qed.

Lemma SFmul_finite_not_nan (x y : spec_float) :
  SF_is_finite x -> SF_is_finite y -> SF64mul x y <> S754_nan.
Proof.
  intros Fx Fy.
  destruct x as [sx|sx| |sx mx ex]; try contradiction;
    destruct y as [sy|sy| |sy my ey]; try contradiction;
    unfold SF64mul, SFmul; try discriminate.
  pose proof (binary_round_aux_sign (xorb sx sy) (Z.pos (mx * my)) (ex + ey) loc_Exact
                ltac:(lia)) as H.
  intros E. rewrite E in H. exact H.
Qed.

(** A finite sum has finite terms. *)
Lemma SFadd_finite_inv (x y : spec_float) :
  SF_is_finite (SF64add x y) -> SF_is_finite x /\ SF_is_finite y.
Proof.
  destruct x as [sx|sx| |sx mx ex], y as [sy|sy| |sy my ey];
    unfold SF64add, SFadd; simpl; try tauto;
    destruct sx, sy; simpl; tauto.
Qed.

End ExactProducts.

Section FiniteFloats.

Local Open Scope float_scope.

Lemma SF_is_finite_is_finite (x : float) :
  SF_is_finite (Prim2SF x) -> is_finite x = true.
Proof.
  unfold is_finite, is_nan, is_infinity. rewrite !eqb_spec, abs_spec.
  change (Prim2SF infinity) with (S754_infinity false).
  destruct (Prim2SF x) as [s|s| |s m e]; simpl; try contradiction; intros _.
  - reflexivity.
  - unfold SFeqb. rewrite SFcompare_refl by exact I. destruct s; reflexivity.
Qed.

Lemma is_nan_false_Prim2SF (x : float) : Prim2SF x <> S754_nan -> is_nan x = false.
Proof.
  unfold is_nan. rewrite eqb_spec.
  destruct (Prim2SF x) as [s|s| |s m e]; try congruence; intros _.
  - reflexivity.
  - destruct s; reflexivity.
  - unfold SFeqb. rewrite SFcompare_refl by exact I. reflexivity.
Qed.

Lemma mul_one (x : float) : x * 1 = x.
Proof.
  apply Prim2SF_inj. rewrite mul_spec. apply SFmul_one, Prim2SF_valid.
Qed.

Lemma mul_finite_not_nan (a b : float) :
  is_finite a = true -> is_finite b = true -> is_nan (a * b) = false.
Proof.
  intros Fa Fb. apply is_nan_false_Prim2SF. rewrite mul_spec.
  apply SFmul_finite_not_nan; apply finite_SF_is_finite; assumption.
Qed.

Lemma add_finite_inv (a b : float) :
  is_finite (a + b) = true -> is_finite a = true /\ is_finite b = true.
Proof.
  intros H. apply finite_SF_is_finite in H. rewrite add_spec in H.
  apply SFadd_finite_inv in H. destruct H as [Ha Hb].
  split; apply SF_is_finite_is_finite; assumption.
Qed.

End FiniteFloats.

(** ** Signs of products, quotients and square roots *)

Section SignFacts.

Lemma has_sign_false_nonneg (x : spec_float) : has_sign false x -> SFleb SFzero x = true.
Proof. apply has_sign_false_zero_le. Qed.

Lemma SFdiv_core_nonneg (m1 m2 : positive) (e1 e2 : Z) :
  (0 <= fst (fst (SFdiv_core_binary prec emax (Z.pos m1) e1 (Z.pos m2) e2)))%Z.
Proof.
  unfold SFdiv_core_binary.
  match goal with
  | |- context [Z.div_eucl ?a ?b] =>
      pose proof (Z.div_eucl_eq a b ltac:(lia)) as Heq;
      pose proof (Z.mod_pos_bound a b ltac:(lia)) as Hmod;
      assert (Ha : (0 <= a)%Z);
      [ | unfold Z.modulo in Hmod; destruct (Z.div_eucl a b) as [q r]; cbn [fst]; nia ]
  end.
  match goal with
  | |- (0 <= match ?s with _ => _ end)%Z => destruct s; try lia
  end.
  rewrite Z.shiftl_mul_pow2 by lia. apply Z.mul_nonneg_nonneg; [lia|].
  apply Z.pow_nonneg. lia.
Qed.

Lemma SFsigned_false_iff (x : spec_float) : SFsigned false x <-> SFleb SFzero x = true.
Proof.
  destruct x as [s|s| |s m e]; simpl; unfold SFleb; simpl; try destruct s;
    split; intros H; try exact I; try reflexivity; try discriminate; try contradiction.
Qed.

Lemma SFsigned_true_iff (x : spec_float) : SFsigned true x <-> SFleb x SFzero = true.
Proof.
  destruct x as [s|s| |s m e]; simpl; unfold SFleb; simpl; try destruct s;
    split; intros H; try exact I; try reflexivity; try discriminate; try contradiction.
Qed.

Lemma has_sign_SFsigned (s : bool) (x : spec_float) : has_sign s x -> SFsigned s x.
Proof. destruct x; simpl; auto. Qed.

Lemma SFmul_signed (sx sy : bool) (x y : spec_float) :
  SFsigned sx x -> SFsigned sy y -> SF64mul x y <> S754_nan ->
  SFsigned (xorb sx sy) (SF64mul x y).
Proof.
  intros Hx Hy Hn.
  destruct x as [s1|s1| |s1 m1 e1]; try contradiction;
    destruct y as [s2|s2| |s2 m2 e2]; try contradiction;
    unfold SF64mul, SFmul in *; simpl in Hx, Hy; subst; try exact I;
    try reflexivity; try congruence.
  apply has_sign_SFsigned, binary_round_aux_sign. lia.
Qed.

Lemma SFdiv_signed (sx sy : bool) (x y : spec_float) :
  SFsigned sx x -> SFsigned sy y -> SF64div x y <> S754_nan ->
  SFsigned (xorb sx sy) (SF64div x y) \/
  (exists s, y = S754_zero s /\ exists s', SF64div x y = S754_infinity s').
Proof.
  intros Hx Hy Hn.
  destruct x as [s1|s1| |s1 m1 e1]; try contradiction;
    destruct y as [s2|s2| |s2 m2 e2]; try contradiction;
    unfold SF64div, SFdiv in *; simpl in Hx, Hy; subst;
    try (left; exact I); try (left; reflexivity); try congruence;
    try (right; eexists; split; [reflexivity|]; eexists; reflexivity).
  left.
  pose proof (SFdiv_core_nonneg m1 m2 e1 e2) as H.
  destruct (SFdiv_core_binary prec emax (Z.pos m1) e1 (Z.pos m2) e2) as [[mz ez] lz].
  cbn [fst] in H. apply has_sign_SFsigned, binary_round_aux_sign, H.
Qed.

Lemma SFsqrt_core_nonneg (m : positive) (e : Z) :
  (0 <= fst (fst (SFsqrt_core_binary prec emax (Z.pos m) e)))%Z.
Proof.
  unfold SFsqrt_core_binary.
  match goal with
  | |- context [Z.sqrtrem ?a] =>
      assert (Ha : (0 <= a)%Z);
      [ | pose proof (Z.sqrtrem_spec a Ha) as Hs;
          destruct (Z.sqrtrem a) as [q r]; cbn [fst]; lia ]
  end.
  match goal with
  | |- (0 <= match ?s with _ => _ end)%Z => destruct s; try lia
  end.
  rewrite Z.shiftl_mul_pow2 by lia. apply Z.mul_nonneg_nonneg; [lia|].
  apply Z.pow_nonneg. lia.
Qed.

(** A square root is NaN or not negative. *)
Lemma SFsqrt_signed (x : spec_float) :
  SF64sqrt x <> S754_nan -> SFsigned false (SF64sqrt x).
Proof.
  destruct x as [s|s| |s m e]; unfold SF64sqrt, SFsqrt; try congruence.
  - intros _. exact I.
  - destruct s; [congruence | reflexivity].
  - destruct s; [congruence|]. intros _.
    pose proof (SFsqrt_core_nonneg m e) as H.
    destruct (SFsqrt_core_binary prec emax (Z.pos m) e) as [[mz ez] lz].
    cbn [fst] in H. apply has_sign_SFsigned, binary_round_aux_sign, H.
Qed.

Lemma SFopp_signed (s : bool) (x : spec_float) :
  SFsigned s x -> SFsigned (negb s) (SFopp x).
Proof. destruct x; simpl; auto; intros ->; reflexivity. Qed.

End SignFacts.

Section SignFactsFloat.

Local Open Scope float_scope.

Lemma signed_false_iff (x : float) : signed false x <-> (0 <=? x) = true.
Proof. unfold signed. rewrite leb_spec. apply SFsigned_false_iff. Qed.

Lemma signed_true_iff (x : float) : signed true x <-> (x <=? 0) = true.
Proof. unfold signed. rewrite leb_spec. apply SFsigned_true_iff. Qed.

Lemma signed_not_nan (s : bool) (x : float) : signed s x -> is_nan x = false.
Proof.
  unfold signed. intros H. apply is_nan_false_Prim2SF. intros E. rewrite E in H. exact H.
Qed.

(** A number that is not NaN and not below 0 is a zero or positive. *)
Lemma not_lt_zero_signed (x : float) :
  is_nan x = false -> (x <? 0) = false -> signed false x.
Proof.
  intros Hn H. apply signed_false_iff, not_lt_zero_nonneg; assumption.
Qed.

Lemma mul_signed (sx sy : bool) (x y : float) :
  signed sx x -> signed sy y -> is_nan (x * y) = false -> signed (xorb sx sy) (x * y).
Proof.
  unfold signed. intros Hx Hy Hn. rewrite mul_spec. apply SFmul_signed; try assumption.
  rewrite <- mul_spec. apply is_nan_Prim2SF, Hn.
Qed.

Lemma opp_signed (s : bool) (x : float) : signed s x -> signed (negb s) (- x).
Proof. unfold signed. rewrite opp_spec. apply SFopp_signed. Qed.

Lemma sqrt_signed (x : float) : is_nan (sqrt x) = false -> signed false (sqrt x).
Proof.
  unfold signed. intros Hn. rewrite sqrt_spec. apply SFsqrt_signed.
  rewrite <- sqrt_spec. apply is_nan_Prim2SF, Hn.
Qed.

Lemma is_nan_true_Prim2SF (x : float) : is_nan x = true -> Prim2SF x = S754_nan.
Proof.
  intros H. destruct (Prim2SF x) as [s|s| |s m e] eqn:E; try reflexivity;
    rewrite is_nan_false_Prim2SF in H by (rewrite E; discriminate); discriminate H.
Qed.

(** A square root is never below 0. *)
Lemma sqrt_not_negative (x : float) : (sqrt x <? 0) = false.
Proof.
  destruct (is_nan (sqrt x)) eqn:Hn.
  - rewrite ltb_spec, (is_nan_true_Prim2SF _ Hn). reflexivity.
  - apply leb_true_ltb_false, signed_false_iff, sqrt_signed, Hn.
Qed.

Lemma mul_not_nan_l (x y : float) : is_nan (x * y) = false -> is_nan x = false.
Proof.
  intros H. apply is_nan_false_Prim2SF. apply is_nan_Prim2SF in H.
  rewrite mul_spec in H. intros E. rewrite E in H. apply H. reflexivity.
Qed.

Lemma mul_not_nan_r (x y : float) : is_nan (x * y) = false -> is_nan y = false.
Proof.
  intros H. apply is_nan_false_Prim2SF. apply is_nan_Prim2SF in H.
  rewrite mul_spec in H. intros E. rewrite E in H. apply H.
  destruct (Prim2SF x); reflexivity.
Qed.

End SignFactsFloat.

Section MoreSignFacts.

Local Open Scope float_scope.

Lemma SFmul_finite_inv (x y : spec_float) :
  SF_is_finite (SF64mul x y) -> SF_is_finite x /\ SF_is_finite y.
Proof.
  destruct x as [sx|sx| |sx mx ex], y as [sy|sy| |sy my ey];
    unfold SF64mul, SFmul; simpl; tauto.
Qed.

Lemma SFdiv_finite_inv (x y : spec_float) :
  SF_is_finite (SF64div x y) -> SF_is_finite x /\ y <> S754_nan.
Proof.
  destruct x as [sx|sx| |sx mx ex], y as [sy|sy| |sy my ey];
    unfold SF64div, SFdiv; simpl; try tauto; intros _; split; try exact I; discriminate.
Qed.

Lemma mul_finite_inv (a b : float) :
  is_finite (a * b) = true -> is_finite a = true /\ is_finite b = true.
Proof.
  intros H. apply finite_SF_is_finite in H. rewrite mul_spec in H.
  apply SFmul_finite_inv in H. destruct H as [Ha Hb].
  split; apply SF_is_finite_is_finite; assumption.
Qed.

Lemma finite_not_nan (x : float) : is_finite x = true -> is_nan x = false.
Proof.
  unfold is_finite. intros H. apply negb_true_iff, orb_false_iff in H. apply H.
Qed.

(** A finite quotient of numbers of known signs has the product sign. *)
Lemma div_signed_finite (sx sy : bool) (x y : float) :
  signed sx x -> signed sy y -> is_finite (x / y) = true ->
  signed (xorb sx sy) (x / y).
Proof.
  unfold signed. intros Hx Hy HF.
  pose proof (finite_SF_is_finite _ HF) as HF'. rewrite div_spec in *.
  destruct (SFdiv_signed sx sy _ _ Hx Hy) as [H|(s & _ & s' & Hinf)].
  - intros E. rewrite E in HF'. exact HF'.
  - exact H.
  - rewrite Hinf in HF'. contradiction.
Qed.

Lemma div_finite_inv (x y : float) :
  is_finite (x / y) = true -> is_finite x = true /\ is_nan y = false.
Proof.
  intros H. apply finite_SF_is_finite in H. rewrite div_spec in H.
  apply SFdiv_finite_inv in H. destruct H as [Hx Hy].
  split; [apply SF_is_finite_is_finite, Hx | apply is_nan_false_Prim2SF, Hy].
Qed.

(** [fmax(x, 0)] is a zero or positive, whatever [x]. *)
Lemma fmax_zero_signed (x : float) : signed false (fmax x 0).
Proof.
  unfold fmax. destruct (is_nan x) eqn:Hn; [exact I|].
  change (is_nan 0) with false. cbv iota.
  destruct (x <? 0) eqn:Hlt; [exact I|].
  apply not_lt_zero_signed; assumption.
Qed.

End MoreSignFacts.

(** ** Sums and differences: order and signs *)

Section SumFacts.

Lemma SFadd_comm (x y : spec_float) : SF64add x y = SF64add y x.
Proof.
  destruct x as [sx|sx| |sx mx ex], y as [sy|sy| |sy my ey];
    unfold SF64add, SFadd; try reflexivity;
    try (destruct sx, sy; reflexivity).
  cbv zeta. rewrite (Z.min_comm ey ex).
  change (IntDef.Z.min ex ey) with (Z.min ex ey).
  rewrite Z.add_comm. reflexivity.
Qed.

Lemma cond_Zopp_negb (s : bool) (m : Z) : cond_Zopp (negb s) m = (- cond_Zopp s m)%Z.
Proof. destruct s; simpl; lia. Qed.

Lemma SFsub_as_add (x y : spec_float) : SF64sub x y = SF64add x (SFopp y).
Proof.
  destruct x as [sx|sx| |sx mx ex], y as [sy|sy| |sy my ey];
    unfold SF64sub, SFsub, SF64add, SFadd, SFopp; try reflexivity;
    destruct sx, sy; reflexivity.
Qed.

Lemma SFcompare_opp (x y : spec_float) :
  SFcompare (SFopp x) (SFopp y) = SFcompare y x.
Proof.
  destruct x as [sx|sx| |sx mx ex], y as [sy|sy| |sy my ey]; simpl;
    try reflexivity; try (destruct sx, sy; reflexivity);
    try (destruct sx; reflexivity); try (destruct sy; reflexivity).
  change (Pos.compare_cont Eq) with Pos.compare.
  rewrite (Z.compare_antisym ex ey), (Pos.compare_antisym mx my).
  destruct sx, sy; simpl; try reflexivity;
    destruct (ex ?= ey)%Z; simpl; try reflexivity;
    destruct (mx ?= my)%positive; reflexivity.
Qed.

(** x <= x + t for a finite x and a t that is a zero or positive. *)
Lemma SFadd_signed_le (x t : spec_float) :
  valid_binary x = true -> valid_binary t = true ->
  SF_is_finite x -> SFsigned false t ->
  SFleb x (SF64add x t) = true.
Proof.
  intros Vx Vt Fx Ht.
  destruct t as [st|st| |st mt et]; try contradiction.
  - destruct st; [|apply SFadd_nonneg_le; try assumption; reflexivity].
    destruct x as [sx|sx| |sx mx ex]; try contradiction.
    + destruct sx; reflexivity.
    + unfold SF64add, SFadd, SFleb. rewrite SFcompare_refl by exact I. reflexivity.
  - simpl in Ht. subst. apply SFadd_nonneg_le; try assumption; reflexivity.
  - simpl in Ht. subst. apply SFadd_nonneg_le; try assumption; reflexivity.
Qed.

Lemma valid_binary_opp (x : spec_float) : valid_binary x = true -> valid_binary (SFopp x) = true.
Proof. destruct x; simpl; auto. Qed.

Lemma SF_is_finite_opp (x : spec_float) : SF_is_finite (SFopp x) <-> SF_is_finite x.
Proof. destruct x; simpl; tauto. Qed.

End SumFacts.

Section SumFactsFloat.

Local Open Scope float_scope.

Lemma add_comm (x y : float) : x + y = y + x.
Proof. apply Prim2SF_inj. rewrite !add_spec. apply SFadd_comm. Qed.

Lemma sub_as_add (x y : float) : x - y = x + - y.
Proof. apply Prim2SF_inj. rewrite sub_spec, add_spec, opp_spec. apply SFsub_as_add. Qed.

Lemma is_finite_opp (x : float) : is_finite (- x) = is_finite x.
Proof.
  destruct (is_finite x) eqn:H.
  - apply SF_is_finite_is_finite. rewrite opp_spec. apply SF_is_finite_opp.
    apply finite_SF_is_finite, H.
  - destruct (is_finite (- x)) eqn:H'; [|reflexivity].
    apply finite_SF_is_finite in H'. rewrite opp_spec in H'.
    pose proof (proj1 (SF_is_finite_opp _) H') as H''.
    apply SF_is_finite_is_finite in H''. congruence.
Qed.

Lemma sub_finite_inv (a b : float) :
  is_finite (a - b) = true -> is_finite a = true /\ is_finite b = true.
Proof.
  rewrite sub_as_add. intros H. apply add_finite_inv in H.
  rewrite is_finite_opp in H. exact H.
Qed.

(** x <= x + t when x is finite and t is a zero or positive. *)
Lemma add_signed_le (x t : float) :
  is_finite x = true -> signed false t -> (x <=? x + t) = true.
Proof.
  intros Fx Ht. rewrite leb_spec, add_spec.
  apply SFadd_signed_le; try apply Prim2SF_valid; [apply finite_SF_is_finite, Fx | exact Ht].
Qed.

(** x <= x - c when x is finite and c is a zero or negative. *)
Lemma sub_signed_le (x c : float) :
  is_finite x = true -> signed true c -> (x <=? x - c) = true.
Proof.
  intros Fx Hc. rewrite sub_as_add. apply add_signed_le; [exact Fx|].
  exact (opp_signed true c Hc).
Qed.

(** A finite sum of two numbers that are zero or positive is so. *)
Lemma add_signed (a b : float) :
  signed false a -> signed false b -> is_finite (a + b) = true -> signed false (a + b).
Proof.
  intros Ha Hb HF. destruct (add_finite_inv _ _ HF) as [Fa _].
  apply signed_false_iff. eapply leb_trans.
  - apply signed_false_iff, Ha.
  - apply add_signed_le; assumption.
Qed.

Lemma ltb_opp (x y : float) : (- x <? - y) = (y <? x).
Proof.
  rewrite !ltb_spec, !opp_spec. unfold SFltb. rewrite SFcompare_opp. reflexivity.
Qed.

Lemma leb_opp (x y : float) : (- x <=? - y) = (y <=? x).
Proof.
  rewrite !leb_spec, !opp_spec. unfold SFleb. rewrite SFcompare_opp. reflexivity.
Qed.

Lemma opp_involutive (x : float) : - - x = x.
Proof.
  apply Prim2SF_inj. rewrite !opp_spec. destruct (Prim2SF x) as [s|s| |s m e]; simpl;
    try rewrite negb_involutive; reflexivity.
Qed.

(** 1 + o <= 0 for a slope o < -1. *)
Lemma one_plus_below (o : float) : (o <? -1) = true -> signed true (1 + o).
Proof.
  intros H. destruct (is_finite o) eqn:Fo.
  - apply signed_true_iff.
    replace (1 + o) with (1 - - o) by (rewrite sub_as_add, opp_involutive; reflexivity).
    apply sub_finite_not_lt; [rewrite is_finite_opp; exact Fo | reflexivity|].
    change 1 with (- -1). rewrite ltb_opp.
    apply leb_true_ltb_false, ltb_leb. exact H.
  - unfold signed. rewrite add_spec. rewrite ltb_spec in H.
    change (Prim2SF 1) with (S754_finite false 4503599627370496 (-52)).
    change (Prim2SF (-1)) with (S754_finite true 4503599627370496 (-52)) in H.
    destruct (Prim2SF o) as [s|s| |s m e] eqn:E.
    + exfalso. assert (is_finite o = true)
        by (apply SF_is_finite_is_finite; rewrite E; exact I). congruence.
    + destruct s; [reflexivity | discriminate H].
    + discriminate H.
    + exfalso. assert (is_finite o = true)
        by (apply SF_is_finite_is_finite; rewrite E; exact I). congruence.
Qed.

(** 0 <= 1 + i for a slope i > -1. *)
Lemma one_plus_above (i : float) : (-1 <? i) = true -> signed false (1 + i).
Proof.
  intros H. destruct (is_finite i) eqn:Fi.
  - apply signed_false_iff.
    replace (1 + i) with (1 - - i) by (rewrite sub_as_add, opp_involutive; reflexivity).
    apply sub_le_nonneg; [rewrite is_finite_opp; exact Fi|].
    change 1 with (- -1). rewrite leb_opp. apply ltb_leb. exact H.
  - unfold signed. rewrite add_spec. rewrite ltb_spec in H.
    change (Prim2SF 1) with (S754_finite false 4503599627370496 (-52)).
    change (Prim2SF (-1)) with (S754_finite true 4503599627370496 (-52)) in H.
    destruct (Prim2SF i) as [s|s| |s m e] eqn:E.
    + exfalso. assert (is_finite i = true)
        by (apply SF_is_finite_is_finite; rewrite E; exact I). congruence.
    + destruct s; [discriminate H | reflexivity].
    + discriminate H.
    + exfalso. assert (is_finite i = true)
        by (apply SF_is_finite_is_finite; rewrite E; exact I). congruence.
Qed.

End SumFactsFloat.

(* ================================================================= *)
(** ** Sizes of the vectors returned by the two quadrature routines *)

Section OutputSizes.

Variable M : MathLib.
Variable ndebug : bool.

Local Open Scope float_scope.

Lemma length_zeros (n : nat) : List.length (zeros n) = n.
Proof. apply repeat_length. Qed.

Lemma computeDensity_j_length (wantVelDisp : bool) (Phi weight : float) (n : nat)
    (gp res vd res' vd' : list float) :
  computeDensity_j ndebug wantVelDisp Phi weight n gp res vd = Ok (res', vd') ->
  List.length res' = List.length res /\ List.length vd' = List.length vd.
Proof.
  revert gp res vd res' vd'.
  induction n as [|n IH]; intros gp res vd res' vd' H; simpl in H.
  - inversion H. auto.
  - destruct gp as [|p gp]; [inversion H; auto|].
    destruct res as [|r res]; [inversion H; auto|].
    destruct vd as [|v vd]; [inversion H; auto|].
    destruct (negb ndebug && negb (0 <=? Phi - p)); [discriminate H|].
    destruct (computeDensity_j ndebug wantVelDisp Phi weight n gp res vd)
      as [[res1 vd1]| |] eqn:E; cbn [bind] in H; try discriminate H.
    inversion H; subst. destruct (IH _ _ _ _ _ E) as [L1 L2].
    simpl. rewrite L1, L2. auto.
Qed.

Lemma computeDensity_k_length (df : IFunction) (pv : PhaseVolume)
    (gridPhi : list float) (wantVelDisp : bool) (i : nat) (Phi_i deltaPhi : float)
    (ks : list nat) (res vd res' vd' : list float) :
  computeDensity_k M ndebug df pv gridPhi wantVelDisp i Phi_i deltaPhi ks res vd
  = Ok (res', vd') ->
  List.length res' = List.length res /\ List.length vd' = List.length vd.
Proof.
  revert res vd. induction ks as [|k ks IH]; intros res vd H; cbn [computeDensity_k] in H.
  - inversion H. auto.
  - match type of H with
    | bind ?c _ = _ => destruct c as [[res1 vd1]| |] eqn:E; cbn [bind] in H;
                       try discriminate H
    end.
    destruct (computeDensity_j_length _ _ _ _ _ _ _ _ _ E) as [L1 L2].
    destruct (IH _ _ H) as [L3 L4]. split; congruence.
Qed.

Lemma computeDensity_i_length (df : IFunction) (pv : PhaseVolume)
    (gridPhi : list float) (wantVelDisp : bool) (i : nat) (rest : list float)
    (res vd res' vd' : list float) :
  computeDensity_i M ndebug df pv gridPhi wantVelDisp i rest res vd = Ok (res', vd') ->
  List.length res' = List.length res /\ List.length vd' = List.length vd.
Proof.
  revert i res vd. induction rest as [|p rest IH]; intros i res vd H;
    cbn [computeDensity_i] in H.
  - inversion H. auto.
  - match type of H with
    | (if ?b then _ else _) = _ => destruct b; [discriminate H|]
    end.
    match type of H with
    | bind ?c _ = _ => destruct c as [[res1 vd1]| |] eqn:E; cbn [bind] in H;
                       try discriminate H
    end.
    destruct (computeDensity_k_length _ _ _ _ _ _ _ _ _ _ _ _ E) as [L1 L2].
    destruct (IH _ _ _ H) as [L3 L4]. split; congruence.
Qed.

Lemma length_finish_velDisp (res vd : list float) :
  List.length res = List.length vd ->
  List.length (finish_velDisp res vd) = List.length res.
Proof.
  revert vd. induction res as [|r res IH]; intros [|v vd] H; simpl in *; try lia.
  rewrite IH by lia. reflexivity.
Qed.

Lemma computeDensity_lengths (df : IFunction) (pv : PhaseVolume)
    (gridPhi : list float) (wantVelDisp : bool)
    (result : list float) (gridVelDisp : option (list float)) :
  computeDensity M ndebug df pv gridPhi wantVelDisp = Ok (result, gridVelDisp) ->
  List.length result = List.length gridPhi /\
  match gridVelDisp with
  | Some v => wantVelDisp = true /\ List.length v = List.length gridPhi
  | None => wantVelDisp = false
  end.
Proof.
  unfold computeDensity. intros H.
  match type of H with
  | bind ?c _ = _ => destruct c as [[res vd]| |] eqn:E; cbn [bind] in H;
                     try discriminate H
  end.
  destruct (computeDensity_i_length _ _ _ _ _ _ _ _ _ _ E) as [L1 L2].
  rewrite length_zeros in L1, L2.
  inversion H; subst. split; [exact L1|].
  destruct wantVelDisp; [|reflexivity].
  split; [reflexivity|]. rewrite length_finish_velDisp; congruence.
Qed.

(** X1: when [computeDensity] returns, the density vector has one entry
    per node of [gridPhi], and so has the vector of velocity dispersions,
    which is produced exactly when it is requested. *)
Theorem computeDensity_sizes (df : IFunction) (pv : PhaseVolume)
    (gridPhi : list float) (wantVelDisp : bool)
    (result : list float) (gridVelDisp : option (list float)) :
  computeDensity M ndebug df pv gridPhi wantVelDisp = Ok (result, gridVelDisp) ->
  List.length result = List.length gridPhi /\
  match gridVelDisp with
  | Some v => wantVelDisp = true /\ List.length v = List.length gridPhi
  | None => wantVelDisp = false
  end.
Proof. apply computeDensity_lengths. Qed.

End OutputSizes.

Lemma computeDensity_sizes_witness :
  exists result v,
    computeDensity Ref.lib false Ref.df Ref.pvol [-10; -7; -5]%float true
    = Ok (result, Some v) /\
    List.length result = 3%nat /\ List.length v = 3%nat.
Proof.
  destruct (computeDensity Ref.lib false Ref.df Ref.pvol [-10; -7; -5]%float true)
    as [[result [v|]]| |] eqn:E; try (vm_compute in E; discriminate E).
  exists result, v. split; [reflexivity|].
  destruct (computeDensity_sizes Ref.lib false Ref.df Ref.pvol [-10; -7; -5]%float true
              result (Some v) E) as [L1 [_ L2]].
  split; assumption.
Defined.

(** ** Differences of ordered binary64 numbers *)

Section StrictDifference.

(** If x < y for two finite binary64 numbers, the difference of their
    aligned signed mantissas is negative. *)
Lemma aligned_difference_neg (sx sy : bool) (mx my : positive) (ex ey : Z) :
  bounded prec emax mx ex = true -> bounded prec emax my ey = true ->
  SFcompare (S754_finite sx mx ex) (S754_finite sy my ey) = Some Lt ->
  (cond_Zopp sx (Z.pos (fst (shl_align mx ex (Z.min ex ey))))
   - cond_Zopp sy (Z.pos (fst (shl_align my ey (Z.min ex ey)))) < 0)%Z.
Proof.
  intros Bx By Hc.
  rewrite !shl_align_fst by lia.
  simpl in Hc. change (Pos.compare_cont Eq mx my) with (mx ?= my)%positive in Hc.
  assert (Px : (0 < 2 ^ (ex - Z.min ex ey))%Z) by (apply Z.pow_pos_nonneg; lia).
  assert (Py : (0 < 2 ^ (ey - Z.min ex ey))%Z) by (apply Z.pow_pos_nonneg; lia).
  destruct sx, sy; cbv beta iota delta [cond_Zopp].
  - destruct (ex ?= ey)%Z eqn:C.
    + apply Z.compare_eq in C. subst ey. rewrite Z.min_id, Z.sub_diag in *.
      change (2 ^ 0)%Z with 1%Z in *.
      destruct (mx ?= my)%positive eqn:Cm; simpl in Hc; inversion Hc.
      apply Pos.compare_gt_iff in Cm. lia.
    + inversion Hc.
    + apply Z.compare_gt_iff in C. rewrite Z.min_r by lia.
      rewrite Z.sub_diag. change (2 ^ 0)%Z with 1%Z.
      pose proof (bounded_exponent_order my mx ey ex By Bx C). lia.
  - nia.
  - inversion Hc.
  - destruct (ex ?= ey)%Z eqn:C.
    + apply Z.compare_eq in C. subst ey. rewrite Z.min_id, Z.sub_diag in *.
      change (2 ^ 0)%Z with 1%Z in *.
      destruct (mx ?= my)%positive eqn:Cm; simpl in Hc; inversion Hc.
      change (mx < my)%positive in Cm. lia.
    + change (ex < ey)%Z in C. rewrite Z.min_l by lia.
      rewrite Z.sub_diag. change (2 ^ 0)%Z with 1%Z.
      pose proof (bounded_exponent_order mx my ex ey Bx By C). lia.
    + inversion Hc.
Qed.

(** A positive integer at an exponent of the format rounds to a positive
    number: there is no underflow to zero. *)
Lemma binary_round_positive (n : positive) (ez : Z) :
  (-1074 <= ez)%Z -> SFltb SFzero (binary_round prec emax false n ez) = true.
Proof.
  intros Hez.
  destruct (binary_round_cases false n ez Hez) as (m2 & Hb & _ & Hm1 & ->).
  destruct (m2 <? 2 ^ 53)%Z.
  - match goal with |- context [if ?b then _ else _] => destruct b end; reflexivity.
  - match goal with |- context [if ?b then _ else _] => destruct b end; reflexivity.
Qed.

(** x < y for finite x and y gives 0 < y - x. *)
Lemma SFsub_lt_pos (x y : spec_float) :
  valid_binary x = true -> valid_binary y = true ->
  SF_is_finite x -> SF_is_finite y ->
  SFltb x y = true -> SFltb SFzero (SF64sub y x) = true.
Proof.
  intros Vx Vy Fx Fy Hlt. unfold SFltb in Hlt.
  destruct (SFcompare x y) as [[| |]|] eqn:Hc; try discriminate Hlt. clear Hlt.
  destruct x as [sx|sx| |sx mx ex]; try contradiction;
    destruct y as [sy|sy| |sy my ey]; try contradiction;
    unfold SF64sub, SFsub.
  - discriminate Hc.
  - simpl in Hc. destruct sy; [discriminate Hc | reflexivity].
  - simpl in Hc. destruct sx; [reflexivity | discriminate Hc].
  - simpl in Vx, Vy.
    pose proof (aligned_difference_neg sx sy mx my ex ey Vx Vy Hc) as H.
    rewrite (Z.min_comm ex ey) in H.
    change (IntDef.Z.min ey ex) with (Z.min ey ex).
    destruct (bounded_digits mx ex Vx) as (Hex & _).
    destruct (bounded_digits my ey Vy) as (Hey & _).
    match goal with
    | |- SFltb _ (binary_normalize _ _ ?m ?e _) = true =>
        destruct m as [|p|p] eqn:Em; try lia
    end.
    cbv beta iota delta [binary_normalize].
    apply binary_round_positive. lia.
Qed.

End StrictDifference.

Section StrictDifferenceFloat.

Local Open Scope float_scope.

(** a < b for finite a and b: the difference b - a passes the test
    [deltaPhi <= 0] of the quadrature routines. *)
Lemma sub_finite_lt (a b : float) :
  is_finite a = true -> is_finite b = true -> (a <? b) = true ->
  (0 <? b - a) = true /\ (b - a <=? 0) = false.
Proof.
  intros Fa Fb H.
  assert (Hpos : (0 <? b - a) = true).
  { rewrite ltb_spec in *. rewrite sub_spec.
    apply SFsub_lt_pos; try apply Prim2SF_valid;
      try (apply finite_SF_is_finite; assumption). exact H. }
  split; [exact Hpos|]. apply ltb_true_leb_false, Hpos.
Qed.

End StrictDifferenceFloat.

(* ================================================================= *)
(** ** [computeDensity]: the grids it accepts *)

Section ComputeDensityAccepts.

Variable M : MathLib.
Variable df : IFunction.
Variable pv : PhaseVolume.
Variable wantVelDisp : bool.

Local Open Scope float_scope.

(** A strictly increasing grid of finite values that ends below 0 has no
    segment with [deltaPhi <= 0]. *)
Lemma increasing_negative_good_segments (gridPhi : list float) :
  Forall (fun x => is_finite x = true) gridPhi ->
  strictly_increasing gridPhi = true ->
  gridPhi = [] \/ (last gridPhi 0 <? 0) = true ->
  existsb (fun d => d <=? 0) (deltas gridPhi) = false.
Proof.
  induction gridPhi as [|a [|b t] IH]; intros HF Hinc Hlast.
  - reflexivity.
  - destruct Hlast as [Hnil|Hlast]; [discriminate Hnil|].
    cbn [last] in Hlast. cbn [deltas existsb].
    inversion HF as [|? ? Fa _]; subst.
    rewrite (proj2 (sub_finite_lt a 0 Fa eq_refl Hlast)). reflexivity.
  - rewrite strictly_increasing_cons in Hinc. apply andb_true_iff in Hinc.
    destruct Hinc as [Hab Hinc].
    inversion HF as [|? ? Fa HF']; subst. inversion HF' as [|? ? Fb _]; subst.
    rewrite deltas_cons. cbn [existsb].
    rewrite (proj2 (sub_finite_lt a b Fa Fb Hab)). cbn [orb].
    apply IH; [exact HF' | exact Hinc|].
    right. destruct Hlast as [Hnil|Hlast]; [discriminate Hnil | exact Hlast].
Qed.

(** With NDEBUG the loop over [i] returns when no segment has
    [deltaPhi <= 0]. *)
Lemma computeDensity_i_release_ok (gridPhi rest : list float) (i : nat)
    (res vd : list float) :
  existsb (fun d => d <=? 0) (deltas rest) = false ->
  exists r, computeDensity_i M true df pv gridPhi wantVelDisp i rest res vd = Ok r.
Proof.
  revert i res vd. induction rest as [|p rest IH]; intros i res vd;
    cbn [computeDensity_i deltas existsb].
  - eauto.
  - match goal with |- context [if ?d <=? 0 then _ else _] => destruct (d <=? 0) end;
      cbn [orb]; intros H; [discriminate H|].
    match goal with
    | |- context [computeDensity_k M true df pv gridPhi wantVelDisp i p ?d ?ks res vd] =>
        destruct (computeDensity_k_release M df pv wantVelDisp gridPhi i p d ks res vd)
          as [[res' vd'] ->]
    end.
    cbn [bind]. apply IH, H.
Qed.

(** Without NDEBUG, on a grid of finite values and with positive squares
    of the quadrature nodes, the loop over [i] returns when no segment has
    [deltaPhi <= 0]: no assertion fails. *)
Lemma computeDensity_i_debug_ok (gridPhi pre rest : list float) (res vd : list float) :
  GL_squares_positive M = true ->
  gridPhi = pre ++ rest -> Forall (fun x => is_finite x = true) gridPhi ->
  match rest with
  | [] => True
  | p :: _ => Forall (fun q => (q <=? p) = true) pre
  end ->
  existsb (fun d => d <=? 0) (deltas rest) = false ->
  exists r,
    computeDensity_i M false df pv gridPhi wantVelDisp (List.length pre) rest res vd
    = Ok r.
Proof.
  intros HM. revert pre res vd.
  induction rest as [|p rest IH]; intros pre res vd Hg HF Hpre Hgood;
    cbn [computeDensity_i deltas existsb] in *.
  - eauto.
  - assert (Fp : is_finite p = true).
    { rewrite Hg in HF. apply Forall_app in HF. destruct HF as [_ HF].
      inversion HF; assumption. }
    assert (Fpre : Forall (fun x => is_finite x = true) pre).
    { rewrite Hg in HF. apply Forall_app in HF. apply HF. }
    set (b := match rest with [] => 0 | next :: _ => next end) in *.
    assert (Fb : is_finite b = true).
    { unfold b. destruct rest as [|next rest']; [reflexivity|].
      rewrite Hg in HF. apply Forall_app in HF. destruct HF as [_ HF].
      inversion HF as [|? ? _ HF']; subst. inversion HF'; assumption. }
    apply orb_false_iff in Hgood. destruct Hgood as [Hd Hgood]. rewrite Hd.
    destruct (sub_finite_pos p b Fp Fb Hd) as [Hpos Hlt].
    match goal with
    | |- context [computeDensity_k M false df pv gridPhi wantVelDisp ?i p ?d ?ks res vd] =>
        destruct (computeDensity_k_debug M df pv wantVelDisp gridPhi i p d ks res vd
                    Fp Hpos) as [[res' vd'] ->]
    end.
    + rewrite Hg. rewrite firstn_app, Nat.sub_succ_l, Nat.sub_diag by lia.
      rewrite firstn_all2 by lia. cbn [firstn]. apply Forall_app. split.
      * clear -Hpre Fpre. induction pre as [|q pre IHp]; constructor.
        -- inversion Hpre; inversion Fpre; subst. auto.
        -- inversion Hpre; inversion Fpre; subst. auto.
      * constructor; [|constructor]. split; [exact Fp | apply leb_refl_finite, Fp].
    + exact HM.
    + cbn [bind].
      replace (S (List.length pre)) with (List.length (pre ++ [p]))
        by (rewrite length_app; simpl; lia).
      apply IH; [rewrite <- app_assoc; exact Hg | exact HF | | exact Hgood].
      destruct rest as [|next rest']; [exact I|].
      apply Forall_app. split.
      * eapply Forall_impl; [|exact Hpre]. intros q Hq. cbv beta.
        eapply leb_trans; [exact Hq | apply ltb_leb, Hlt].
      * constructor; [apply ltb_leb, Hlt | constructor].
Qed.

Lemma computeDensity_good_segments (ndebug : bool) (gridPhi : list float) :
  ndebug = true \/
  (GL_squares_positive M = true /\ Forall (fun x => is_finite x = true) gridPhi) ->
  existsb (fun d => d <=? 0) (deltas gridPhi) = false ->
  exists result gridVelDisp,
    computeDensity M ndebug df pv gridPhi wantVelDisp = Ok (result, gridVelDisp).
Proof.
  intros Hb Hgood. unfold computeDensity.
  assert (Hi : exists r,
             computeDensity_i M ndebug df pv gridPhi wantVelDisp 0 gridPhi
               (zeros (List.length gridPhi)) (zeros (List.length gridPhi)) = Ok r).
  { destruct ndebug.
    - apply computeDensity_i_release_ok, Hgood.
    - destruct Hb as [Hb|[HM HF]]; [discriminate Hb|].
      apply (computeDensity_i_debug_ok gridPhi [] gridPhi _ _ HM eq_refl HF);
        [|exact Hgood].
      destruct gridPhi; [exact I | constructor]. }
  destruct Hi as [[res vd] ->]. cbn [bind]. eauto.
Qed.

(** X2: [computeDensity] accepts every strictly increasing grid of finite
    values that ends below 0 (and the empty grid): it returns the density
    vector, with NDEBUG and also without it when the squares of the
    quadrature nodes are positive. *)
Theorem computeDensity_accepts (ndebug : bool) (gridPhi : list float) :
  Forall (fun x => is_finite x = true) gridPhi ->
  strictly_increasing gridPhi = true ->
  gridPhi = [] \/ (last gridPhi 0 <? 0) = true ->
  ndebug = true \/ GL_squares_positive M = true ->
  exists result gridVelDisp,
    computeDensity M ndebug df pv gridPhi wantVelDisp = Ok (result, gridVelDisp).
Proof.
  intros HF Hinc Hlast Hb. apply computeDensity_good_segments.
  - destruct Hb as [Hb|Hb]; [left; exact Hb | right; split; assumption].
  - apply increasing_negative_good_segments; assumption.
Qed.

End ComputeDensityAccepts.

Lemma computeDensity_accepts_witness :
  exists result gridVelDisp,
    computeDensity Ref.lib false Ref.df Ref.pvol [-10; -7; -5]%float true
    = Ok (result, gridVelDisp).
Proof.
  apply (computeDensity_accepts Ref.lib Ref.df Ref.pvol true false [-10; -7; -5]%float).
  - repeat (constructor; [vm_compute; reflexivity|]). constructor.
  - vm_compute. reflexivity.
  - right. vm_compute. reflexivity.
  - right. vm_compute. reflexivity.
Defined.

(* ================================================================= *)
(** ** [computeDensity]: grids with infinite or NaN nodes

    The test [deltaPhi<=0] is false when [deltaPhi] is NaN, unlike the
    tests [!(f>=0)], [!(totalMass > 0)] and [!(Phi<0)] of the same file. *)

Section ComputeDensitySpecialValues.

Variable M : MathLib.
Variable df : IFunction.
Variable pv : PhaseVolume.
Variable wantVelDisp : bool.

Local Open Scope float_scope.

Lemma mul_nan_r (x : float) : x * nan = nan.
Proof.
  apply Prim2SF_inj. rewrite mul_spec.
  change (Prim2SF nan) with S754_nan. destruct (Prim2SF x); reflexivity.
Qed.

(** C8: the grid [-inf, -inf, -5] is not strictly increasing, and
    [computeDensity] does not throw on it, whatever the library, the DF
    and the phase volume: the first [deltaPhi] is NaN and passes the test.
    With NDEBUG a vector is returned; without NDEBUG the assertion
    [dif>=0] fails at the first node of the quadrature. *)
Theorem computeDensity_misses_repeated_infinity :
  strictly_increasing [neg_infinity; neg_infinity; -5] = false /\
  (exists result gridVelDisp,
     computeDensity M true df pv [neg_infinity; neg_infinity; -5] wantVelDisp
     = Ok (result, gridVelDisp)) /\
  computeDensity M false df pv [neg_infinity; neg_infinity; -5] wantVelDisp
  = Fault AssertionFailed.
Proof.
  split; [reflexivity|]. split.
  - apply computeDensity_good_segments; [left; reflexivity | reflexivity].
  - unfold computeDensity. cbn [computeDensity_i List.length].
    change (neg_infinity - neg_infinity) with nan.
    change (nan <=? 0) with false. cbv iota.
    change (seq 0 GLORDER) with (0%nat :: seq 1 (GLORDER - 1)).
    cbn [computeDensity_k]. cbv zeta. rewrite mul_nan_r.
    change (neg_infinity + nan) with nan.
    cbn [computeDensity_j zeros repeat].
    change (nan - neg_infinity) with nan. reflexivity.
Qed.

(** C9: the grid that holds one NaN is accepted with NDEBUG, whatever the
    library, the DF and the phase volume, though its node is not below 0:
    [deltaPhi = 0 - NaN] passes the test.  Without NDEBUG the assertion
    [dif>=0] fails. *)
Theorem computeDensity_accepts_nan :
  (exists result gridVelDisp,
     computeDensity M true df pv [nan] wantVelDisp = Ok (result, gridVelDisp)) /\
  (nan <? 0) = false /\
  computeDensity M false df pv [nan] wantVelDisp = Fault AssertionFailed.
Proof.
  split; [|split; [reflexivity|]].
  - apply computeDensity_good_segments; [left; reflexivity | reflexivity].
  - unfold computeDensity. cbn [computeDensity_i List.length].
    change (0 - nan) with nan.
    change (nan <=? 0) with false. cbv iota.
    change (seq 0 GLORDER) with (0%nat :: seq 1 (GLORDER - 1)).
    cbn [computeDensity_k]. cbv zeta. rewrite mul_nan_r.
    change (nan + nan) with nan.
    cbn [computeDensity_j zeros repeat].
    change (nan - nan) with nan. reflexivity.
Qed.

End ComputeDensitySpecialValues.

(** With the reference library: what is returned with NDEBUG for the two
    grids, and the grid [-inf, 0], whose last node is 0: it is rejected
    with NDEBUG, and fails the assertion without it. *)
Example computeDensity_special_values_reference :
  computeDensity Ref.lib true Ref.df Ref.pvol [nan]%float true
  = Ok ([0%float], Some [nan]) /\
  map is_finite
    (match computeDensity Ref.lib true Ref.df Ref.pvol
             [neg_infinity; neg_infinity; -5]%float false with
     | Ok (result, _) => result
     | _ => []
     end) = [false; false; true] /\
  computeDensity Ref.lib true Ref.df Ref.pvol [neg_infinity; 0]%float true
  = Throw computeDensity_error /\
  computeDensity Ref.lib false Ref.df Ref.pvol [neg_infinity; 0]%float true
  = Fault AssertionFailed.
Proof.
  split; [vm_compute; reflexivity|].
  split; [vm_compute; reflexivity|].
  split; vm_compute; reflexivity.
Qed.

(* ================================================================= *)
(** ** [computeProjectedDensity]: the test on the grid in R *)

Section ComputeProjectedDensityProperties.

Variable M : MathLib.
Variable dens : IFunction.
Variable velDisp : IFunction.

Local Open Scope float_scope.

Lemma computeProjectedDensity_j_release (r weight velsq : float) (n : nat)
    (gr pd pvd : list float) :
  exists x, computeProjectedDensity_j true r weight velsq n gr pd pvd = Ok x.
Proof.
  revert gr pd pvd. induction n as [|n IH]; intros gr pd pvd; simpl.
  - eauto.
  - destruct gr as [|Rj gr]; [eauto|]. destruct pd as [|d pd]; [eauto|].
    destruct pvd as [|v pvd]; [eauto|].
    destruct (IH gr pd pvd) as [[pd' pvd'] ->]. cbn [bind]. eauto.
Qed.

Lemma computeProjectedDensity_k_release (gridR : list float) (i : nat) (last : bool)
    (R_i deltar : float) (ks : list nat) (pd pvd : list float) :
  exists x,
    computeProjectedDensity_k M true dens velDisp gridR i last R_i deltar ks pd pvd
    = Ok x.
Proof.
  revert pd pvd. induction ks as [|k ks IH]; intros pd pvd;
    cbn [computeProjectedDensity_k].
  - eauto.
  - match goal with
    | |- context [computeProjectedDensity_j true ?r ?w ?v ?n ?gr pd pvd] =>
        destruct (computeProjectedDensity_j_release r w v n gr pd pvd) as [[pd' pvd'] ->]
    end.
    cbn [bind]. apply IH.
Qed.

Lemma computeProjectedDensity_j_no_throw (ndebug : bool) (r weight velsq : float)
    (n : nat) (gr pd pvd : list float) (e : exception) :
  computeProjectedDensity_j ndebug r weight velsq n gr pd pvd <> Throw e.
Proof.
  revert gr pd pvd. induction n as [|n IH]; intros gr pd pvd; simpl.
  - discriminate.
  - destruct gr as [|Rj gr]; [discriminate|]. destruct pd as [|d pd]; [discriminate|].
    destruct pvd as [|v pvd]; [discriminate|].
    destruct (negb ndebug && negb (0 <? pow_2 r - pow_2 Rj)); [discriminate|].
    specialize (IH gr pd pvd).
    destruct (computeProjectedDensity_j ndebug r weight velsq n gr pd pvd)
      as [[pd' pvd']| |]; cbn [bind]; congruence.
Qed.

Lemma computeProjectedDensity_k_no_throw (ndebug : bool) (gridR : list float) (i : nat)
    (last : bool) (R_i deltar : float) (ks : list nat) (pd pvd : list float)
    (e : exception) :
  computeProjectedDensity_k M ndebug dens velDisp gridR i last R_i deltar ks pd pvd
  <> Throw e.
Proof.
  revert pd pvd. induction ks as [|k ks IH]; intros pd pvd;
    cbn [computeProjectedDensity_k].
  - discriminate.
  - match goal with
    | |- context [computeProjectedDensity_j ndebug ?r ?w ?v ?n ?gr pd pvd] =>
        pose proof (computeProjectedDensity_j_no_throw ndebug r w v n gr pd pvd e) as Hj;
        destruct (computeProjectedDensity_j ndebug r w v n gr pd pvd)
          as [[pd' pvd']| |]; cbn [bind]; try congruence
    end.
    all: apply IH.
Qed.

(** What the loop over [i] does, by the values of [deltar] ahead: with a
    value [<= 0] it does not return, throws nothing but the exception of
    the test, and throws it with NDEBUG; with none it returns with
    NDEBUG. *)
Lemma computeProjectedDensity_i_cases (ndebug : bool) (gridR rest : list float) (i : nat)
    (pd pvd : list float) :
  (forall e,
     computeProjectedDensity_i M ndebug dens velDisp gridR i rest pd pvd = Throw e ->
     e = computeProjectedDensity_error /\
     existsb (fun d => d <=? 0) (proj_deltas rest) = true) /\
  (existsb (fun d => d <=? 0) (proj_deltas rest) = true ->
   (forall x, computeProjectedDensity_i M ndebug dens velDisp gridR i rest pd pvd
              <> Ok x) /\
   computeProjectedDensity_i M true dens velDisp gridR i rest pd pvd
   = Throw computeProjectedDensity_error) /\
  (existsb (fun d => d <=? 0) (proj_deltas rest) = false ->
   exists x, computeProjectedDensity_i M true dens velDisp gridR i rest pd pvd = Ok x).
Proof.
  revert i pd pvd. induction rest as [|p rest IH]; intros i pd pvd;
    cbn [computeProjectedDensity_i proj_deltas existsb].
  - split; [discriminate|]. split; [discriminate|]. eauto.
  - match goal with |- context [if ?d <=? 0 then _ else _] => destruct (d <=? 0) end;
      cbn [orb].
    + split; [intros e H; inversion H; auto|].
      split; [intros _; split; [discriminate | reflexivity] | discriminate].
    + split; [|split].
      * intros e.
        match goal with
        | |- context [computeProjectedDensity_k M ndebug dens velDisp gridR i ?l p ?d ?ks pd pvd] =>
            pose proof (computeProjectedDensity_k_no_throw ndebug gridR i l p d ks pd pvd e);
            destruct (computeProjectedDensity_k M ndebug dens velDisp gridR i l p d ks pd pvd)
              as [[pd' pvd']| |]; cbn [bind]; try congruence
        end.
        apply IH.
      * intros Hbad. split.
        -- match goal with
           | |- context [computeProjectedDensity_k M ndebug dens velDisp gridR i ?l p ?d ?ks pd pvd] =>
               destruct (computeProjectedDensity_k M ndebug dens velDisp gridR i l p d ks pd pvd)
                 as [[pd' pvd']| |]; cbn [bind]; try discriminate
           end.
           apply (proj1 (proj2 (IH (S i) pd' pvd'))), Hbad.
        -- match goal with
           | |- context [computeProjectedDensity_k M true dens velDisp gridR i ?l p ?d ?ks pd pvd] =>
               destruct (computeProjectedDensity_k_release gridR i l p d ks pd pvd)
                 as [[pd' pvd'] ->]
           end.
           cbn [bind]. apply (proj1 (proj2 (IH (S i) pd' pvd'))), Hbad.
      * intros Hgood.
        match goal with
        | |- context [computeProjectedDensity_k M true dens velDisp gridR i ?l p ?d ?ks pd pvd] =>
            destruct (computeProjectedDensity_k_release gridR i l p d ks pd pvd)
              as [[pd' pvd'] ->]
        end.
        cbn [bind]. apply (proj2 (proj2 (IH (S i) pd' pvd'))), Hgood.
Qed.

Lemma proj_deltas_cons (a b : float) (t : list float) :
  proj_deltas (a :: b :: t) = (b - a) :: proj_deltas (b :: t).
Proof. reflexivity. Qed.

(** A grid of finite radii has a value [deltar <= 0] exactly when it is
    not strictly increasing or does not end at a positive radius. *)
Lemma proj_deltas_bad_iff (gridR : list float) :
  Forall (fun x => is_finite x = true) gridR ->
  existsb (fun d => d <=? 0) (proj_deltas gridR)
  = negb (strictly_increasing gridR
          && match gridR with [] => true | _ => 0 <? last gridR 0 end).
Proof.
  induction gridR as [|a [|b t] IH]; intros HF.
  - reflexivity.
  - cbn [proj_deltas existsb strictly_increasing last andb orb].
    rewrite orb_false_r. inversion HF as [|? ? Fa _]; subst.
    destruct (a <=? 0) eqn:H.
    + rewrite (leb_true_ltb_false _ _ H). reflexivity.
    + rewrite ltb_spec. rewrite leb_spec in H.
      apply is_finite_Prim2SF in Fa.
      destruct Fa as [[s E]|[s [m [e E]]]]; rewrite E in *; destruct s;
        try discriminate H; reflexivity.
  - inversion HF as [|? ? Fa HF']; subst. inversion HF' as [|? ? Fb _]; subst.
    rewrite proj_deltas_cons, strictly_increasing_cons. cbn [existsb].
    rewrite (IH HF').
    change (last (a :: b :: t) 0) with (last (b :: t) 0).
    destruct (a <? b) eqn:Hab.
    + rewrite (proj2 (sub_finite_lt a b Fa Fb Hab)). reflexivity.
    + rewrite (sub_finite_not_lt a b Fa Fb Hab). reflexivity.
Qed.

(** X3: on a grid of finite radii, [computeProjectedDensity] returns no
    vectors unless the grid is strictly increasing and ends at a positive
    radius: otherwise it throws the runtime error "grid in R must be
    monotonically increasing" (with NDEBUG always), which is the only
    exception it can throw; with NDEBUG it returns on every other grid. *)
Theorem computeProjectedDensity_domain (ndebug : bool) (gridR : list float) :
  Forall (fun x => is_finite x = true) gridR ->
  let admissible :=
    strictly_increasing gridR
    && match gridR with [] => true | _ => 0 <? last gridR 0 end in
  (admissible = false ->
   (forall x, computeProjectedDensity M ndebug dens velDisp gridR <> Ok x) /\
   computeProjectedDensity M true dens velDisp gridR
   = Throw computeProjectedDensity_error) /\
  (admissible = true ->
   exists x, computeProjectedDensity M true dens velDisp gridR = Ok x) /\
  (forall e, computeProjectedDensity M ndebug dens velDisp gridR = Throw e ->
             e = computeProjectedDensity_error /\ admissible = false).
Proof.
  intros HF admissible.
  pose proof (proj_deltas_bad_iff gridR HF) as Hiff. fold admissible in Hiff.
  unfold computeProjectedDensity.
  destruct (computeProjectedDensity_i_cases ndebug gridR gridR 0
              (zeros (List.length gridR)) (zeros (List.length gridR)))
    as (Honly & Hbad & Hgood).
  rewrite Hiff in Honly, Hbad, Hgood.
  split; [|split].
  - intros Ha. rewrite Ha in Hbad. destruct (Hbad eq_refl) as [Hno Hrel].
    split.
    + intros x.
      destruct (computeProjectedDensity_i M ndebug dens velDisp gridR 0 gridR
                  (zeros (List.length gridR)) (zeros (List.length gridR)))
        as [[pd pvd]| |] eqn:E; cbn [bind]; try discriminate.
      exfalso. exact (Hno _ eq_refl).
    + rewrite Hrel. reflexivity.
  - intros Ha. rewrite Ha in Hgood. destruct (Hgood eq_refl) as [[pd pvd] ->].
    cbn [bind]. eauto.
  - intros e.
    destruct (computeProjectedDensity_i M ndebug dens velDisp gridR 0 gridR
                (zeros (List.length gridR)) (zeros (List.length gridR)))
      as [[pd pvd]| |] eqn:E; cbn [bind]; try discriminate.
    intros He. inversion He; subst.
    destruct (Honly _ eq_refl) as [-> Hb]. split; [reflexivity|].
    apply negb_true_iff. exact Hb.
Qed.

End ComputeProjectedDensityProperties.

(** The grid [1, 2, 2] is rejected, the grid [1, 2, 4] is accepted. *)
Lemma computeProjectedDensity_domain_witness :
  computeProjectedDensity Ref.lib true Ref.df Ref.df [1; 2; 2]%float
  = Throw computeProjectedDensity_error /\
  exists x, computeProjectedDensity Ref.lib true Ref.df Ref.df [1; 2; 4]%float = Ok x.
Proof.
  split.
  - apply (computeProjectedDensity_domain Ref.lib Ref.df Ref.df true [1; 2; 2]%float).
    + repeat (constructor; [vm_compute; reflexivity|]). constructor.
    + vm_compute. reflexivity.
  - apply (computeProjectedDensity_domain Ref.lib Ref.df Ref.df true [1; 2; 4]%float).
    + repeat (constructor; [vm_compute; reflexivity|]). constructor.
    + vm_compute. reflexivity.
Defined.

(* ================================================================= *)
(** ** The integrand of [samplePosVel] *)

Section ModelIntegrandProperties.

Variable unscale_semiInf : float -> float * float.
Variable pot : IFunction.
Variable df : IFunction.
Variable pv : PhaseVolume.

Local Open Scope float_scope.

(** X4: the value that [SphericalIsotropicModelIntegrand::eval] stores is
    never NaN: when the jacobian is finite and lies strictly between
    1e-100 and 1e100 and the value f of the DF at h(Phi + v^2/2) is
    finite, it is the product of f and the jacobian; otherwise it is 0. *)
Theorem integrand_eval_filters (vars0 vars1 : float) :
  let '(jac, (r, v, Phi)) := unscalerv unscale_semiInf pot vars0 vars1 in
  let f := value df (pv_h pv (Phi + 0.5 * v * v)) in
  let stored := SphericalIsotropicModelIntegrand_eval unscale_semiInf pot df pv
                  vars0 vars1 in
  is_nan stored = false /\
  (is_finite jac = true /\ (1e-100 <? jac) = true /\ (jac <? 1e100) = true /\
   is_finite f = true -> stored = f * jac) /\
  (is_finite jac = false \/ (1e-100 <? jac) = false \/ (jac <? 1e100) = false \/
   is_finite f = false -> stored = 0).
Proof.
  unfold SphericalIsotropicModelIntegrand_eval.
  destruct (unscalerv unscale_semiInf pot vars0 vars1) as [jac [[r v] Phi]].
  cbv zeta.
  destruct (is_finite jac) eqn:Fj; cbn [andb];
    [|split; [reflexivity|]; split; [intros (C & _); discriminate C | reflexivity]].
  destruct (1e-100 <? jac) eqn:Hlo; cbn [andb];
    [|split; [reflexivity|]; split; [intros (_ & C & _); discriminate C | reflexivity]].
  destruct (jac <? 1e100) eqn:Hhi;
    [|split; [reflexivity|]; split; [intros (_ & _ & C & _); discriminate C | reflexivity]].
  destruct (is_finite (value df (pv_h pv (Phi + 0.5 * v * v)))) eqn:Ff;
    [|split; [reflexivity|]; split; [intros (_ & _ & _ & C); discriminate C | reflexivity]].
  split; [apply mul_finite_not_nan; assumption|].
  split; [reflexivity|]. intros [C|[C|[C|C]]]; discriminate C.
Qed.

End ModelIntegrandProperties.

(* ================================================================= *)
(** ** Queries of the local model *)

Section LocalQueryProperties.

Variable M : MathLib.
Variable this : SphericalIsotropicModelLocal.
Variable cumulMass_default : float.

Local Open Scope float_scope.

(** X5: [evalLocal] throws, and then the invalid-argument exception
    "incompatible values of E and Phi", exactly when Phi is not below 0 or
    h(E) is not at least h(Phi), a NaN among them included; otherwise it
    returns the three coefficients. *)
Theorem evalLocal_domain (Phi E : float) :
  let compatible :=
    (Phi <? 0) && (pv_h (phasevol (base this)) Phi <=? pv_h (phasevol (base this)) E) in
  (compatible = false ->
   evalLocal M this cumulMass_default Phi E = Throw incompatible_E_Phi) /\
  (compatible = true ->
   exists dvpar dv2par dv2per,
     evalLocal M this cumulMass_default Phi E = Ok (dvpar, dv2par, dv2per)) /\
  (is_nan Phi = true -> evalLocal M this cumulMass_default Phi E = Throw incompatible_E_Phi).
Proof.
  cbv zeta. unfold evalLocal.
  destruct ((Phi <? 0)
            && (pv_h (phasevol (base this)) Phi <=? pv_h (phasevol (base this)) E))
    eqn:Hc; cbn [negb].
  - split; [discriminate|]. split.
    + intros _. destruct (0 <=? E); do 3 eexists; reflexivity.
    + intros Hn. apply andb_true_iff in Hc. destruct Hc as [Hc _].
      rewrite ltb_spec, (is_nan_true_Prim2SF _ Hn) in Hc. discriminate Hc.
  - split; [reflexivity|]. split; [discriminate | reflexivity].
Qed.

Lemma positive_constant_signed : signed false (32 * M_PI * M_PI / 3).
Proof. apply signed_false_iff. reflexivity. Qed.

Lemma three_signed : signed false 3.
Proof. apply signed_false_iff. reflexivity. Qed.

Lemma one_signed : signed false 1.
Proof. apply signed_false_iff. reflexivity. Qed.

(** X6: the drag coefficient [dvpar] that [evalLocal] returns is never
    positive: when it is a finite number, the exponential of the library
    is never negative and the total mass is not negative, [dvpar <= 0],
    because J0 is clamped at 0 from below. *)
Theorem evalLocal_drag_not_positive (Phi E dvpar dv2par dv2per : float) :
  (forall x, (exp M x <? 0) = false) ->
  (cumulMass M (base this) cumulMass_default <? 0) = false ->
  evalLocal M this cumulMass_default Phi E = Ok (dvpar, dv2par, dv2per) ->
  is_finite dvpar = true ->
  (dvpar <=? 0) = true.
Proof.
  intros Hexp Hmass. unfold evalLocal.
  destruct (negb ((Phi <? 0)
            && (pv_h (phasevol (base this)) Phi <=? pv_h (phasevol (base this)) E)));
    [discriminate|].
  set (hPhi := pv_h (phasevol (base this)) Phi).
  set (hE := pv_h (phasevol (base this)) E).
  set (J0 := fmax (I0 M (base this) hPhi - I0 M (base this) hE) 0).
  set (X := clamp M (log M hPhi) (xmin (intJ1 this)) (xmax (intJ1 this))).
  set (Y := clamp M (log M (hE / hPhi)) (ymin (intJ1 this)) (ymax (intJ1 this))).
  set (e1 := exp M (spline2d_value M (intJ1 this) X Y)).
  set (e3 := exp M (spline2d_value M (intJ3 this) X Y)).
  set (cm := cumulMass M (base this) cumulMass_default) in *.
  assert (HJ0 : signed false J0) by apply fmax_zero_signed.
  assert (Hsign : forall J1', is_finite (- (32 * M_PI * M_PI / 3 * cm) * J1' * 3) = true ->
                              signed false J1' ->
                              (- (32 * M_PI * M_PI / 3 * cm) * J1' * 3 <=? 0) = true).
  { intros J1' HF HJ.
    pose proof (finite_not_nan _ HF) as N3.
    apply mul_finite_inv in HF. destruct HF as [HF _].
    pose proof (finite_not_nan _ HF) as N2.
    apply mul_finite_inv in HF. destruct HF as [HF _].
    assert (Fm : is_finite (32 * M_PI * M_PI / 3 * cm) = true).
    { apply SF_is_finite_is_finite. apply finite_SF_is_finite in HF.
      rewrite opp_spec in HF. destruct (Prim2SF (32 * M_PI * M_PI / 3 * cm));
        simpl in *; auto. }
    pose proof (finite_not_nan _ Fm) as N1.
    apply mul_finite_inv in Fm. destruct Fm as [_ Fcm].
    assert (Scm : signed false cm)
      by (apply not_lt_zero_signed; [apply finite_not_nan, Fcm | exact Hmass]).
    pose proof (mul_signed _ _ _ _ positive_constant_signed Scm N1) as Sm.
    apply opp_signed in Sm.
    pose proof (mul_signed _ _ _ _ Sm HJ N2) as S2.
    pose proof (mul_signed _ _ _ _ S2 three_signed N3) as S3.
    apply signed_true_iff. exact S3. }
  assert (He1 : forall J, is_finite (e1 * J) = true -> signed false J ->
                          signed false (e1 * J)).
  { intros J HF HJ. pose proof (finite_not_nan _ HF) as N.
    apply mul_finite_inv in HF. destruct HF as [Fe _].
    assert (Se : signed false e1)
      by (apply not_lt_zero_signed; [apply finite_not_nan, Fe | apply Hexp]).
    exact (mul_signed _ _ _ _ Se HJ N). }
  destruct (0 <=? E); intros H HF; inversion H; subst dvpar; clear H.
  - apply Hsign; [exact HF|].
    apply mul_finite_inv in HF. destruct HF as [HF _].
    apply mul_finite_inv in HF. destruct HF as [_ HF].
    pose proof (finite_not_nan _ HF) as N.
    apply mul_finite_inv in HF. destruct HF as [FJ1 Fc].
    pose proof (He1 J0 FJ1 HJ0) as SJ1.
    assert (Sc : signed false (1 / sqrt (1 - E / Phi))).
    { destruct (div_finite_inv _ _ Fc) as [_ Ns].
      exact (div_signed_finite _ _ _ _ one_signed (sqrt_signed _ Ns) Fc). }
    exact (mul_signed _ _ _ _ SJ1 Sc N).
  - apply Hsign; [exact HF|].
    apply mul_finite_inv in HF. destruct HF as [HF _].
    apply mul_finite_inv in HF. destruct HF as [_ HF].
    exact (He1 J0 HF HJ0).
Qed.

(** X7: [density] and [velDisp] throw, and then the invalid-argument
    exception "invalid value of Phi", exactly when Phi is not below 0 (a
    NaN included); otherwise they return a number, and the velocity
    dispersion they return is never below 0. *)
Theorem density_velDisp_domain (Phi : float) :
  ((Phi <? 0) = false ->
   density M this Phi = Throw invalid_Phi /\ velDisp M this Phi = Throw invalid_Phi) /\
  ((Phi <? 0) = true ->
   (exists rho, density M this Phi = Ok rho) /\
   (exists sigma, velDisp M this Phi = Ok sigma /\ (sigma <? 0) = false)).
Proof.
  unfold density, velDisp. destruct (Phi <? 0); cbn [negb].
  - split; [discriminate|]. intros _. split.
    + eexists. reflexivity.
    + eexists. split; [reflexivity | apply sqrt_not_negative].
  - split; [|discriminate]. intros _. split; reflexivity.
Qed.

End LocalQueryProperties.

(* ================================================================= *)
(** ** [equalPosVel] *)

Section DebugUtilsProperties.

Local Open Scope float_scope.

(** The difference of a finite number and itself is +0. *)
Lemma sub_self (x : float) : is_finite x = true -> x - x = 0.
Proof.
  intros H. apply Prim2SF_inj. rewrite sub_spec.
  change (Prim2SF 0) with (S754_zero false).
  apply is_finite_Prim2SF in H.
  destruct H as [[s E]|[s [m [e E]]]]; rewrite E; unfold SF64sub, SFsub.
  - destruct s; reflexivity.
  - rewrite Z.sub_diag. reflexivity.
Qed.

Lemma abs_sub_self_lt (x eps : float) :
  is_finite x = true -> (abs (x - x) <? eps) = (0 <? eps).
Proof. intros H. rewrite (sub_self x H). reflexivity. Qed.

(** X8: [equalPosVel] never looks at the first velocity component of its
    first argument: two finite phase-space points that agree on every
    other coordinate compare equal for every positive tolerance, however
    far apart their velocities [vx] are. *)
Theorem equalPosVel_ignores_vx (x y z vx1 vx2 vy vz eps : float) :
  is_finite x = true -> is_finite y = true -> is_finite z = true ->
  is_finite vx2 = true -> is_finite vy = true -> is_finite vz = true ->
  (0 <? eps) = true ->
  equalPosVel {| pvc_x := x; pvc_y := y; pvc_z := z;
                 pvc_vx := vx1; pvc_vy := vy; pvc_vz := vz |}
              {| pvc_x := x; pvc_y := y; pvc_z := z;
                 pvc_vx := vx2; pvc_vy := vy; pvc_vz := vz |} eps = true.
Proof.
  intros Fx Fy Fz Fvx Fvy Fvz Heps. unfold equalPosVel.
  cbn [pvc_x pvc_y pvc_z pvc_vx pvc_vy pvc_vz].
  rewrite !abs_sub_self_lt by assumption. rewrite Heps. reflexivity.
Qed.

End DebugUtilsProperties.

Lemma equalPosVel_ignores_vx_witness :
  equalPosVel {| pvc_x := 1; pvc_y := 2; pvc_z := 3;
                 pvc_vx := 100; pvc_vy := 5; pvc_vz := 6 |}
              {| pvc_x := 1; pvc_y := 2; pvc_z := 3;
                 pvc_vx := -100; pvc_vy := 5; pvc_vz := 6 |} 1e-10 = true.
Proof.
  apply (equalPosVel_ignores_vx 1 2 3 100 (-100) 5 6 1e-10); reflexivity.
Defined.

(* ================================================================= *)
(** ** [writeSphericalIsotropicModel]: the nodes kept *)

Section WriteModelProperties.

Variable M : MathLib.
Variable model : SphericalIsotropicModel.
Variable df : IFunction.
Variable pot : IFunction.
Variable R_max : float -> float.

Local Open Scope float_scope.

(** In binary64 the factor of the roundoff guard is 1. *)
Lemma roundoff_factor_is_one : 1 - MIN_VALUE_ROUNDOFF = 1.
Proof. reflexivity. Qed.

Lemma write_filter_test (prev Phi : float) :
  (prev * (1 - MIN_VALUE_ROUNDOFF) <? Phi) = (prev <? Phi).
Proof. rewrite roundoff_factor_is_one, mul_one. reflexivity. Qed.

Lemma strictly_increasing_tail (a : float) (l : list float) :
  strictly_increasing (a :: l) = true -> strictly_increasing l = true.
Proof.
  destruct l as [|b t]; [reflexivity|].
  rewrite strictly_increasing_cons. intros H. apply andb_true_iff in H. apply H.
Qed.

(** What the loop over the nodes keeps. *)
Lemma write_filter_spec (prev : float) (gridH0 : list float) :
  let '(gridH, gridPhi, gridG, gridR) := write_filter model R_max prev gridH0 in
  erased_from gridH gridH0 /\
  gridPhi = map (E_of (phasevol model)) gridH /\
  gridG = map (g_of (phasevol model)) gridH /\
  gridR = map R_max gridPhi /\
  strictly_increasing (prev :: gridPhi) = true.
Proof.
  revert prev. induction gridH0 as [|h t IH]; intros prev; cbn [write_filter].
  - repeat split; constructor.
  - rewrite write_filter_test.
    destruct (prev <? E_of (phasevol model) h) eqn:Hlt.
    + specialize (IH (E_of (phasevol model) h)).
      destruct (write_filter model R_max (E_of (phasevol model) h) t)
        as [[[H P] G] R].
      destruct IH as (He & HP & HG & HR & Hinc).
      repeat split.
      * constructor. exact He.
      * cbn [map]. rewrite HP. reflexivity.
      * cbn [map]. rewrite HG. reflexivity.
      * cbn [map]. rewrite HR. reflexivity.
      * rewrite strictly_increasing_cons, Hlt. exact Hinc.
    + specialize (IH prev).
      destruct (write_filter model R_max prev t) as [[[H P] G] R].
      destruct IH as (He & HP & HG & HR & Hinc).
      repeat split; try assumption. constructor. exact He.
Qed.

(** X9: the loop of [writeSphericalIsotropicModel] that erases nodes keeps
    a subsequence of the grid in h whose potentials are strictly
    increasing and start above Phi(0): the factor 1 - MIN_VALUE_ROUNDOFF
    of its test rounds to 1, so a node is kept exactly when its potential
    exceeds the last one kept.  The vectors [gridPhi], [gridG] and
    [gridR] are the potentials, the derivatives g and the radii of the
    nodes kept. *)
Theorem write_filter_increasing (Phi0 : float) (gridH0 : list float) :
  let '(gridH, gridPhi, gridG, gridR) := write_filter model R_max Phi0 gridH0 in
  erased_from gridH gridH0 /\
  gridPhi = map (E_of (phasevol model)) gridH /\
  gridG = map (g_of (phasevol model)) gridH /\
  gridR = map R_max gridPhi /\
  strictly_increasing gridPhi = true /\
  Forall (fun Phi => (Phi0 <? Phi) = true) gridPhi /\
  (forall h t, gridH0 = h :: t ->
     write_filter model R_max Phi0 gridH0
     = if Phi0 <? E_of (phasevol model) h
       then let '(H, P, G, R) := write_filter model R_max (E_of (phasevol model) h) t in
            (h :: H, E_of (phasevol model) h :: P, g_of (phasevol model) h :: G,
             R_max (E_of (phasevol model) h) :: R)
       else write_filter model R_max Phi0 t).
Proof.
  pose proof (write_filter_spec Phi0 gridH0) as H.
  destruct (write_filter model R_max Phi0 gridH0) as [[[gH gP] gG] gR] eqn:E.
  destruct H as (He & HP & HG & HR & Hinc).
  repeat split; try assumption.
  - apply (strictly_increasing_tail _ _ Hinc).
  - clear -Hinc. revert Phi0 Hinc.
    assert (Hgen : forall l a b, (a <=? b) = true -> strictly_increasing (b :: l) = true ->
                                 Forall (fun Phi => (a <? Phi) = true) l).
    { induction l as [|c l IHl]; intros a b Hab Hinc; constructor.
      - rewrite strictly_increasing_cons in Hinc. apply andb_true_iff in Hinc.
        destruct Hinc as [Hbc _].
        rewrite ltb_spec in *. rewrite leb_spec in Hab.
        unfold SFltb, SFleb in *.
        destruct (SFcompare (Prim2SF a) (Prim2SF b)) as [c1|] eqn:C1; try discriminate.
        destruct (SFcompare (Prim2SF b) (Prim2SF c)) as [[| |]|] eqn:C2; try discriminate.
        assert (L1 : SFleb (Prim2SF a) (Prim2SF b) = true)
          by (unfold SFleb; rewrite C1; exact Hab).
        assert (L2 : SFleb (Prim2SF b) (Prim2SF c) = true)
          by (unfold SFleb; rewrite C2; reflexivity).
        pose proof (SFleb_trans _ _ _ L1 L2) as L3. unfold SFleb in L3.
        destruct (SFcompare (Prim2SF a) (Prim2SF c)) as [[| |]|] eqn:C3;
          try discriminate; try reflexivity.
        (* a = c as numbers, a <= b < c: impossible *)
        exfalso.
        pose proof (SFcompare_antisym _ _ _ C3) as C3'. simpl in C3'.
        assert (L4 : SFleb (Prim2SF c) (Prim2SF a) = true)
          by (unfold SFleb; rewrite C3'; reflexivity).
        pose proof (SFleb_trans _ _ _ L4 L1) as L5. unfold SFleb in L5.
        rewrite (SFcompare_antisym _ _ _ C2) in L5. discriminate L5.
      - rewrite strictly_increasing_cons in Hinc. apply andb_true_iff in Hinc.
        destruct Hinc as [Hbc Hinc]. apply (IHl a c); [|exact Hinc].
        eapply leb_trans; [exact Hab | apply ltb_leb, Hbc]. }
    intros Phi0 Hinc. destruct gP as [|c l]; [constructor|].
    rewrite strictly_increasing_cons in Hinc. apply andb_true_iff in Hinc.
    destruct Hinc as [H0c Hinc]. constructor; [exact H0c|].
    apply (Hgen l Phi0 c); [apply ltb_leb, H0c | exact Hinc].
  - intros h t ->. rewrite <- E. cbn [write_filter]. rewrite write_filter_test.
    reflexivity.
Qed.

End WriteModelProperties.

(* ================================================================= *)
(** ** [writeSphericalIsotropicModel]: the profiles tabulated *)

Section WriteProfilesProperties.

Variable M : MathLib.
Variable ndebug : bool.
Variable model : SphericalIsotropicModel.
Variable df : IFunction.
Variable pot : IFunction.
Variable R_max : float -> float.

Local Open Scope float_scope.

(** Of two numbers, one is at most the other. *)
Lemma leb_false_leb (x y : float) :
  is_nan x = false -> is_nan y = false -> (x <=? y) = false -> (y <=? x) = true.
Proof.
  intros Nx Ny. apply is_nan_Prim2SF in Nx. apply is_nan_Prim2SF in Ny.
  rewrite !leb_spec. unfold SFleb.
  destruct (SFcompare (Prim2SF x) (Prim2SF y)) as [c|] eqn:E.
  - rewrite (SFcompare_antisym _ _ _ E). destruct c; try discriminate; reflexivity.
  - destruct (Prim2SF x), (Prim2SF y); try congruence; discriminate E.
Qed.

Lemma write_safety_spec (gridRho gridVelDisp : list float) :
  List.length gridRho = List.length gridVelDisp ->
  let '(rho', vd') := write_safety gridRho gridVelDisp in
  List.length rho' = List.length gridRho /\
  List.length vd' = List.length gridRho /\
  Forall (fun r => is_finite r = true /\ (MIN_VALUE_ROUNDOFF <=? r) = true) rho' /\
  Forall (fun v => is_finite v = true) vd'.
Proof.
  revert gridVelDisp.
  induction gridRho as [|rho t IH]; intros [|vd tv] HL; simpl in HL; try lia;
    cbn [write_safety].
  - repeat split; constructor.
  - specialize (IH tv ltac:(lia)).
    destruct (write_safety t tv) as [r' v'].
    destruct IH as (L1 & L2 & F1 & F2).
    destruct (is_finite (rho + vd)) eqn:HF; cbn [negb orb].
    + destruct (rho <=? MIN_VALUE_ROUNDOFF) eqn:Hle.
      * simpl. repeat split; try lia; constructor; try assumption.
        split; reflexivity. reflexivity.
      * destruct (add_finite_inv _ _ HF) as [Fr Fv].
        simpl. repeat split; try lia; constructor; try assumption.
        split; [exact Fr|].
        apply leb_false_leb; [apply finite_not_nan, Fr | reflexivity | exact Hle].
    + simpl. repeat split; try lia; constructor; try assumption.
      split; reflexivity. reflexivity.
Qed.

(** The steps of a successful tabulation. *)
Lemma write_profiles_inv (gridh gridH gridPhi gridG gridR gridRho gridVelDisp : list float) :
  write_profiles M ndebug model df pot R_max gridh
  = Ok (gridH, gridPhi, gridG, gridR, gridRho, gridVelDisp) ->
  exists gridH0 rho vd,
    write_gridH M df gridh = Ok gridH0 /\
    write_filter model R_max (value pot 0) gridH0 = (gridH, gridPhi, gridG, gridR) /\
    computeDensity M ndebug df (phasevol model) gridPhi true = Ok (rho, Some vd) /\
    write_safety rho vd = (gridRho, gridVelDisp).
Proof.
  unfold write_profiles. intros H.
  destruct (write_gridH M df gridh) as [gridH0| |]; try discriminate H.
  cbn [bind] in H.
  destruct (write_filter model R_max (value pot 0) gridH0) as [[[gH gP] gG] gR] eqn:Ef.
  destruct (computeDensity M ndebug df (phasevol model) gP true)
    as [[rho vd]| |] eqn:E; try discriminate H.
  cbn [bind] in H.
  pose proof (computeDensity_lengths _ _ _ _ _ _ _ _ E) as [_ Hvd].
  destruct vd as [vd|]; [|discriminate Hvd].
  destruct (write_safety rho vd) as [r' v'] eqn:Es.
  inversion H; subst. exists gridH0, rho, vd. repeat split; assumption.
Qed.

(** X10: when the tabulation of [writeSphericalIsotropicModel] succeeds,
    the six vectors have one entry per node kept, the potentials are
    strictly increasing, and after the safety pass every density is a
    finite number not below MIN_VALUE_ROUNDOFF and every velocity
    dispersion is finite, so that the two log-log interpolators are never
    given a NaN, an infinity or a non-positive density. *)
Theorem write_profiles_safe (gridh gridH gridPhi gridG gridR gridRho gridVelDisp : list float) :
  write_profiles M ndebug model df pot R_max gridh
  = Ok (gridH, gridPhi, gridG, gridR, gridRho, gridVelDisp) ->
  List.length gridPhi = List.length gridH /\
  List.length gridG = List.length gridH /\
  List.length gridR = List.length gridH /\
  List.length gridRho = List.length gridH /\
  List.length gridVelDisp = List.length gridH /\
  strictly_increasing gridPhi = true /\
  Forall (fun r => is_finite r = true /\ (MIN_VALUE_ROUNDOFF <=? r) = true) gridRho /\
  Forall (fun v => is_finite v = true) gridVelDisp.
Proof.
  intros H.
  destruct (write_profiles_inv _ _ _ _ _ _ _ H) as (gridH0 & rho & vd & _ & Hf & Hd & Hs).
  pose proof (write_filter_spec model R_max (value pot 0) gridH0) as Hspec.
  rewrite Hf in Hspec. destruct Hspec as (_ & HP & HG & HR & Hinc).
  pose proof (computeDensity_lengths _ _ _ _ _ _ _ _ Hd) as [L1 [_ L2]].
  pose proof (write_safety_spec rho vd ltac:(congruence)) as Hsafe.
  rewrite Hs in Hsafe. destruct Hsafe as (L3 & L4 & F1 & F2).
  assert (LP : List.length gridPhi = List.length gridH)
    by (rewrite HP; apply length_map).
  repeat split; try assumption.
  - rewrite HG. apply length_map.
  - rewrite HR, length_map. exact LP.
  - congruence.
  - congruence.
  - apply (strictly_increasing_tail _ _ Hinc).
Qed.

(** X11: [writeSphericalIsotropicModel] throws "gridh is too small" for a
    grid of one node, and nothing else of its own; the only other
    exception of the tabulation is that of [computeDensity], and with
    finite potentials it is thrown exactly when the last potential kept is
    not below 0, since the potentials kept are strictly increasing (with
    NDEBUG, and without it when the squares of the quadrature nodes are
    positive). *)
Theorem write_profiles_errors (gridh : list float) :
  (forall h, write_profiles M ndebug model df pot R_max [h] = Throw gridh_too_small) /\
  (forall e, write_profiles M ndebug model df pot R_max gridh = Throw e ->
             e = gridh_too_small \/ e = computeDensity_error) /\
  (forall gridH0, write_gridH M df gridh = Ok gridH0 ->
     let '(gridH, gridPhi, gridG, gridR) :=
       write_filter model R_max (value pot 0) gridH0 in
     Forall (fun x => is_finite x = true) gridPhi ->
     ndebug = true \/ GL_squares_positive M = true ->
     (write_profiles M ndebug model df pot R_max gridh = Throw computeDensity_error
      <-> gridPhi <> [] /\ (0 <=? last gridPhi 0) = true)).
Proof.
  split; [reflexivity|]. split.
  - intros e. unfold write_profiles.
    destruct (write_gridH M df gridh) as [gridH0| |] eqn:Eg; cbn [bind].
    + destruct (write_filter model R_max (value pot 0) gridH0) as [[[gH gP] gG] gR].
      destruct (computeDensity M ndebug df (phasevol model) gP true)
        as [[rho vd]| |] eqn:E; cbn [bind].
      * destruct (write_safety rho match vd with Some v => v | None => [] end);
          discriminate.
      * intros He. inversion He; subst. right.
        unfold computeDensity in E.
        destruct (computeDensity_i M ndebug df (phasevol model) gP true 0 gP
                    (zeros (List.length gP)) (zeros (List.length gP)))
          as [[res vd]| |] eqn:Ei; cbn [bind] in E; try discriminate E.
        inversion E; subst.
        apply (computeDensity_i_throws_only _ _ _ _ _ _ _ _ _ _ _ Ei).
      * discriminate.
    + intros He. inversion He; subst. left.
      destruct gridh as [|a [|b t]]; simpl in Eg; try discriminate Eg.
      inversion Eg. reflexivity.
    + discriminate.
  - intros gridH0 Hg.
    pose proof (write_filter_spec model R_max (value pot 0) gridH0) as Hspec.
    unfold write_profiles. rewrite Hg. cbn [bind].
    destruct (write_filter model R_max (value pot 0) gridH0) as [[[gH gP] gG] gR].
    destruct Hspec as (_ & _ & _ & _ & Hinc).
    apply strictly_increasing_tail in Hinc.
    intros HF Hb.
    destruct gP as [|p0 gP'].
    { split; [|intros [Hne _]; congruence].
      destruct ndebug; simpl; discriminate. }
    destruct (last (p0 :: gP') 0 <? 0) eqn:Hlast.
    + destruct (computeDensity_good_segments M df (phasevol model) true ndebug
                  (p0 :: gP')) as (rho & vd & ->).
      { destruct Hb as [Hb|Hb]; [left; exact Hb | right; split; assumption]. }
      { apply increasing_negative_good_segments;
          [exact HF | exact Hinc | right; exact Hlast]. }
      cbn [bind]. split.
      * destruct (write_safety rho match vd with Some v => v | None => [] end);
          discriminate.
      * intros [_ H0]. rewrite (leb_true_ltb_false _ _ H0) in Hlast. discriminate Hlast.
    + assert (H0 : (0 <=? last (p0 :: gP') 0) = true).
      { apply not_lt_zero_nonneg; [|exact Hlast].
        apply finite_not_nan.
        assert (Hin : In (last (p0 :: gP') 0) (p0 :: gP'))
          by (apply (proj2 (in_rev _ _)); rewrite <- (rev_involutive (p0 :: gP')) at 1;
              destruct (rev (p0 :: gP')) eqn:Er;
              [apply (f_equal (@List.length _)) in Er; rewrite length_rev in Er;
               discriminate Er|];
              simpl rev at 1; rewrite last_last; left; reflexivity).
        rewrite Forall_forall in HF. apply HF, Hin. }
      split; [intros _; split; [discriminate | exact H0]|]. intros _.
      assert (Hbad : existsb (fun d => d <=? 0) (deltas (p0 :: gP')) = true)
        by (apply nonnegative_last_bad_segment; [discriminate | exact H0]).
      assert (Hthrow : computeDensity M ndebug df (phasevol model) (p0 :: gP') true
                       = Throw computeDensity_error).
      { destruct ndebug.
        - apply (proj1 (proj2 (computeDensity_bad_segment M df (phasevol model) true
                                 true _ Hbad))).
        - destruct Hb as [Hb|Hb]; [discriminate Hb|].
          apply computeDensity_debug_bad_segment; assumption. }
      rewrite Hthrow. reflexivity.
Qed.

End WriteProfilesProperties.

(* ================================================================= *)
(** ** Construction of the 1d model: the steps of a successful call *)

Section ConstructionSteps.

Variable M : MathLib.
Variable pvol : PhaseVolume.
Variable df : IFunction.

Local Open Scope float_scope.

(** The steps of a successful construction, and the tables of the four
    interpolators in terms of their results. *)
Lemma SphericalIsotropicModel_new_steps (gridh : list float) (m : SphericalIsotropicModel) :
  SphericalIsotropicModel_new M pvol df gridh = Ok m ->
  let gridLogH := make_gridLogH M df gridh in
  exists gridF0 gridG gridH gridE i0 o0 gridF i1 o1 Phi0 innerE outerE iE oE
         sF sFG sFH sFE Fb Hb Gb F0 H0 G0,
    tabulate M pvol df gridLogH = Ok (gridF0, gridG, gridH, gridE) /\
    infer_Fslopes M df gridLogH gridF0 gridH = Ok (i0, o0) /\
    check_Fslopes gridF0 gridH i0 o0 = Ok (gridF, i1, o1) /\
    infer_Eslopes pvol gridG gridH gridE i1 = Ok (Phi0, innerE, outerE, iE, oE) /\
    interior_integrals M pvol df (segments gridLogH) = Ok (sF, sFG, sFH, sFE) /\
    back gridF = Ok Fb /\ back gridH = Ok Hb /\ back gridG = Ok Gb /\
    at_ gridF 0 = Ok F0 /\ at_ gridH 0 = Ok H0 /\ at_ gridG 0 = Ok G0 /\
    intf m = {| xval := gridH;
                fval := cumul_outside_in sF (- Fb * outerE / (1 + o1 / oE));
                fder := zip_with (fun f g => - f / g) gridF gridG |} /\
    intfg m = {| xval := gridH;
                 fval := update_back (fun x => x - Fb * Hb / (1 + o1))
                           (cumul_inside_out (F0 * H0 / (1 + i1)) sFG);
                 fder := update_back (fun _ => 0) gridF |} /\
    intfh m = {| xval := gridH;
                 fval := update_back
                           (fun x => x - Fb * pow_2 Hb / Gb / (1 + oE + o1))
                           (cumul_inside_out
                              (F0 * pow_2 H0 / G0 / (1 + iE + i1)) sFH);
                 fder := update_back (fun _ => 0)
                           (zip_with (fun fh g => fh / g)
                              (zip_with (fun f h => f * h) gridF gridH) gridG) |} /\
    intfE m = {| xval := gridH;
                 fval := update_back
                           (fun x => x + Fb * Hb * outerE / (1 + oE + o1))
                           (cumul_inside_out
                              (F0 * H0 * (if 0 <=? iE
                                          then - Phi0 / (1 + i1)
                                          else - innerE / (1 + i1 + iE))) sFE);
                 fder := update_back (fun _ => 0)
                           (zip_with (fun f e => - f * e) gridF gridE) |} /\
    back (fval (intfg m)) = Ok (totalMass m) /\
    (0 <? totalMass m) = true /\
    forallb (node_is_valid gridF gridG gridH gridE (fval (intf m)) (fval (intfg m))
               (fval (intfh m)) (fval (intfE m)))
            (seq 0 (List.length gridLogH)) = true.
Proof.
  unfold SphericalIsotropicModel_new. intros H. cbv zeta.
  destruct (tabulate M pvol df (make_gridLogH M df gridh))
    as [[[[gridF0 gridG] gridH] gridE]| |] eqn:Htab; try discriminate.
  cbn [bind] in H.
  destruct (infer_Fslopes M df (make_gridLogH M df gridh) gridF0 gridH)
    as [[i0 o0]| |] eqn:Hinf; try discriminate.
  cbn [bind] in H.
  destruct (check_Fslopes gridF0 gridH i0 o0) as [[[gridF i1] o1]| |] eqn:Hchk;
    try discriminate.
  cbn [bind] in H.
  destruct (infer_Eslopes pvol gridG gridH gridE i1)
    as [[[[[Phi0 innerE] outerE] iE] oE]| |] eqn:HE; try discriminate.
  cbn [bind] in H.
  destruct (interior_integrals M pvol df (segments (make_gridLogH M df gridh)))
    as [[[[sF sFG] sFH] sFE]| |] eqn:Hint; try discriminate.
  cbn [bind] in H.
  destruct (back gridF) as [Fb| |] eqn:EFb; try discriminate. cbn [bind] in H.
  destruct (back gridH) as [Hb| |] eqn:EHb; try discriminate. cbn [bind] in H.
  destruct (back gridG) as [Gb| |] eqn:EGb; try discriminate. cbn [bind] in H.
  destruct (at_ gridF 0) as [F0| |] eqn:EF0; try discriminate. cbn [bind] in H.
  destruct (at_ gridH 0) as [H0| |] eqn:EH0; try discriminate. cbn [bind] in H.
  destruct (at_ gridG 0) as [G0| |] eqn:EG0; try discriminate. cbn [bind] in H.
  match type of H with
  | bind (back ?v) _ = _ => set (gridFGint := v) in *
  end.
  destruct (back gridFGint) as [tm| |] eqn:Etm; try discriminate.
  cbn [bind] in H.
  destruct (negb (0 <? tm)) eqn:Epos; try discriminate.
  match type of H with
  | (if negb ?b then _ else _) = _ => destruct b eqn:Evalid; try discriminate
  end.
  cbn [negb] in H. inversion H; subst m; clear H.
  cbn [intf intfg intfh intfE fval totalMass].
  exists gridF0, gridG, gridH, gridE, i0, o0, gridF, i1, o1, Phi0, innerE, outerE, iE, oE,
         sF, sFG, sFH, sFE, Fb, Hb, Gb, F0, H0, G0.
  repeat (split; [first [assumption | reflexivity]|]).
  split; [apply negb_false_iff; exact Epos | exact Evalid].
Qed.

End ConstructionSteps.

(* ================================================================= *)
(** ** Construction of the 1d model: the tables *)

Section ConstructedTables.

Variable M : MathLib.
Variable pvol : PhaseVolume.
Variable df : IFunction.

Local Open Scope float_scope.

Lemma tabulate_rejects (pre post : list float) (x : float) :
  Forall (fun y => (0 <=? value df (exp M y)) = true) pre ->
  (0 <=? value df (exp M x)) = false ->
  tabulate M pvol df (pre ++ x :: post)
  = Throw (negative_df_error (exp M x) (value df (exp M x))).
Proof.
  intros Hpre Hx. induction pre as [|y pre IH]; simpl.
  - rewrite Hx. reflexivity.
  - inversion Hpre as [|? ? Hy Hpre']; subst. rewrite Hy. simpl.
    rewrite (IH Hpre'). reflexivity.
Qed.

(** X12: a DF that is negative or NaN at a node of the grid is rejected:
    the constructor throws the runtime error that reports the first such
    node h and the value f(h), before anything else is examined. *)
Theorem negative_df_rejected (gridh pre post : list float) (x : float) :
  make_gridLogH M df gridh = pre ++ x :: post ->
  Forall (fun y => (0 <=? value df (exp M y)) = true) pre ->
  (0 <=? value df (exp M x)) = false ->
  SphericalIsotropicModel_new M pvol df gridh
  = Throw (negative_df_error (exp M x) (value df (exp M x))).
Proof.
  intros Hg Hpre Hx. unfold SphericalIsotropicModel_new.
  rewrite Hg, (tabulate_rejects pre post x Hpre Hx). reflexivity.
Qed.

Lemma tabulate_spec (gridLogH gridF gridG gridH gridE : list float) :
  tabulate M pvol df gridLogH = Ok (gridF, gridG, gridH, gridE) ->
  gridH = map (exp M) gridLogH /\
  gridF = map (value df) gridH /\
  gridG = map (g_of pvol) gridH /\
  gridE = map (E_of pvol) gridH /\
  Forall (fun f => (0 <=? f) = true) gridF.
Proof.
  revert gridF gridG gridH gridE.
  induction gridLogH as [|x t IH]; simpl; intros F G H E Heq.
  - inversion Heq. repeat split; constructor.
  - destruct (0 <=? value df (exp M x)) eqn:Hx; try discriminate. simpl in Heq.
    destruct (tabulate M pvol df t) as [[[[F' G'] H'] E']| |]; try discriminate.
    simpl in Heq. inversion Heq; subst.
    destruct (IH _ _ _ _ eq_refl) as (-> & -> & -> & -> & HF).
    repeat split. constructor; assumption.
Qed.

Lemma length_cumul_outside_in (s : list float) (tail : float) :
  List.length (cumul_outside_in s tail) = S (List.length s).
Proof. induction s as [|a t IH]; simpl; auto. Qed.

Lemma length_zip_with (f : float -> float -> float) (a b : list float) :
  List.length a = List.length b -> List.length (zip_with f a b) = List.length a.
Proof.
  revert b. induction a as [|x a IH]; intros [|y b] H; simpl in *; try lia.
  rewrite IH by lia. reflexivity.
Qed.

Lemma nth_zip_with (f : float -> float -> float) (a b : list float) (i : nat) :
  (i < List.length a)%nat -> List.length a = List.length b ->
  nth i (zip_with f a b) 0 = f (nth i a 0) (nth i b 0).
Proof.
  revert b i. induction a as [|x a IH]; intros [|y b] i Hi H; simpl in *; try lia.
  destruct i as [|i]; [reflexivity|]. apply IH; lia.
Qed.

(** After [v.back() = c] each entry is the old one or [c]. *)
Lemma nth_update_back_const (c : float) (v : list float) (i : nat) :
  (i < List.length v)%nat ->
  nth i (update_back (fun _ => c) v) 0 = nth i v 0 \/
  nth i (update_back (fun _ => c) v) 0 = c.
Proof.
  revert i. induction v as [|a [|b t] IH]; intros i Hi.
  - simpl in Hi. lia.
  - destruct i as [|i]; [right; reflexivity | simpl in Hi; lia].
  - destruct i as [|i]; [left; reflexivity|].
    change (update_back (fun _ => c) (a :: b :: t))
      with (a :: update_back (fun _ => c) (b :: t)).
    cbn [nth]. apply IH. simpl in *. lia.
Qed.

Lemma check_inner_Fslope_spec (gridF gridH gridF1 : list float) (inner inner1 : float) :
  check_inner_Fslope gridF gridH inner = Ok (gridF1, inner1) ->
  List.length gridF1 = List.length gridF /\
  ((-1 <? inner1) = true \/ inner1 = 0).
Proof.
  unfold check_inner_Fslope. intros H.
  destruct (at_ gridF 0) as [f0| |]; try discriminate H. cbn [bind] in H.
  destruct (f0 <=? MIN_VALUE_ROUNDOFF).
  - inversion H; subst. split; [exact (length_set_nth 0 0 gridF) | right; reflexivity].
  - destruct (-1 <? inner) eqn:Hs; cbn [negb] in H.
    + inversion H; subst. split; [reflexivity | left; exact Hs].
    + destruct (at_ gridH 0); try discriminate H. cbn [bind] in H.
      destruct (at_ gridH 1); try discriminate H. cbn [bind] in H.
      destruct (at_ gridF 1); discriminate H.
Qed.

Lemma check_outer_Fslope_spec (gridF gridH gridF1 : list float) (outer outer1 : float) :
  check_outer_Fslope gridF gridH outer = Ok (gridF1, outer1) ->
  List.length gridF1 = List.length gridF /\
  ((outer1 <? -1) = true \/
   (outer1 = 0 /\
    gridF1 = set_nth (Z.to_nat (from_end (List.length gridF) 1)) 0 gridF /\
    exists fl, at_ gridF (from_end (List.length gridF) 1) = Ok fl)).
Proof.
  unfold check_outer_Fslope. intros H.
  destruct (at_ gridF (from_end (List.length gridF) 1)) as [fl| |] eqn:Efl;
    try discriminate H.
  cbn [bind] in H.
  destruct (fl <=? MIN_VALUE_ROUNDOFF).
  - inversion H; subst. split; [apply length_set_nth|]. right.
    repeat split. eauto.
  - destruct (outer <? -1) eqn:Hs; cbn [negb] in H.
    + inversion H; subst. split; [reflexivity | left; exact Hs].
    + destruct (at_ gridH (from_end (List.length gridF) 1)); try discriminate H.
      cbn [bind] in H.
      destruct (at_ gridH (from_end (List.length gridF) 2)); try discriminate H.
      cbn [bind] in H.
      destruct (at_ gridF (from_end (List.length gridF) 2)); discriminate H.
Qed.

Lemma check_Fslopes_length (gridF gridH gridF2 : list float) (i o i1 o1 : float) :
  check_Fslopes gridF gridH i o = Ok (gridF2, i1, o1) ->
  List.length gridF2 = List.length gridF.
Proof.
  unfold check_Fslopes. intros H.
  destruct (check_inner_Fslope gridF gridH i) as [[g1 i']| |] eqn:E1;
    try discriminate H.
  cbn [bind] in H.
  destruct (check_outer_Fslope g1 gridH o) as [[g2 o']| |] eqn:E2;
    try discriminate H.
  cbn [bind] in H. inversion H; subst.
  destruct (check_inner_Fslope_spec _ _ _ _ _ E1) as [L1 _].
  destruct (check_outer_Fslope_spec _ _ _ _ _ E2) as [L2 _]. congruence.
Qed.

(** A grid that the test on the potential accepts has two nodes or more. *)
Lemma infer_Eslopes_two_nodes (gridG gridH gridE : list float) (i1 : float)
    (r : float * float * float * float * float) :
  infer_Eslopes pvol gridG gridH gridE i1 = Ok r -> (2 <= List.length gridE)%nat.
Proof.
  unfold infer_Eslopes. intros H.
  destruct gridE as [|a [|b t]]; try (simpl; lia).
  - discriminate H.
  - unfold front, back, at_ in H. simpl in H.
    rewrite (ltb_irrefl a) in H. rewrite andb_false_r in H. simpl in H.
    discriminate H.
Qed.

(** The sizes and the common grid of the tables of a constructed model. *)
Lemma constructed_shape (gridh : list float) (m : SphericalIsotropicModel) :
  SphericalIsotropicModel_new M pvol df gridh = Ok m ->
  let n := List.length (make_gridLogH M df gridh) in
  (2 <= n)%nat /\
  (xval (intf m) = map (exp M) (make_gridLogH M df gridh) /\
   xval (intfg m) = xval (intf m) /\ xval (intfh m) = xval (intf m) /\
   xval (intfE m) = xval (intf m)) /\
  (List.length (fval (intf m)) = n /\ List.length (fval (intfg m)) = n /\
   List.length (fval (intfh m)) = n /\ List.length (fval (intfE m)) = n) /\
  (List.length (fder (intf m)) = n /\ List.length (fder (intfg m)) = n /\
   List.length (fder (intfh m)) = n /\ List.length (fder (intfE m)) = n).
Proof.
  intros Hnew. cbv zeta.
  destruct (SphericalIsotropicModel_new_steps M pvol df gridh m Hnew)
    as (gridF0 & gridG & gridH & gridE & i0 & o0 & gridF & i1 & o1 & Phi0 & innerE
        & outerE & iE & oE & sF & sFG & sFH & sFE & Fb & Hb & Gb & F0 & H0 & G0
        & Htab & _ & Hchk & HE & Hint & _ & _ & _ & _ & _ & _
        & -> & -> & -> & -> & _).
  cbv zeta in *. cbn [xval fval fder].
  destruct (tabulate_length _ _ _ _ _ _ _ _ Htab) as (LF & LG & LH & LE).
  destruct (tabulate_spec _ _ _ _ _ Htab) as (HH & _).
  destruct (interior_integrals_length _ _ _ _ _ _ _ _ Hint) as (L1 & L2 & L3 & L4).
  pose proof (check_Fslopes_length _ _ _ _ _ _ _ Hchk) as LF'.
  pose proof (infer_Eslopes_two_nodes _ _ _ _ _ HE) as Hn. rewrite LE in Hn.
  rewrite length_segments in L1, L2, L3, L4.
  split; [exact Hn|]. split; [repeat split; exact HH|].
  rewrite !length_update_back, !length_cumul_inside_out, length_cumul_outside_in.
  rewrite !length_zip_with; try (rewrite ?length_zip_with; congruence).
  rewrite L1, L2, L3, L4.
  repeat split; lia.
Qed.

End ConstructedTables.

(** ** Construction of the 1d model: what the final test accepts *)

Section ConstructedTablesValid.

Variable M : MathLib.
Variable pvol : PhaseVolume.
Variable df : IFunction.

Local Open Scope float_scope.

Lemma Forall_nth0 (P : float -> Prop) (l : list float) :
  (forall i, (i < List.length l)%nat -> P (nth i l 0)) -> Forall P l.
Proof.
  intros H. apply Forall_nth. intros i d Hi.
  rewrite (nth_indep l d 0 Hi). apply H, Hi.
Qed.

Lemma back_last (v : list float) (x : float) : back v = Ok x -> last v 0 = x /\ v <> [].
Proof.
  destruct v as [|a t]; [discriminate|]. unfold back. intros H. inversion H.
  split; [reflexivity | discriminate].
Qed.

(** What the test of step 5a accepted, table by table. *)
Lemma constructed_valid (gridh : list float) (m : SphericalIsotropicModel) :
  SphericalIsotropicModel_new M pvol df gridh = Ok m ->
  (Forall (fun x => is_finite x = true) (fval (intf m)) /\
   Forall (fun x => is_finite x = true) (fval (intfg m)) /\
   Forall (fun x => is_finite x = true) (fval (intfh m)) /\
   Forall (fun x => is_finite x = true) (fval (intfE m))) /\
  (Forall (fun d => (d <=? 0) = true) (fder (intf m)) /\
   Forall (fun d => (0 <=? d) = true) (fder (intfg m)) /\
   Forall (fun d => (0 <=? d) = true) (fder (intfh m)) /\
   Forall (fun d => (0 <=? d) = true) (fder (intfE m))) /\
  (last (fval (intfg m)) 0 = totalMass m /\
   is_finite (totalMass m) = true /\ (0 <? totalMass m) = true).
Proof.
  intros Hnew.
  pose proof (constructed_shape M pvol df gridh m Hnew) as Hshape. cbv zeta in Hshape.
  destruct Hshape as (Hn & _ & (LV1 & LV2 & LV3 & LV4) & (LD1 & LD2 & LD3 & LD4)).
  destruct (SphericalIsotropicModel_new_steps M pvol df gridh m Hnew)
    as (gridF0 & gridG & gridH & gridE & i0 & o0 & gridF & i1 & o1 & Phi0 & innerE
        & outerE & iE & oE & sF & sFG & sFH & sFE & Fb & Hb & Gb & F0 & H0 & G0
        & Htab & _ & Hchk & HE & Hint & _ & _ & _ & _ & _ & _
        & E1 & E2 & E3 & E4 & Htm & Hpos & Hvalid).
  cbv zeta in *.
  destruct (tabulate_length _ _ _ _ _ _ _ _ Htab) as (LF & LG & LH & LE).
  pose proof (check_Fslopes_length _ _ _ _ _ _ _ Hchk) as LF'.
  set (n := List.length (make_gridLogH M df gridh)) in *.
  assert (Hnode : forall i, (i < n)%nat ->
            node_is_valid gridF gridG gridH gridE (fval (intf m)) (fval (intfg m))
              (fval (intfh m)) (fval (intfE m)) i = true).
  { intros i Hi. rewrite forallb_forall in Hvalid. apply Hvalid.
    apply in_seq. lia. }
  assert (Hfin : forall i, (i < n)%nat ->
            is_finite (nth i (fval (intf m)) 0) = true /\
            is_finite (nth i (fval (intfg m)) 0) = true /\
            is_finite (nth i (fval (intfh m)) 0) = true /\
            is_finite (nth i (fval (intfE m)) 0) = true).
  { intros i Hi. specialize (Hnode i Hi). unfold node_is_valid in Hnode.
    apply andb_true_iff in Hnode. destruct Hnode as [_ HF].
    apply add_finite_inv in HF. destruct HF as [HF F4].
    apply add_finite_inv in HF. destruct HF as [HF F3].
    apply add_finite_inv in HF. destruct HF as [F1 F2]. auto. }
  assert (Hsgn : forall i, (i < n)%nat ->
            (- nth i gridF 0 / nth i gridG 0 <=? 0) = true /\
            (0 <=? nth i gridF 0) = true /\
            (0 <=? nth i gridF 0 * nth i gridH 0 / nth i gridG 0) = true /\
            (0 <=? - nth i gridF 0 * nth i gridE 0) = true).
  { intros i Hi. specialize (Hnode i Hi). unfold node_is_valid in Hnode.
    repeat (apply andb_true_iff in Hnode; destruct Hnode as [Hnode ?]). auto. }
  split; [|split].
  - repeat split; apply Forall_nth0; intros i Hi;
      [rewrite LV1 in Hi | rewrite LV2 in Hi | rewrite LV3 in Hi | rewrite LV4 in Hi];
      apply (Hfin i Hi).
  - rewrite E1, E2, E3, E4 in *. cbn [fder fval] in *.
    repeat split; apply Forall_nth0; intros i Hi.
    + rewrite LD1 in Hi. rewrite nth_zip_with by lia. apply (Hsgn i Hi).
    + pose proof Hi as Hi'. rewrite LD2 in Hi'.
      rewrite length_update_back in Hi.
      destruct (nth_update_back_const 0 gridF i Hi) as [-> | ->];
        [apply (Hsgn i Hi') | reflexivity].
    + pose proof Hi as Hi'. rewrite LD3 in Hi'.
      rewrite length_update_back in Hi.
      destruct (nth_update_back_const 0 _ i Hi) as [-> | ->]; [|reflexivity].
      rewrite nth_zip_with;
        [|rewrite length_zip_with; lia|rewrite length_zip_with; lia].
      rewrite nth_zip_with by lia. apply (Hsgn i Hi').
    + pose proof Hi as Hi'. rewrite LD4 in Hi'.
      rewrite length_update_back in Hi.
      destruct (nth_update_back_const 0 _ i Hi) as [-> | ->]; [|reflexivity].
      rewrite nth_zip_with by lia. apply (Hsgn i Hi').
  - destruct (back_last _ _ Htm) as [Hlast _]. split; [exact Hlast|].
    split; [|exact Hpos].
    rewrite <- Hlast, <- nth_last. apply (Hfin (List.length (fval (intfg m)) - 1)%nat).
    lia.
Qed.

(** X13: a constructed model has two grid nodes or more; its four
    interpolators are tabulated on one grid, h_i = exp(log h_i), with one
    value and one derivative per node; every tabulated value is a finite
    number. *)
Theorem constructed_tables_shape (gridh : list float) (m : SphericalIsotropicModel) :
  SphericalIsotropicModel_new M pvol df gridh = Ok m ->
  let n := List.length (make_gridLogH M df gridh) in
  (2 <= n)%nat /\
  (xval (intf m) = map (exp M) (make_gridLogH M df gridh) /\
   xval (intfg m) = xval (intf m) /\ xval (intfh m) = xval (intf m) /\
   xval (intfE m) = xval (intf m)) /\
  (List.length (fval (intf m)) = n /\ List.length (fval (intfg m)) = n /\
   List.length (fval (intfh m)) = n /\ List.length (fval (intfE m)) = n) /\
  (List.length (fder (intf m)) = n /\ List.length (fder (intfg m)) = n /\
   List.length (fder (intfh m)) = n /\ List.length (fder (intfE m)) = n) /\
  (Forall (fun x => is_finite x = true) (fval (intf m)) /\
   Forall (fun x => is_finite x = true) (fval (intfg m)) /\
   Forall (fun x => is_finite x = true) (fval (intfh m)) /\
   Forall (fun x => is_finite x = true) (fval (intfE m))).
Proof.
  intros Hnew. cbv zeta.
  pose proof (constructed_shape M pvol df gridh m Hnew) as (H1 & H2 & H3 & H4).
  pose proof (constructed_valid gridh m Hnew) as (H5 & _).
  repeat split; try apply H2; try apply H3; try apply H4; try apply H5; exact H1.
Qed.

(** X14: in a constructed model the total mass is a finite positive number,
    the last tabulated value of the cumulative mass; the tabulated
    derivative of I0 is nowhere positive, and those of the cumulative mass
    (which is f), of the kinetic and of the total energy nowhere negative. *)
Theorem constructed_derivative_signs (gridh : list float) (m : SphericalIsotropicModel) :
  SphericalIsotropicModel_new M pvol df gridh = Ok m ->
  (last (fval (intfg m)) 0 = totalMass m /\
   is_finite (totalMass m) = true /\ (0 <? totalMass m) = true) /\
  Forall (fun d => (d <=? 0) = true) (fder (intf m)) /\
  Forall (fun d => (0 <=? d) = true) (fder (intfg m)) /\
  Forall (fun d => (0 <=? d) = true) (fder (intfh m)) /\
  Forall (fun d => (0 <=? d) = true) (fder (intfE m)).
Proof.
  intros Hnew.
  pose proof (constructed_valid gridh m Hnew) as (_ & H2 & H3).
  split; [exact H3|]. exact H2.
Qed.

End ConstructedTablesValid.

(* ================================================================= *)
(** ** Construction of the 1d model: the cumulative mass at the nodes *)

Section CumulativeMassTable.

Variable M : MathLib.
Variable pvol : PhaseVolume.
Variable df : IFunction.

Hypothesis exp_not_negative : forall x, (exp M x <? 0)%float = false.

Local Open Scope float_scope.

Lemma segment_loop_FG_finite (glorder : nat) (logh0 dlogh : float) (ks : list nat)
    (acc res : float * float * float * float) :
  segment_loop M pvol df glorder logh0 dlogh ks acc = Ok res ->
  is_finite (FG_of res) = true -> is_finite (FG_of acc) = true.
Proof.
  revert acc. induction ks as [|k ks IH]; intros [[[aF aFG] aFH] aFE] H HF;
    cbn [segment_loop] in H.
  - inversion H; subst. exact HF.
  - destruct (negb (0 <=? value df (exp M (logh0 + dlogh * GLPOINTS M glorder k))));
      [discriminate H|].
    specialize (IH _ H HF). unfold FG_of in IH; cbn [fst snd] in IH.
    apply add_finite_inv in IH. apply IH.
Qed.

Lemma segment_loop_FG_signed (glorder : nat) (logh0 dlogh : float) (ks : list nat)
    (acc res : float * float * float * float) :
  Forall (fun k => (GLWEIGHTS M glorder k <? 0) = false) ks ->
  signed false dlogh ->
  segment_loop M pvol df glorder logh0 dlogh ks acc = Ok res ->
  is_finite (FG_of res) = true -> signed false (FG_of acc) ->
  signed false (FG_of res).
Proof.
  intros Hw Hd. revert acc.
  induction ks as [|k ks IH]; intros [[[aF aFG] aFH] aFE] H HF Hacc;
    cbn [segment_loop] in H.
  - inversion H; subst. exact Hacc.
  - inversion Hw as [|? ? Hk Hw']; subst.
    destruct (0 <=? value df (exp M (logh0 + dlogh * GLPOINTS M glorder k))) eqn:Hf;
      [|discriminate H].
    cbn [negb] in H.
    pose proof (segment_loop_FG_finite _ _ _ _ _ _ H HF) as Facc'.
    unfold FG_of in Facc', Hacc; cbn [fst snd] in Facc', Hacc.
    apply (IH Hw' _ H HF). unfold FG_of; cbn [fst snd].
    apply add_signed; [exact Hacc | | exact Facc'].
    apply add_finite_inv in Facc'. destruct Facc' as [_ Fint].
    pose proof (finite_not_nan _ Fint) as N2.
    destruct (mul_finite_inv _ _ Fint) as [Ffh Fw].
    pose proof (finite_not_nan _ Ffh) as N1.
    destruct (mul_finite_inv _ _ Ffh) as [Ff Fh].
    pose proof (finite_not_nan _ Fw) as N3.
    destruct (mul_finite_inv _ _ Fw) as [Fgl _].
    assert (Sf : signed false (value df (exp M (logh0 + dlogh * GLPOINTS M glorder k))))
      by (apply signed_false_iff; exact Hf).
    assert (Sh : signed false (exp M (logh0 + dlogh * GLPOINTS M glorder k)))
      by (apply not_lt_zero_signed; [apply finite_not_nan, Fh | apply exp_not_negative]).
    assert (Sgl : signed false (GLWEIGHTS M glorder k))
      by (apply not_lt_zero_signed; [apply finite_not_nan, Fgl | exact Hk]).
    pose proof (mul_signed _ _ _ _ Sf Sh N1) as S1.
    pose proof (mul_signed _ _ _ _ Sgl Hd N3) as S2.
    exact (mul_signed _ _ _ _ S1 S2 N2).
Qed.

Lemma forallb_weights (order : nat) :
  forallb (fun k => negb (GLWEIGHTS M order k <? 0)) (seq 0 order) = true ->
  Forall (fun k => (GLWEIGHTS M order k <? 0) = false) (seq 0 order).
Proof.
  intros H. apply Forall_forall. intros k Hk.
  rewrite forallb_forall in H. apply negb_true_iff, H, Hk.
Qed.

Lemma segment_integrals_FG_signed (seg : float * float)
    (res : float * float * float * float) :
  GL_weights_nonnegative M = true ->
  (is_finite (snd seg - fst seg) = true -> signed false (snd seg - fst seg)) ->
  segment_integrals M pvol df seg = Ok res ->
  is_finite (FG_of res) = true -> signed false (FG_of res).
Proof.
  intros Hw Hd H HF. unfold segment_integrals in H.
  apply andb_true_iff in Hw. destruct Hw as [Hw1 Hw2].
  assert (Hks : Forall (fun k => (GLWEIGHTS M
                  (if snd seg - fst seg <? GLDELTA then GLORDER1 else GLORDER2) k <? 0)
                  = false)
                  (seq 0 (if snd seg - fst seg <? GLDELTA then GLORDER1 else GLORDER2)))
    by (destruct (snd seg - fst seg <? GLDELTA); apply forallb_weights; assumption).
  destruct (is_finite (snd seg - fst seg)) eqn:Fd.
  - apply (segment_loop_FG_signed _ _ _ _ _ _ Hks (Hd eq_refl) H HF). exact I.
  - (* a segment of infinite or undefined length gives no finite sum *)
    exfalso. clear Hks Hd.
    set (order := if snd seg - fst seg <? GLDELTA then GLORDER1 else GLORDER2) in *.
    assert (Hord : order = GLORDER1 \/ order = GLORDER2)
      by (unfold order; destruct (snd seg - fst seg <? GLDELTA); auto).
    assert (Hseq : exists k ks, seq 0 order = k :: ks)
      by (destruct Hord as [-> | ->]; do 2 eexists; reflexivity).
    destruct Hseq as (k & ks & Hseq). rewrite Hseq in H.
    cbn [segment_loop] in H.
    destruct (negb (0 <=? value df (exp M (fst seg + (snd seg - fst seg)
                                           * GLPOINTS M order k))));
      [discriminate H|].
    pose proof (segment_loop_FG_finite _ _ _ _ _ _ H HF) as Facc.
    unfold FG_of in Facc; cbn [fst snd] in Facc.
    apply add_finite_inv in Facc. destruct Facc as [_ Fint].
    apply mul_finite_inv in Fint. destruct Fint as [_ Fw].
    apply mul_finite_inv in Fw. destruct Fw as [_ Fd']. congruence.
Qed.

Lemma interior_integrals_FG_signed (segs : list (float * float))
    (sF sFG sFH sFE : list float) :
  GL_weights_nonnegative M = true ->
  Forall (fun seg => is_finite (snd seg - fst seg) = true ->
                     signed false (snd seg - fst seg)) segs ->
  interior_integrals M pvol df segs = Ok (sF, sFG, sFH, sFE) ->
  Forall (fun s => is_finite s = true -> signed false s) sFG.
Proof.
  intros Hw. revert sF sFG sFH sFE.
  induction segs as [|seg t IH]; intros sF sFG sFH sFE Hd H; cbn [interior_integrals] in H.
  - inversion H; subst. constructor.
  - inversion Hd as [|? ? Hseg Hd']; subst.
    destruct (segment_integrals M pvol df seg) as [[[[a b] c] d]| |] eqn:Es;
      try discriminate H.
    cbn [bind] in H.
    destruct (interior_integrals M pvol df t) as [[[[F' FG'] FH'] FE']| |] eqn:Et;
      try discriminate H.
    cbn [bind] in H. inversion H; subst. constructor.
    + intros Fb. exact (segment_integrals_FG_signed seg _ Hw Hseg Es Fb).
    + apply (IH _ _ _ _ Hd' eq_refl).
Qed.

Lemma nondecreasing_cons (a b : float) (t : list float) :
  nondecreasing (a :: b :: t) = (a <=? b) && nondecreasing (b :: t).
Proof. reflexivity. Qed.

Lemma cumul_inside_out_cons (first a : float) (t : list float) :
  cumul_inside_out first (a :: t) = first :: cumul_inside_out (a + first) t.
Proof. reflexivity. Qed.

Lemma cumul_inside_out_head (first : float) (s : list float) :
  exists t, cumul_inside_out first s = first :: t.
Proof. destruct s; simpl; eauto. Qed.

(** Partial sums of terms that are zero or positive do not decrease, as
    long as they stay finite. *)
Lemma cumul_inside_out_nondecreasing (first : float) (s : list float) :
  Forall (fun x => is_finite x = true -> signed false x) s ->
  Forall (fun x => is_finite x = true) (cumul_inside_out first s) ->
  nondecreasing (cumul_inside_out first s) = true.
Proof.
  revert first. induction s as [|a t IH]; intros first Hs HF.
  - reflexivity.
  - rewrite cumul_inside_out_cons in *.
    inversion Hs as [|? ? Ha Hs']; subst.
    inversion HF as [|? ? Ffirst HF']; subst.
    destruct (cumul_inside_out_head (a + first) t) as [t' Et].
    rewrite Et in *. rewrite nondecreasing_cons.
    inversion HF' as [|? ? Fsum _]; subst.
    destruct (add_finite_inv _ _ Fsum) as [Fa _].
    rewrite (add_comm a first).
    rewrite (add_signed_le first a Ffirst (Ha Fa)). cbn [andb].
    rewrite <- (add_comm a first), <- Et. apply IH; [exact Hs'|].
    rewrite Et. exact HF'.
Qed.

Lemma update_back_sub_finite (c : float) (v : list float) :
  Forall (fun x => is_finite x = true) (update_back (fun x => x - c) v) ->
  Forall (fun x => is_finite x = true) v /\ (v <> [] -> is_finite c = true).
Proof.
  induction v as [|a [|b t] IH]; intros H.
  - split; [constructor | congruence].
  - simpl in H. inversion H as [|? ? Ha _]; subst.
    apply sub_finite_inv in Ha. destruct Ha as [Fa Fc].
    split; [repeat constructor; exact Fa | intros _; exact Fc].
  - change (update_back (fun x => x - c) (a :: b :: t))
      with (a :: update_back (fun x => x - c) (b :: t)) in H.
    inversion H as [|? ? Ha H']; subst. destruct (IH H') as [Hv Hc].
    split; [constructor; assumption | intros _; apply Hc; discriminate].
Qed.

Lemma update_back_sub_nondecreasing (c : float) (v : list float) :
  Forall (fun x => is_finite x = true) v -> signed true c ->
  nondecreasing v = true ->
  nondecreasing (update_back (fun x => x - c) v) = true.
Proof.
  intros HF Hc. induction v as [|a [|b t] IH]; intros Hv; try reflexivity.
  change (update_back (fun x => x - c) (a :: b :: t))
    with (a :: update_back (fun x => x - c) (b :: t)).
  rewrite nondecreasing_cons in Hv. apply andb_true_iff in Hv. destruct Hv as [Hab Hv].
  inversion HF as [|? ? Fa HF']; subst.
  specialize (IH HF' Hv).
  destruct t as [|b' t'].
  - simpl. rewrite andb_true_r. inversion HF' as [|? ? Fb _]; subst.
    eapply leb_trans; [exact Hab | apply sub_signed_le; assumption].
  - change (update_back (fun x => x - c) (b :: b' :: t'))
      with (b :: update_back (fun x => x - c) (b' :: t')) in *.
    rewrite nondecreasing_cons, Hab. exact IH.
Qed.

(** The entries of a non-decreasing vector lie between the first and the
    last. *)
Lemma nondecreasing_bounds (v : list float) :
  Forall (fun x => is_finite x = true) v -> nondecreasing v = true ->
  Forall (fun x => (hd 0 v <=? x) = true /\ (x <=? last v 0) = true) v.
Proof.
  induction v as [|a [|b t] IH]; intros HF Hv.
  - constructor.
  - inversion HF as [|? ? Fa _]; subst. constructor; [|constructor].
    simpl. split; apply leb_refl_finite, Fa.
  - inversion HF as [|? ? Fa HF']; subst.
    rewrite nondecreasing_cons in Hv. apply andb_true_iff in Hv. destruct Hv as [Hab Hv].
    specialize (IH HF' Hv).
    change (last (a :: b :: t) 0) with (last (b :: t) 0).
    cbn [hd] in *.
    assert (Hb : (b <=? last (b :: t) 0) = true)
      by (inversion IH as [|? ? [_ Hb] _]; exact Hb).
    constructor.
    + split; [apply leb_refl_finite, Fa | eapply leb_trans; eassumption].
    + eapply Forall_impl; [|exact IH]. intros x [H1 H2]. cbv beta.
      split; [eapply leb_trans; eassumption | exact H2].
Qed.


Lemma segments_nondecreasing (v : list float) :
  nondecreasing v = true ->
  Forall (fun seg => is_finite (snd seg - fst seg) = true ->
                     signed false (snd seg - fst seg)) (segments v).
Proof.
  induction v as [|a [|b t] IH]; intros Hv; try (simpl; constructor).
  - cbn [snd fst]. intros HF. apply sub_finite_inv in HF. destruct HF as [_ Fa].
    rewrite nondecreasing_cons in Hv. apply andb_true_iff in Hv.
    apply signed_false_iff, sub_le_nonneg; [exact Fa | apply Hv].
  - apply IH. rewrite nondecreasing_cons in Hv. apply andb_true_iff in Hv. apply Hv.
Qed.

Lemma last_set_nth (x : float) (v : list float) :
  v <> [] -> last (set_nth (List.length v - 1) x v) 0 = x.
Proof.
  induction v as [|a [|b t] IH]; intros Hv.
  - congruence.
  - reflexivity.
  - replace (List.length (a :: b :: t) - 1)%nat with (S (List.length (b :: t) - 1))
      by (simpl; lia).
    cbn [set_nth]. specialize (IH ltac:(discriminate)).
    destruct (set_nth (List.length (b :: t) - 1) x (b :: t)) as [|c r] eqn:E.
    + apply (f_equal (@List.length float)) in E. rewrite length_set_nth in E.
      discriminate E.
    + exact IH.
Qed.

(** What the checks of step 3b leave: an inner slope above -1 or a zero
    first value with slope 0; an outer slope below -1 or a zero last value
    with slope 0. *)
Lemma check_Fslopes_spec (gridF0 gridH gridF : list float) (i0 o0 i1 o1 : float) :
  check_Fslopes gridF0 gridH i0 o0 = Ok (gridF, i1, o1) ->
  (Z.of_nat (List.length gridF0) < 2 ^ 32)%Z ->
  ((-1 <? i1) = true \/ i1 = 0) /\
  ((o1 <? -1) = true \/ (o1 = 0 /\ last gridF 0 = 0)).
Proof.
  unfold check_Fslopes. intros H Hlen.
  destruct (check_inner_Fslope gridF0 gridH i0) as [[g1 i']| |] eqn:E1;
    try discriminate H.
  cbn [bind] in H.
  destruct (check_outer_Fslope g1 gridH o0) as [[g2 o']| |] eqn:E2;
    try discriminate H.
  cbn [bind] in H. inversion H; subst.
  destruct (check_inner_Fslope_spec _ _ _ _ _ E1) as [L1 Hi].
  destruct (check_outer_Fslope_spec _ _ _ _ _ E2) as [L2 Ho].
  split; [exact Hi|].
  destruct Ho as [Ho | (-> & -> & fl & Hfl)]; [left; exact Ho | right].
  split; [reflexivity|].
  assert (Hne : g1 <> []).
  { intros ->. unfold at_ in Hfl. simpl in Hfl. discriminate Hfl. }
  assert (Hl : (1 <= List.length g1)%nat) by (destruct g1; [congruence | simpl; lia]).
  rewrite from_end_in_range by lia.
  rewrite Nat2Z.id. change (Z.to_nat 1) with 1%nat.
  apply last_set_nth, Hne.
Qed.

Lemma zero_flux_signed (h : float) :
  is_finite (0 * h / (1 + 0)) = true -> signed true (0 * h / (1 + 0)).
Proof.
  intros HF. apply div_finite_inv in HF. destruct HF as [HF _].
  apply mul_finite_inv in HF. destruct HF as [_ Fh].
  apply finite_SF_is_finite in Fh.
  unfold signed. rewrite div_spec, mul_spec.
  change (Prim2SF (1 + 0)) with (S754_finite false 4503599627370496 (-52)).
  change (Prim2SF 0) with (S754_zero false).
  destruct (Prim2SF h) as [s| s | |s m e]; try contradiction; exact I.
Qed.

Lemma constructed_cumulative_mass (gridh : list float) (m : SphericalIsotropicModel) :
  GL_weights_nonnegative M = true ->
  nondecreasing (make_gridLogH M df gridh) = true ->
  (Z.of_nat (List.length (make_gridLogH M df gridh)) < 2 ^ 32)%Z ->
  SphericalIsotropicModel_new M pvol df gridh = Ok m ->
  nondecreasing (fval (intfg m)) = true /\ (0 <=? hd 0 (fval (intfg m))) = true.
Proof.
  intros Hw Hgrid Hlen Hnew.
  pose proof (constructed_shape M pvol df gridh m Hnew) as Hshape. cbv zeta in Hshape.
  destruct Hshape as (Hn & _ & _ & _).
  pose proof (constructed_valid M pvol df gridh m Hnew) as ((_ & HFG & _ & _) & _ & _).
  destruct (SphericalIsotropicModel_new_steps M pvol df gridh m Hnew)
    as (gridF0 & gridG & gridH & gridE & i0 & o0 & gridF & i1 & o1 & Phi0 & innerE
        & outerE & iE & oE & sF & sFG & sFH & sFE & Fb & Hb & Gb & F0 & H0 & G0
        & Htab & _ & Hchk & _ & Hint & HFb & HHb & _ & HF0 & HH0 & _
        & _ & E2 & _ & _ & _ & _ & Hvalid).
  cbv zeta in *.
  destruct (tabulate_length _ _ _ _ _ _ _ _ Htab) as (LF & LG & LH & LE).
  destruct (tabulate_spec M pvol df _ _ _ _ _ Htab) as (EH & _ & _ & _ & _).
  pose proof (check_Fslopes_length _ _ _ _ _ _ _ Hchk) as LF'.
  destruct (check_Fslopes_spec _ _ _ _ _ _ _ Hchk ltac:(rewrite LF; exact Hlen))
    as [Hi Ho].
  destruct (interior_integrals_length _ _ _ _ _ _ _ _ Hint) as (_ & LsFG & _ & _).
  rewrite length_segments in LsFG.
  set (n := List.length (make_gridLogH M df gridh)) in *.
  assert (Hnode : forall i, (i < n)%nat -> signed false (nth i gridF 0)).
  { intros i Hi'. rewrite forallb_forall in Hvalid.
    specialize (Hvalid i ltac:(apply in_seq; lia)). unfold node_is_valid in Hvalid.
    apply andb_true_iff in Hvalid. destruct Hvalid as [Hvalid _].
    apply andb_true_iff in Hvalid. destruct Hvalid as [Hvalid _].
    apply andb_true_iff in Hvalid. destruct Hvalid as [Hvalid _].
    apply andb_true_iff in Hvalid. destruct Hvalid as [_ HF].
    apply signed_false_iff, HF. }
  assert (Hexp : forall x, In x gridH -> (x <? 0) = false).
  { intros x Hx. rewrite EH in Hx. apply in_map_iff in Hx.
    destruct Hx as (y & <- & _). apply exp_not_negative. }
  (* the end values *)
  destruct (back_last _ _ HFb) as [EFb NF]. destruct (back_last _ _ HHb) as [EHb NH].
  destruct (at_0_inv _ _ HF0) as [tF EF]. destruct (at_0_inv _ _ HH0) as [tH EHH].
  assert (SFb : signed false Fb).
  { rewrite <- EFb, <- nth_last. apply Hnode. rewrite LF', LF. lia. }
  assert (SF0 : signed false F0).
  { specialize (Hnode 0%nat ltac:(lia)). rewrite EF in Hnode. exact Hnode. }
  assert (NHb : (Hb <? 0) = false).
  { apply Hexp. rewrite <- EHb.
    destruct gridH as [|a t]; [congruence|]. apply (@exists_last float) in NH.
    destruct NH as (l' & a' & ->). rewrite last_last. apply in_or_app. right. left.
    reflexivity. }
  assert (NH0 : (H0 <? 0) = false) by (apply Hexp; rewrite EHH; left; reflexivity).
  (* the table *)
  rewrite E2 in HFG |- *. cbn [fval] in HFG |- *.
  set (first := F0 * H0 / (1 + i1)) in *.
  set (c := Fb * Hb / (1 + o1)) in *.
  destruct (update_back_sub_finite c _ HFG) as [HFc Fc].
  specialize (Fc ltac:(destruct sFG; discriminate)).
  assert (Sc : signed true c).
  { destruct Ho as [Ho | [-> EL]].
    - change true with (xorb false true).
      apply div_signed_finite; [| apply one_plus_below, Ho | exact Fc].
      destruct (div_finite_inv _ _ Fc) as [Fm _].
      destruct (mul_finite_inv _ _ Fm) as [_ FHb].
      change false with (xorb false false).
      apply mul_signed; [exact SFb | | apply finite_not_nan, Fm].
      apply not_lt_zero_signed; [apply finite_not_nan, FHb | exact NHb].
    - assert (Fb = 0) as -> by congruence.
      apply zero_flux_signed, Fc. }
  split.
  - apply update_back_sub_nondecreasing; [exact HFc | exact Sc|].
    apply cumul_inside_out_nondecreasing; [|exact HFc].
    apply (interior_integrals_FG_signed _ sF sFG sFH sFE Hw
             (segments_nondecreasing _ Hgrid) Hint).
  - destruct sFG as [|a t]; [simpl in LsFG; lia|].
    rewrite cumul_inside_out_cons in HFc |- *.
    destruct (cumul_inside_out_head (a + first) t) as [t' Et]. rewrite Et in *.
    change (update_back (fun x => x - c) (first :: (a + first) :: t'))
      with (first :: update_back (fun x => x - c) ((a + first) :: t')).
    cbn [hd]. inversion HFc as [|? ? Ffirst _]; subst.
    apply signed_false_iff. change false with (xorb false false).
    apply div_signed_finite; [| | exact Ffirst].
    + destruct (div_finite_inv _ _ Ffirst) as [Fm _].
      destruct (mul_finite_inv _ _ Fm) as [_ FH0].
      change false with (xorb false false).
      apply mul_signed; [exact SF0 | | apply finite_not_nan, Fm].
      apply not_lt_zero_signed; [apply finite_not_nan, FH0 | exact NH0].
    + destruct Hi as [Hi | ->]; [apply one_plus_above, Hi|].
      apply signed_false_iff. reflexivity.
Qed.

(** X15: when the exponential of the library is never negative, the
    Gauss-Legendre weights are not negative and the nodes of the grid in
    log(h) do not decrease, the tabulated cumulative mass of a constructed
    model does not decrease from node to node, and every tabulated value
    lies between 0 and the total mass. *)
Theorem cumulative_mass_monotonic (gridh : list float) (m : SphericalIsotropicModel) :
  GL_weights_nonnegative M = true ->
  nondecreasing (make_gridLogH M df gridh) = true ->
  (Z.of_nat (List.length (make_gridLogH M df gridh)) < 2 ^ 32)%Z ->
  SphericalIsotropicModel_new M pvol df gridh = Ok m ->
  nondecreasing (fval (intfg m)) = true /\
  Forall (fun x => (0 <=? x) = true /\ (x <=? totalMass m) = true) (fval (intfg m)).
Proof.
  intros Hw Hgrid Hlen Hnew.
  destruct (constructed_cumulative_mass gridh m Hw Hgrid Hlen Hnew) as [Hmono H0].
  pose proof (constructed_valid M pvol df gridh m Hnew)
    as ((_ & HFG & _ & _) & _ & (Hlast & _ & _)).
  split; [exact Hmono|].
  eapply Forall_impl; [|exact (nondecreasing_bounds _ HFG Hmono)].
  intros x [H1 H2]. cbv beta. rewrite <- Hlast.
  split; [eapply leb_trans; eassumption | exact H2].
Qed.

End CumulativeMassTable.

(* ================================================================= *)
(** ** Analytic potentials *)

Section ExactSigns.

(** A square has the sign bit clear. *)
Lemma SFsquare_sign (x : spec_float) :
  SF64mul x x <> S754_nan -> has_sign false (SF64mul x x).
Proof.
  destruct x as [s|s| |s m e]; unfold SF64mul, SFmul; try congruence; intros _.
  - destruct s; reflexivity.
  - destruct s; reflexivity.
  - replace (xorb s s) with false by (destruct s; reflexivity).
    apply binary_round_aux_sign. lia.
Qed.

(** So has the sum of two values that have it clear. *)
Lemma SFadd_sign_false (a b : spec_float) :
  has_sign false a -> has_sign false b -> SF64add a b <> S754_nan ->
  has_sign false (SF64add a b).
Proof.
  intros Ha Hb Hn.
  destruct a as [sa|sa| |sa ma ea]; try contradiction; simpl in Ha; subst sa;
    destruct b as [sb|sb| |sb mb eb]; try contradiction; simpl in Hb; subst sb;
    unfold SF64add, SFadd in *; try exact eq_refl.
  cbv beta iota delta [cond_Zopp].
  apply binary_normalize_nonneg. lia.
Qed.

(** And the square root of such a value. *)
Lemma SFsqrt_sign_false (x : spec_float) :
  has_sign false x -> has_sign false (SF64sqrt x).
Proof.
  destruct x as [s|s| |s m e]; try contradiction; simpl; intros ->;
    unfold SF64sqrt, SFsqrt; try exact eq_refl.
  pose proof (SFsqrt_core_nonneg m e) as H.
  destruct (SFsqrt_core_binary prec emax (Z.pos m) e) as [[mz ez] lz].
  cbn [fst] in H. apply binary_round_aux_sign, H.
Qed.

(** A quotient by a value of known sign bit. *)
Lemma SFdiv_signed_by_sign (sx sy : bool) (x y : spec_float) :
  SFsigned sx x -> has_sign sy y -> SF64div x y <> S754_nan ->
  SFsigned (xorb sx sy) (SF64div x y).
Proof.
  intros Hx Hy Hn.
  destruct x as [s1|s1| |s1 m1 e1]; try contradiction;
    destruct y as [s2|s2| |s2 m2 e2]; try contradiction;
    unfold SF64div, SFdiv in *; simpl in Hx, Hy; subst;
    try exact I; try reflexivity; try congruence.
  pose proof (SFdiv_core_nonneg m1 m2 e1 e2) as H.
  destruct (SFdiv_core_binary prec emax (Z.pos m1) e1 (Z.pos m2) e2) as [[mz ez] lz].
  cbn [fst] in H. apply has_sign_SFsigned, binary_round_aux_sign, H.
Qed.

End ExactSigns.

Section AnalyticPotentialProperties.

Variable M : MathLib.

Local Open Scope float_scope.

Lemma square_sign (x : float) :
  is_nan (pow_2 x) = false -> has_sign false (Prim2SF (pow_2 x)).
Proof.
  unfold pow_2. intros Hn. apply is_nan_Prim2SF in Hn. rewrite mul_spec in *.
  apply SFsquare_sign, Hn.
Qed.

Lemma add_not_nan (a b : float) :
  is_nan (a + b) = false -> is_nan a = false /\ is_nan b = false.
Proof.
  intros Hn. apply is_nan_Prim2SF in Hn. rewrite add_spec in Hn.
  split; apply is_nan_false_Prim2SF; intros E; rewrite E in Hn; apply Hn;
    [reflexivity | destruct (Prim2SF a); reflexivity].
Qed.

Lemma sqrt_not_nan (x : float) : is_nan (sqrt x) = false -> is_nan x = false.
Proof.
  intros Hn. apply is_nan_Prim2SF in Hn. rewrite sqrt_spec in Hn.
  apply is_nan_false_Prim2SF. intros E. rewrite E in Hn. apply Hn. reflexivity.
Qed.

Lemma div_not_nan (a b : float) :
  is_nan (a / b) = false -> is_nan a = false /\ is_nan b = false.
Proof.
  intros Hn. apply is_nan_Prim2SF in Hn. rewrite div_spec in Hn.
  split; apply is_nan_false_Prim2SF; intros E; rewrite E in Hn; apply Hn;
    [reflexivity | destruct (Prim2SF a); reflexivity].
Qed.

(** X16: the Plummer potential of a mass that is not negative is never
    positive: whatever the radius and the scale radius, the value is NaN
    or at most 0. *)
Theorem Plummer_potential_not_positive (p : Plummer) (r : float) :
  (0 <=? Plummer_mass p) = true ->
  is_nan (fst (fst (Plummer_eval_sph_rad p r))) = false ->
  (fst (fst (Plummer_eval_sph_rad p r)) <=? 0) = true.
Proof.
  unfold Plummer_eval_sph_rad. cbv zeta. cbn [fst]. intros Hm Hn.
  apply signed_true_iff.
  destruct (div_not_nan _ _ Hn) as [_ Hs].
  pose proof (sqrt_not_nan _ Hs) as Hr.
  destruct (add_not_nan _ _ Hr) as [H1 H2].
  unfold signed. rewrite div_spec.
  change true with (xorb true false).
  apply SFdiv_signed_by_sign.
  - apply (opp_signed false), signed_false_iff, Hm.
  - rewrite sqrt_spec. apply SFsqrt_sign_false. rewrite add_spec.
    apply SFadd_sign_false; try (apply square_sign; assumption).
    rewrite <- add_spec. apply is_nan_Prim2SF, Hr.
  - rewrite <- div_spec. apply is_nan_Prim2SF, Hn.
Qed.

(** X17: at the centre the NFW potential is NaN, whatever the mass, when
    the scale radius is a non-zero number and the logarithm of 1 is a
    zero: [-mass/r] is infinite or NaN there and is multiplied by
    [log(1) = 0].  Only the two derivatives have a branch for [r == 0]. *)
Theorem NFW_potential_at_centre (p : NFW) (r : float) :
  (r =? 0) = true ->
  is_nan (NFW_scaleRadius p) = false -> (NFW_scaleRadius p =? 0) = false ->
  (log M 1 =? 0) = true ->
  is_nan (fst (fst (NFW_eval_sph_rad M p r))) = true.
Proof.
  unfold NFW_eval_sph_rad. cbv zeta. cbn [fst]. intros Hr Ha Hz Hl.
  assert (E1 : 1 + r / NFW_scaleRadius p = 1).
  { apply Prim2SF_inj. rewrite add_spec, div_spec.
    apply is_nan_Prim2SF in Ha. rewrite eqb_spec in Hr, Hz.
    change (Prim2SF 0) with (S754_zero false) in *.
    change (Prim2SF 1) with (S754_finite false 4503599627370496 (-52)).
    destruct (Prim2SF r) as [sr|sr| |sr mr er];
      try discriminate Hr; try (destruct sr; discriminate Hr);
      destruct (Prim2SF (NFW_scaleRadius p)) as [sa|sa| |sa ma ea];
      try discriminate Hz; try congruence; reflexivity. }
  rewrite E1.
  unfold is_nan. rewrite eqb_spec, mul_spec, div_spec, opp_spec.
  rewrite eqb_spec in Hr, Hl. change (Prim2SF 0) with (S754_zero false) in *.
  destruct (Prim2SF r) as [sr|sr| |sr mr er];
    try discriminate Hr; try (destruct sr; discriminate Hr);
    destruct (Prim2SF (log M 1)) as [sl|sl| |sl ml el];
    try discriminate Hl; try (destruct sl; discriminate Hl);
    destruct (Prim2SF (NFW_mass p)) as [sm|sm| |sm mm em]; reflexivity.
Qed.

End AnalyticPotentialProperties.

(* ================================================================= *)
(** ** Instances on the reference data *)

Section Instances.

Local Open Scope float_scope.

Lemma abs_not_negative (x : float) : (abs x <? 0) = false.
Proof.
  rewrite ltb_spec, abs_spec.
  destruct (Prim2SF x) as [s|s| |s m e]; reflexivity.
Qed.

Lemma model_abs_constructed :
  SphericalIsotropicModel_new Examples.lib_abs Ref.pvol Ref.df Ref.gridh
  = Ok Examples.model_abs.
Proof.
  apply constructed_from_fields. vm_compute. reflexivity.
Qed.

Lemma evalLocal_drag_not_positive_witness :
  exists dvpar dv2par dv2per,
    evalLocal Examples.lib_abs Ref.local infinity (-1) (-0.5) = Ok (dvpar, dv2par, dv2per) /\
    is_finite dvpar = true /\ (dvpar <=? 0) = true.
Proof.
  destruct (evalLocal Examples.lib_abs Ref.local infinity (-1) (-0.5))
    as [[[dvpar dv2par] dv2per]| |] eqn:E; try (vm_compute in E; discriminate E).
  exists dvpar, dv2par, dv2per. split; [reflexivity|].
  assert (HF : is_finite dvpar = true).
  { vm_compute in E. inversion E. vm_compute. reflexivity. }
  split; [exact HF|].
  apply (evalLocal_drag_not_positive Examples.lib_abs Ref.local infinity (-1) (-0.5)
           dvpar dv2par dv2per).
  - intros x. apply abs_not_negative.
  - vm_compute. reflexivity.
  - exact E.
  - exact HF.
Defined.

Lemma write_profiles_safe_witness :
  exists gridH gridPhi gridG gridR gridRho gridVelDisp,
    write_profiles Ref.lib true Ref.model Ref.df Examples.pot_point Examples.R_max_point
      [0.1; 1; 10]
    = Ok (gridH, gridPhi, gridG, gridR, gridRho, gridVelDisp) /\
    List.length gridH = 3%nat /\ List.length gridRho = 3%nat /\
    strictly_increasing gridPhi = true /\
    Forall (fun r => is_finite r = true /\ (MIN_VALUE_ROUNDOFF <=? r) = true) gridRho.
Proof.
  destruct (write_profiles Ref.lib true Ref.model Ref.df Examples.pot_point
              Examples.R_max_point [0.1; 1; 10])
    as [[[[[[gridH gridPhi] gridG] gridR] gridRho] gridVelDisp]| |] eqn:E;
    try (vm_compute in E; discriminate E).
  exists gridH, gridPhi, gridG, gridR, gridRho, gridVelDisp.
  split; [reflexivity|].
  destruct (write_profiles_safe Ref.lib true Ref.model Ref.df Examples.pot_point
              Examples.R_max_point [0.1; 1; 10] gridH gridPhi gridG gridR gridRho
              gridVelDisp E) as (_ & _ & _ & L4 & _ & Hinc & Hrho & _).
  assert (L : List.length gridH = 3%nat).
  { vm_compute in E. inversion E. reflexivity. }
  repeat split; try assumption. congruence.
Defined.

Lemma negative_df_rejected_witness :
  SphericalIsotropicModel_new Ref.lib Ref.pvol Examples.df_neg Ref.gridh
  = Throw (negative_df_error (Ref.exp (Ref.log 10))
             (value Examples.df_neg (Ref.exp (Ref.log 10)))).
Proof.
  apply (negative_df_rejected Ref.lib Ref.pvol Examples.df_neg Ref.gridh
           (map Ref.log [0.01; 0.1; 1]) [Ref.log 100] (Ref.log 10)).
  - reflexivity.
  - repeat (constructor; [vm_compute; reflexivity|]). constructor.
  - vm_compute. reflexivity.
Defined.

Lemma constructed_tables_shape_witness :
  List.length (fval (intfg Ref.model)) = 5%nat /\
  Forall (fun x => is_finite x = true) (fval (intfg Ref.model)).
Proof.
  pose proof (constructed_tables_shape Ref.lib Ref.pvol Ref.df Ref.gridh Ref.model
                Ref_model_constructed) as H.
  cbv zeta in H. destruct H as (_ & _ & (_ & L & _) & _ & (_ & F & _)).
  split; [exact L | exact F].
Defined.

Lemma constructed_derivative_signs_witness :
  (0 <? totalMass Ref.model) = true /\
  Forall (fun d => (0 <=? d) = true) (fder (intfg Ref.model)).
Proof.
  destruct (constructed_derivative_signs Ref.lib Ref.pvol Ref.df Ref.gridh Ref.model
              Ref_model_constructed) as ((_ & _ & H1) & _ & H2 & _).
  split; [exact H1 | exact H2].
Defined.

Lemma cumulative_mass_monotonic_witness :
  nondecreasing (fval (intfg Examples.model_abs)) = true /\
  Forall (fun x => (0 <=? x) = true /\ (x <=? totalMass Examples.model_abs) = true)
    (fval (intfg Examples.model_abs)).
Proof.
  apply (cumulative_mass_monotonic Examples.lib_abs Ref.pvol Ref.df
           (fun x => abs_not_negative (Ref.exp x)) Ref.gridh Examples.model_abs).
  - vm_compute. reflexivity.
  - vm_compute. reflexivity.
  - vm_compute. reflexivity.
  - exact model_abs_constructed.
Defined.

Lemma Plummer_potential_not_positive_witness :
  (fst (fst (Plummer_eval_sph_rad {| Plummer_mass := 2; Plummer_scaleRadius := 0.5 |} 3))
   <=? 0) = true.
Proof.
  apply (Plummer_potential_not_positive
           {| Plummer_mass := 2; Plummer_scaleRadius := 0.5 |} 3).
  - vm_compute. reflexivity.
  - vm_compute. reflexivity.
Defined.

Lemma NFW_potential_at_centre_witness :
  is_nan (fst (fst (NFW_eval_sph_rad Ref.lib
                      {| NFW_mass := 2; NFW_scaleRadius := 0.5 |} 0))) = true.
Proof.
  apply (NFW_potential_at_centre Ref.lib {| NFW_mass := 2; NFW_scaleRadius := 0.5 |} 0).
  - vm_compute. reflexivity.
  - vm_compute. reflexivity.
  - vm_compute. reflexivity.
  - vm_compute. reflexivity.
Defined.

End Instances.
